(** * idiokit.threado: streams, channels, pipes and tasks

    A shallow embedding of [idiokit/threado.py].  Python objects live in a
    store indexed by object identity; every method is a function in a
    state-and-exception monad over that store.  Methods that call back into
    arbitrary other objects (callbacks, virtual [_next_raw], loops) take
    the record [methods] of recursive entry points, and the knot is tied by
    [methods_at] with a step index. *)

From Stdlib Require Import ZArith String.
From stdpp Require Import gmap list.
From Equations Require Import Equations.

Local Open Scope Z_scope.
Local Open Scope nat_scope.
Local Set Warnings "-register-all".

(** ** Values *)

(** Object identity: what Python's [is] compares. *)
Definition oid := nat.

Inductive exc_kind :=
| Finished
| NotFinished
| BrokenPipe
| StopIteration
| NotImplementedError
| TypeError
| ValueError
| AttributeError
| UserError (name : string).

Inductive value :=
| VNone
| VInt (z : Z)
| VStr (s : string)
| VRef (o : oid)
| VTuple (vs : list value)
| VType (k : exc_kind)
| VExc (k : exc_kind) (args : list value)
| VTb (t : nat)
| VClass (name : string).

(** [def peel_args(args)] *)
Definition peel_args (args : list value) : value :=
  match args with
  | [] => VNone
  | [x] => x
  | _ => VTuple args
  end.

(** The triple [(final, throw, args)] carried by every stream. *)
Definition item : Type := bool * bool * list value.

(** A raised exception, as [sys.exc_info()] shows it. *)
Record exn := Exn { exc_type : value; exc_value : value; exc_tb : value }.

(** [raise K(args...)]: a new exception with a traceback made at the raise. *)
Definition new_exn (k : exc_kind) (args : list value) : exn :=
  Exn (VType k) (VExc k args) (VTb 0).

(** [type(v)] *)
Definition type_of (v : value) : value :=
  match v with
  | VNone => VClass "NoneType"%string
  | VInt _ => VClass "int"%string
  | VStr _ => VClass "str"%string
  | VRef _ => VClass "object"%string
  | VTuple _ => VClass "tuple"%string
  | VType _ | VClass _ => VClass "type"%string
  | VExc k _ => VType k
  | VTb _ => VClass "traceback"%string
  end.

(** [exc.args] *)
Definition exn_args (e : exn) : list value :=
  match exc_value e with
  | VExc _ args => args
  | _ => []
  end.

Definition exc_info (e : exn) : list value :=
  [exc_type e; exc_value e; exc_tb e].

(** ** Callbacks, thunks and generators *)

(** The functions the module registers as callbacks, by name and bound
    [self]; [F_probe] stands for a user function that records its call. *)
Inductive func :=
| F_pipe_callback (self : oid)
| F_stack_callback (self : oid)
| F_PipePair_callback (self : oid)
| F_left_finish_callback (self : oid)
| F_right_finish_callback (self : oid)
| F_callqueue_add_step (self : oid)
| F_callqueue_add_Any_callback (self : oid)
| F_sub_callback (channel : oid)
| F_probe (tag : nat).

(** [class Callback]; [cb_id] is the identity of the Callback object. *)
Record Callback := mkCallback { cb_id : oid; cb_func : func }.

(** Entries of the call queue. *)
Inductive thunk :=
| T_begin (self : oid)
| T_step (self : oid) (source : oid)
| T_Any_init (self : oid) (sources : list oid)
| T_Any_callback (self : oid) (source : oid).

(** What a coroutine hands to [yield]. *)
Inductive yielded :=
| YNone
| YStream (o : oid)
| YStreams (os : list oid).

Inductive inner_call :=
| I_send (values : list value)
| I_finish (values : list value)
| I_sub (other : oid).

(** A generator body as the tree of its possible runs.  [Call] is a call
    on the [inner] handle that the body does not guard with try/except:
    an exception it raises leaves the generator. *)
Inductive gen :=
| Yield (y : yielded) (on_send : value -> gen) (on_throw : exn -> gen)
| Call (c : inner_call) (k : value -> gen)
| Return_
| RaiseExc (e : exn).

(** A generator object: not yet started, or suspended at a [yield]. *)
Inductive gen_state :=
| GenFresh (body : gen)
| GenSuspended (on_send : value -> gen) (on_throw : exn -> gen).

(** ** Objects *)

(** [class Reg]: the fields set by [Reg.__init__].  The two callback sets
    are kept in registration order (Python's set order is unspecified). *)
Record Reg_state := mkReg {
  message_callbacks : list Callback;
  finish_callbacks : list Callback;
  _id : option oid;
  _result : option (bool * list value)
}.

Record Pipeable_state := mkPipeable {
  pipes : gmap oid (option oid);
  pipes_pending : list oid;
  final : option item;
  outer : option oid
}.

Record GeneratorStream_state := mkGeneratorStream {
  stack : list oid;
  s_final : option item;
  inner : oid;
  _gen : option gen_state;
  _started : bool;
  input : oid;
  output : oid;
  gs_func : oid -> gen
}.

Record PipePair_state := mkPipePair {
  left : oid;
  right : oid;
  left_has_result : bool;
  right_has_result : bool;
  pp_input : oid
}.

Record Any_state := mkAny {
  _callbacks : option (gmap oid (option oid));
  _include_source : bool;
  _final : option item
}.

Inductive kind :=
| KReg
| KChannel (queue : list item)
| KNullSource
| KInner (p : Pipeable_state)
| KGeneratorStream (g : GeneratorStream_state)
| KPipePair (pp : PipePair_state)
| KAny (a : Any_state).

Record object := mkObject { reg : Reg_state; okind : kind }.

(** The store, the supply of new identities, the call queue with the
    event its wake-up sets, the class attribute [_running_streams] and the
    record of [F_probe] calls (tag, stream). *)
Record world := mkWorld {
  heap : gmap oid object;
  fresh : oid;
  callqueue : list thunk;
  event : bool;
  _running_streams : list oid;
  probe_log : list (nat * oid)
}.

(** ** The monad *)

Inductive outcome (A : Type) : Type :=
| Ret (a : A) (w : world)
| Raise (e : exn) (w : world)
| Diverge.
Arguments Ret {A} a w.
Arguments Raise {A} e w.
Arguments Diverge {A}.

Definition M (A : Type) : Type := world -> outcome A.

Definition ret {A} (a : A) : M A := fun w => Ret a w.

Definition bind {A B} (m : M A) (k : A -> M B) : M B :=
  fun w =>
    match m w with
    | Ret a w' => k a w'
    | Raise e w' => Raise e w'
    | Diverge => Diverge
    end.

Definition raise {A} (e : exn) : M A := fun w => Raise e w.

(** [try: m except: h] *)
Definition try_except {A} (m : M A) (h : exn -> M A) : M A :=
  fun w =>
    match m w with
    | Ret a w' => Ret a w'
    | Raise e w' => h e w'
    | Diverge => Diverge
    end.

Declare Scope M_scope.
Delimit Scope M_scope with M.
Notation "'let*' x ':=' m 'in' k" := (bind m (fun x => k))
  (at level 10, x pattern, m at level 100, k at level 200) : M_scope.
Notation "m '>>' k" := (bind m (fun _ => k))
  (at level 100, k at level 200, right associativity) : M_scope.
Local Open Scope M_scope.

Definition get_world : M world := fun w => Ret w w.
Definition put_world (w : world) : M unit := fun _ => Ret tt w.

Definition set_heap (h : gmap oid object) (w : world) : world :=
  mkWorld h (fresh w) (callqueue w) (event w) (_running_streams w) (probe_log w).

(** [object()]: a new identity. *)
Definition new_object : M oid :=
  fun w => Ret (fresh w)
    (mkWorld (heap w) (S (fresh w)) (callqueue w) (event w)
       (_running_streams w) (probe_log w)).

(** Attribute access on an object of the wrong class. *)
Definition attribute_error {A} : M A := raise (new_exn AttributeError []).

Definition get_object (o : oid) : M object :=
  fun w => match heap w !! o with
           | Some x => Ret x w
           | None => Raise (new_exn AttributeError []) w
           end.

Definition put_object (o : oid) (x : object) : M unit :=
  fun w => Ret tt (set_heap (<[o := x]> (heap w)) w).

Definition get_reg (o : oid) : M Reg_state :=
  let* x := get_object o in ret (reg x).

Definition put_reg (o : oid) (r : Reg_state) : M unit :=
  let* x := get_object o in put_object o (mkObject r (okind x)).

Definition get_kind (o : oid) : M kind :=
  let* x := get_object o in ret (okind x).

Definition put_kind (o : oid) (k : kind) : M unit :=
  let* x := get_object o in put_object o (mkObject (reg x) k).

(** [for x in xs: body(x)] *)
Fixpoint for_each {A} (xs : list A) (body : A -> M unit) : M unit :=
  match xs with
  | [] => ret tt
  | x :: xs' => body x >> for_each xs' body
  end.

(** The recursive entry points: calling a callback, the virtual methods
    that are overridden per class, and the two loops of the driver. *)
Record methods := mkMethods {
  m_call : Callback -> oid -> M unit;
  m__next_raw : oid -> M (option item);
  m_next_is_final : oid -> M bool;
  m_pipe : oid -> oid -> M unit;
  m__pipe_broken : oid -> M unit;
  m_iterate : M unit;
  m_run_loop : oid -> M unit
}.

(** ** class Reg *)

Definition new_Reg : Reg_state := mkReg [] [] None None.

(** Creating an object of class [k]: [Reg.__init__] on a new identity. *)
Definition allocate (k : kind) : M oid :=
  let* o := new_object in
  put_object o (mkObject new_Reg k) >> ret o.

(** The first critical section of [signal_activity]: latch [result],
    rotate [_id], take the message callbacks. *)
Definition Reg_signal_activity_locked (self : oid)
    (result : option (bool * list value)) : M (list Callback) :=
  let* r := get_reg self in
  let* token := new_object in
  put_reg self (mkReg [] (finish_callbacks r) (Some token) result) >>
  ret (message_callbacks r).

Definition Reg_take_finish_callbacks (self : oid) : M (list Callback) :=
  let* r := get_reg self in
  put_reg self (mkReg (message_callbacks r) [] (_id r) (_result r)) >>
  ret (finish_callbacks r).

(** [Reg.signal_activity(self, result=None)] *)
Definition Reg_signal_activity (rec : methods) (self : oid)
    (result : option (bool * list value)) : M unit :=
  let* callbacks := Reg_signal_activity_locked self result in
  for_each callbacks (fun callback => m_call rec callback self) >>
  match result with
  | Some _ =>
      let* callbacks := Reg_take_finish_callbacks self in
      for_each callbacks (fun callback => m_call rec callback self)
  | None => ret tt
  end.

(** The critical section of [add_message_callback]: the new Callback is
    registered and returned, or handed back to be called. *)
Definition Reg_add_message_callback_locked (self : oid) (f : func)
    : M (Callback * bool) :=
  let* c := new_object in
  let callback := mkCallback c f in
  let* r := get_reg self in
  match _id r with
  | None =>
      put_reg self (mkReg (message_callbacks r ++ [callback])
                      (finish_callbacks r) (_id r) (_result r)) >>
      ret (callback, true)
  | Some _ => ret (callback, false)
  end.

(** [Reg.add_message_callback(self, func, ...)] *)
Definition Reg_add_message_callback (rec : methods) (self : oid) (f : func)
    : M (option oid) :=
  let* (callback, registered) := Reg_add_message_callback_locked self f in
  if registered : bool then ret (Some (cb_id callback))
  else m_call rec callback self >> ret None.

Definition discard (c : option oid) (cs : list Callback) : list Callback :=
  match c with
  | Some c => filter (fun cb => cb_id cb ≠ c) cs
  | None => cs
  end.

(** [Reg.discard_message_callback(self, callback)] *)
Definition Reg_discard_message_callback (self : oid) (callback : option oid)
    : M unit :=
  let* r := get_reg self in
  put_reg self (mkReg (discard callback (message_callbacks r))
                  (finish_callbacks r) (_id r) (_result r)).

(** [Reg.add_finish_callback(self, func, ...)] *)
Definition Reg_add_finish_callback (rec : methods) (self : oid) (f : func)
    : M (option oid) :=
  let* c := new_object in
  let callback := mkCallback c f in
  let* r := get_reg self in
  match _result r with
  | None =>
      put_reg self (mkReg (message_callbacks r)
                      (finish_callbacks r ++ [callback]) (_id r) (_result r)) >>
      ret (Some c)
  | Some _ => m_call rec callback self >> ret None
  end.


(** [Reg.has_result(self)] *)
Definition Reg_has_result (self : oid) : M bool :=
  let* r := get_reg self in
  ret (bool_decide (_result r ≠ None)).

(** [Reg.next_raw(self)] *)
Definition Reg_next_raw (rec : methods) (self : oid) : M (option item) :=
  let* r := get_reg self in
  match _id r with
  | None => ret None
  | Some id0 =>
      let* it := m__next_raw rec self in
      match it with
      | None =>
          let* r := get_reg self in
          (if bool_decide (_id r = Some id0)
           then put_reg self (mkReg (message_callbacks r) (finish_callbacks r)
                                None (_result r))
           else ret tt) >>
          ret None
      | Some (final, throw, args) =>
          (if final : bool then
             let* r := get_reg self in
             let* i := match _id r with
                       | None => let* token := new_object in ret (Some token)
                       | Some i => ret (Some i)
                       end in
             put_reg self (mkReg (message_callbacks r) (finish_callbacks r)
                             i (Some (throw, args)))
           else ret tt) >>
          ret (Some (final, throw, args))
      end
  end.

(** [Reg.result_raw(self)] *)
Definition Reg_result_raw (self : oid) : M (bool * list value) :=
  let* r := get_reg self in
  match _result r with
  | None => raise (new_exn NotFinished [])
  | Some res => ret res
  end.

(** [type, exc, tb = args; raise type, exc, tb] *)
Definition raise_args {A} (args : list value) : M A :=
  match args with
  | [type; exc; tb] => raise (Exn type exc tb)
  | _ => raise (new_exn ValueError [])
  end.

(** [Reg.result(self)] *)
Definition Reg_result (self : oid) : M value :=
  let* (throw, args) := Reg_result_raw self in
  if throw : bool then raise_args args else ret (peel_args args).

(** ** class Channel *)

(** [Channel.__init__] *)
Definition Channel___init__ : M oid := allocate (KChannel []).

Definition get_queue (self : oid) : M (list item) :=
  let* k := get_kind self in
  match k with
  | KChannel queue => ret queue
  | _ => attribute_error
  end.

(** [Channel._push(self, final, throw, args)] *)
Definition Channel__push (rec : methods) (self : oid)
    (final throw : bool) (args : list value) : M unit :=
  let* queue := get_queue self in
  match last queue with
  | Some (true, _, _) => ret tt
  | _ =>
      let queue' := queue ++ [(final, throw, args)] in
      put_kind self (KChannel queue') >>
      if final then Reg_signal_activity rec self (Some (throw, args))
      else if bool_decide (length queue' = 1) then Reg_signal_activity rec self None
      else ret tt
  end.

(** [Channel.send(self, *values)] *)
Definition Channel_send (rec : methods) (self : oid) (values : list value)
    : M unit :=
  Channel__push rec self false false values.

(** [Channel.throw(self, exc, tb=None)] *)
Definition Channel_throw (rec : methods) (self : oid) (exc tb : value)
    : M unit :=
  Channel__push rec self true true [type_of exc; exc; tb].

(** [Channel.finish(self, *args)] *)
Definition Channel_finish (rec : methods) (self : oid) (args : list value)
    : M unit :=
  Channel__push rec self true false args.

(** [Channel.next_is_final(self)] *)
Definition Channel_next_is_final (self : oid) : M bool :=
  let* queue := get_queue self in
  match queue with
  | (true, _, _) :: _ => ret true
  | _ => ret false
  end.

(** [Channel._next_raw(self)] *)
Definition Channel__next_raw (self : oid) : M (option item) :=
  let* queue := get_queue self in
  match queue with
  | [] => ret None
  | (final, throw, args) :: rest =>
      put_kind self
        (KChannel (if final then rest ++ [(final, throw, args)] else rest)) >>
      ret (Some (final, throw, args))
  end.

(** ** class _Pipeable (and the fields of its subclass Inner) *)

Definition get_Pipeable (self : oid) : M Pipeable_state :=
  let* k := get_kind self in
  match k with
  | KInner p => ret p
  | _ => attribute_error
  end.

Definition put_Pipeable (self : oid) (p : Pipeable_state) : M unit :=
  put_kind self (KInner p).

Definition set_pipes (m : gmap oid (option oid)) (p : Pipeable_state) :=
  mkPipeable m (pipes_pending p) (final p) (outer p).

Definition set_pipes_pending (q : list oid) (p : Pipeable_state) :=
  mkPipeable (pipes p) q (final p) (outer p).

(** [_Pipeable._pipe_callback(self, other)] *)
Definition _Pipeable__pipe_callback (rec : methods) (self other : oid)
    : M unit :=
  let* p := get_Pipeable self in
  match pipes p !! other with
  | None => ret tt
  | Some _ =>
      let pending := pipes_pending p ++ [other] in
      put_Pipeable self
        (set_pipes_pending pending (set_pipes (<[other := None]> (pipes p)) p)) >>
      if bool_decide (1 < length pending) then ret tt
      else Reg_signal_activity rec self None
  end.

(** [_Pipeable._finish(self, throw, args)] *)
Definition _Pipeable__finish (rec : methods) (self : oid)
    (throw : bool) (args : list value) : M unit :=
  let* p := get_Pipeable self in
  match final p with
  | Some _ => ret tt
  | None =>
      put_Pipeable self (mkPipeable ∅ [] (Some (true, throw, args)) (outer p)) >>
      for_each (map_to_list (pipes p))
        (fun oc => Reg_discard_message_callback (fst oc) (snd oc)) >>
      Reg_signal_activity rec self (Some (throw, args))
  end.

(** [_Pipeable._pipe(self, other)] *)
Definition _Pipeable__pipe (rec : methods) (self other : oid) : M unit :=
  let* p := get_Pipeable self in
  match final p with
  | Some _ => ret tt
  | None =>
      match pipes p !! other with
      | Some _ => ret tt
      | None =>
          let pending := pipes_pending p ++ [other] in
          put_Pipeable self
            (set_pipes_pending pending
               (set_pipes (<[other := None]> (pipes p)) p)) >>
          if bool_decide (1 < length pending) then ret tt
          else Reg_signal_activity rec self None
      end
  end.

(** The rewriting of an upstream's terminal item: a success becomes a
    thrown [Finished] built from its args. *)
Definition finished_marker (throw : bool) (args : list value)
    : bool * list value :=
  if throw then (throw, args)
  else (true, [VType Finished; VExc Finished args; VNone]).

(** [_Pipeable._next_raw(self)]; one turn of its [while True], the next
    turn being the method again. *)
Definition _Pipeable__next_raw (rec : methods) (self : oid)
    : M (option item) :=
  let* p := get_Pipeable self in
  match final p with
  | Some f => ret (Some f)
  | None =>
      match pipes_pending p with
      | [] => ret None
      | other :: rest =>
          put_Pipeable self (set_pipes_pending rest p) >>
          let* it := Reg_next_raw rec other in
          match it with
          | None =>
              let* token := new_object in
              let* p := get_Pipeable self in
              put_Pipeable self
                (set_pipes (<[other := Some token]> (pipes p)) p) >>
              let* callback :=
                Reg_add_message_callback rec other (F_pipe_callback self) in
              let* p := get_Pipeable self in
              if bool_decide (pipes p !! other = Some (Some token)) then
                put_Pipeable self
                  (set_pipes (<[other := callback]> (pipes p)) p) >>
                m__next_raw rec self
              else
                Reg_discard_message_callback other callback >>
                m__next_raw rec self
          | Some (final, throw, args) =>
              if final : bool then
                let* p := get_Pipeable self in
                let callback := default None (pipes p !! other) in
                put_Pipeable self (set_pipes (delete other (pipes p)) p) >>
                Reg_discard_message_callback other callback >>
                let (throw', args') := finished_marker throw args in
                ret (Some (false, throw', args'))
              else
                let* p := get_Pipeable self in
                put_Pipeable self
                  (set_pipes_pending (pipes_pending p ++ [other]) p) >>
                ret (Some (false, throw, args))
          end
      end
  end.

(** [_Pipeable.next_is_final(self)] *)
Definition _Pipeable_next_is_final (self : oid) : M bool :=
  let* p := get_Pipeable self in
  ret (bool_decide (final p ≠ None)).

(** ** class _Stackable (and the fields of its subclass GeneratorStream) *)

Definition get_GeneratorStream (self : oid) : M GeneratorStream_state :=
  let* k := get_kind self in
  match k with
  | KGeneratorStream g => ret g
  | _ => attribute_error
  end.

Definition put_GeneratorStream (self : oid) (g : GeneratorStream_state)
    : M unit :=
  put_kind self (KGeneratorStream g).

Definition set_stack (s : list oid) (g : GeneratorStream_state) :=
  mkGeneratorStream s (s_final g) (inner g) (_gen g) (_started g)
    (input g) (output g) (gs_func g).

Definition set_s_final (f : option item) (g : GeneratorStream_state) :=
  mkGeneratorStream (stack g) f (inner g) (_gen g) (_started g)
    (input g) (output g) (gs_func g).

Definition set__gen (x : option gen_state) (g : GeneratorStream_state) :=
  mkGeneratorStream (stack g) (s_final g) (inner g) x (_started g)
    (input g) (output g) (gs_func g).

Definition set__started (b : bool) (g : GeneratorStream_state) :=
  mkGeneratorStream (stack g) (s_final g) (inner g) (_gen g) b
    (input g) (output g) (gs_func g).

Definition set_output (o : oid) (g : GeneratorStream_state) :=
  mkGeneratorStream (stack g) (s_final g) (inner g) (_gen g) (_started g)
    (input g) o (gs_func g).

(** [_Stackable._stack_callback(self, other)] *)
Definition _Stackable__stack_callback (rec : methods) (self other : oid)
    : M unit :=
  let* g := get_GeneratorStream self in
  match s_final g, stack g with
  | Some _, _ => ret tt
  | None, [] => ret tt
  | None, head :: _ =>
      if bool_decide (other = head) then Reg_signal_activity rec self None
      else ret tt
  end.

(** [if self.stack and other is self.stack[0]: self.stack.popleft()] *)
Definition pop_if_head (self other : oid) : M unit :=
  let* g := get_GeneratorStream self in
  match stack g with
  | head :: rest =>
      if bool_decide (other = head) then
        put_GeneratorStream self (set_stack rest g)
      else ret tt
  | [] => ret tt
  end.

(** [_Stackable.next_is_final(self)]; one turn of its [while True]. *)
Definition _Stackable_next_is_final (rec : methods) (self : oid) : M bool :=
  let* g := get_GeneratorStream self in
  match stack g with
  | [] => ret (bool_decide (s_final g ≠ None))
  | other :: _ =>
      let* b := m_next_is_final rec other in
      if b : bool then pop_if_head self other >> m_next_is_final rec self
      else ret false
  end.

(** [_Stackable._stack(self, other)] *)
Definition _Stackable__stack (rec : methods) (self other : oid) : M unit :=
  let* g := get_GeneratorStream self in
  match s_final g with
  | Some _ => ret tt
  | None =>
      put_GeneratorStream self (set_stack (stack g ++ [other]) g) >>
      _Stackable_next_is_final rec self >>
      Reg_signal_activity rec self None
  end.

(** [_Stackable._finish(self, throw, args)] *)
Definition _Stackable__finish (rec : methods) (self : oid)
    (throw : bool) (args : list value) : M unit :=
  let* g := get_GeneratorStream self in
  match s_final g with
  | Some _ => ret tt
  | None =>
      put_GeneratorStream self (set_s_final (Some (true, throw, args)) g) >>
      _Stackable_next_is_final rec self >>
      Reg_signal_activity rec self (Some (throw, args))
  end.

(** [_Stackable._next_raw(self)]; one turn of its [while True]. *)
Definition _Stackable__next_raw (rec : methods) (self : oid)
    : M (option item) :=
  let* g := get_GeneratorStream self in
  match stack g with
  | [] => ret (s_final g)
  | other :: _ =>
      let* it := Reg_next_raw rec other in
      match it with
      | None =>
          Reg_add_message_callback rec other (F_stack_callback self) >>
          ret None
      | Some (final, throw, args) =>
          if final : bool then pop_if_head self other >> m__next_raw rec self
          else ret (Some (final, throw, args))
      end
  end.

(** ** class NullSource and the call queue *)

(** [NullSource._next_raw(self)] *)
Definition NullSource__next_raw : M (option item) :=
  ret (Some (false, false, [])).

(** The module-level [null_source = NullSource()] is the first object. *)
Definition null_source : oid := 0.

(** Modelled from the spec: the module [callqueue] is not part of the
    sources.  [add(fn, args...)] appends a thunk to a FIFO and invokes the
    wake-up of the exclusive region, which [run] sets to [event.set]. *)
Definition callqueue_add (t : thunk) : M unit :=
  fun w => Ret tt (mkWorld (heap w) (fresh w) (callqueue w ++ [t]) true
                     (_running_streams w) (probe_log w)).

(** ** class Any *)

Definition get_Any (self : oid) : M Any_state :=
  let* k := get_kind self in
  match k with
  | KAny a => ret a
  | _ => attribute_error
  end.

Definition put_Any (self : oid) (a : Any_state) : M unit :=
  put_kind self (KAny a).

(** [Any.__init__(self, include_source, first, *rest)]; the set of sources
    is kept in argument order. *)
Definition Any___init__ (include_source : bool) (first : oid)
    (rest : list oid) : M oid :=
  let* self := allocate (KAny (mkAny (Some ∅) include_source None)) in
  callqueue_add (T_Any_init self (remove_dups (first :: rest))) >>
  ret self.

(** [self._callbacks[source] = handle] *)
Definition Any_set_callback (self source : oid) (handle : option oid)
    : M unit :=
  let* a := get_Any self in
  match _callbacks a with
  | Some callbacks =>
      put_Any self (mkAny (Some (<[source := handle]> callbacks))
                      (_include_source a) (_final a))
  | None => raise (new_exn TypeError [])
  end.

(** [Any._init(self, sources)] *)
Definition Any__init (rec : methods) (self : oid) (sources : list oid)
    : M unit :=
  for_each sources (fun source =>
    let* handle :=
      Reg_add_message_callback rec source (F_callqueue_add_Any_callback self) in
    Any_set_callback self source handle).

(** [Any._callback(self, source)] *)
Definition Any__callback (rec : methods) (self source : oid) : M unit :=
  let* a := get_Any self in
  match _callbacks a with
  | None => ret tt
  | Some _ =>
      let* it := Reg_next_raw rec source in
      match it with
      | None =>
          let* handle :=
            Reg_add_message_callback rec source
              (F_callqueue_add_Any_callback self) in
          Any_set_callback self source handle
      | Some (_, throw, args) =>
          let* a := get_Any self in
          match _callbacks a with
          | None => attribute_error
          | Some callbacks =>
              put_Any self (mkAny None (_include_source a) (_final a)) >>
              for_each (map_to_list callbacks) (fun oc =>
                if bool_decide (fst oc ≠ source)
                then Reg_discard_message_callback (fst oc) (snd oc)
                else ret tt) >>
              let args' :=
                if negb throw && _include_source a
                then [VRef source; peel_args args] else args in
              let* a := get_Any self in
              put_Any self (mkAny (_callbacks a) (_include_source a)
                              (Some (true, throw, args'))) >>
              Reg_signal_activity rec self (Some (throw, args'))
          end
      end
  end.

(** [Any.next_is_final(self)] *)
Definition Any_next_is_final (self : oid) : M bool :=
  let* a := get_Any self in
  ret (bool_decide (_final a ≠ None)).

(** [Any._next_raw(self)] *)
Definition Any__next_raw (self : oid) : M (option item) :=
  let* a := get_Any self in
  ret (_final a).

(** [def any(first, *rest)] *)
Definition any (first : oid) (rest : list oid) : M oid :=
  Any___init__ true first rest.

(** ** class GeneratorStream, class Inner *)

(** [GeneratorStream.inner_send(self, *args)] *)
Definition GeneratorStream_inner_send (rec : methods) (self : oid)
    (args : list value) : M unit :=
  let* g := get_GeneratorStream self in
  Channel_send rec (output g) args.

(** [GeneratorStream.inner_finish(self, throw, args)] *)
Definition GeneratorStream_inner_finish (rec : methods) (self : oid)
    (throw : bool) (args : list value) : M unit :=
  _Stackable__finish rec self throw args >>
  let* g := get_GeneratorStream self in
  if throw then
    match args with
    | [_; exc; tb] => Channel_throw rec (output g) exc tb
    | _ => raise (new_exn ValueError [])
    end
  else Channel_finish rec (output g) args.

(** [GeneratorStream.inner_sub(self, other)] *)
Definition GeneratorStream_inner_sub (rec : methods) (self other : oid)
    : M unit :=
  let* g := get_GeneratorStream self in
  let old_output := output g in
  let* new_output := Channel___init__ in
  put_GeneratorStream self (set_output new_output g) >>
  Channel_finish rec old_output [] >>
  _Stackable__stack rec self other >>
  let* g := get_GeneratorStream self in
  _Stackable__stack rec self (output g).

(** [Inner.send(self, *values)] *)
Definition Inner_send (rec : methods) (self : oid) (values : list value)
    : M unit :=
  let* p := get_Pipeable self in
  match outer p with
  | Some o => GeneratorStream_inner_send rec o values
  | None => ret tt
  end.

(** [Inner.finish(self, *values)] *)
Definition Inner_finish (self : oid) (values : list value) : M unit :=
  raise (new_exn Finished values).

(** [Inner._finish(self, throw, args)] *)
Definition Inner__finish (rec : methods) (self : oid)
    (throw : bool) (args : list value) : M unit :=
  _Pipeable__finish rec self throw args >>
  let* p := get_Pipeable self in
  match outer p with
  | Some o =>
      GeneratorStream_inner_finish rec o throw args >>
      let* p := get_Pipeable self in
      put_Pipeable self (mkPipeable (pipes p) (pipes_pending p) (final p) None)
  | None => ret tt
  end.

(** The [_callback(channel, _)] that [Inner.sub] defines. *)
Definition Inner_sub__callback (rec : methods) (channel other : oid)
    : M unit :=
  let* (throw, args) := Reg_result_raw other in
  if throw : bool then
    match args with
    | [_; exc; tb] => Channel_throw rec channel exc tb
    | _ => raise (new_exn ValueError [])
    end
  else Channel_finish rec channel args.

(** [Inner.sub(self, other)] *)
Definition Inner_sub (rec : methods) (self other : oid) : M oid :=
  let* channel := Channel___init__ in
  m_pipe rec other self >>
  Reg_add_finish_callback rec other (F_sub_callback channel) >>
  let* p := get_Pipeable self in
  match outer p with
  | Some o => GeneratorStream_inner_sub rec o other
  | None => ret tt
  end >>
  ret channel.

(** A call of the coroutine on its [inner] handle. *)
Definition inner_call_run (rec : methods) (inner : oid) (c : inner_call)
    : M value :=
  match c with
  | I_send values => Inner_send rec inner values >> ret VNone
  | I_finish values => Inner_finish inner values >> ret VNone
  | I_sub other => let* ch := Inner_sub rec inner other in ret (VRef ch)
  end.

(** Running a generator body up to its next [yield]; an exception that
    leaves the body is raised, a plain return raises [StopIteration]. *)
Fixpoint gen_run (rec : methods) (inner : oid) (g : gen)
    : M (yielded * gen_state) :=
  match g with
  | Yield y on_send on_throw => ret (y, GenSuspended on_send on_throw)
  | Call c k => let* v := inner_call_run rec inner c in gen_run rec inner (k v)
  | Return_ => raise (new_exn StopIteration [])
  | RaiseExc e => raise e
  end.

(** [self._gen.throw(args...)] and [self._gen.send(peel_args(args))]: where
    the generator body continues. *)
Definition gen_continue (st : gen_state) (throw : bool) (args : list value)
    : gen :=
  if throw then
    let e := match args with
             | [type] => Some (Exn type VNone VNone)
             | [type; exc] => Some (Exn type exc VNone)
             | [type; exc; tb] => Some (Exn type exc tb)
             | _ => None
             end in
    match e, st with
    | None, _ => RaiseExc (new_exn TypeError [])
    | Some e, GenFresh _ => RaiseExc e
    | Some e, GenSuspended _ on_throw => on_throw e
    end
  else
    match st with
    | GenFresh body =>
        match peel_args args with
        | VNone => body
        | _ => RaiseExc (new_exn TypeError [])
        end
    | GenSuspended on_send _ => on_send (peel_args args)
    end.

Definition gen_resume (rec : methods) (self : oid)
    (throw : bool) (args : list value) : M yielded :=
  let* g := get_GeneratorStream self in
  match _gen g with
  | None => attribute_error
  | Some st =>
      let* (y, st') := gen_run rec (inner g) (gen_continue st throw args) in
      let* g := get_GeneratorStream self in
      put_GeneratorStream self (set__gen (Some st') g) >>
      ret y
  end.

(** [GeneratorStream.start(self)] *)
Definition GeneratorStream_start (self : oid) : M unit :=
  let* g := get_GeneratorStream self in
  if _started g then ret tt
  else
    put_GeneratorStream self
      (set__gen (Some (GenFresh (gs_func g (inner g)))) (set__started true g)) >>
    callqueue_add (T_begin self).

(** [GeneratorStream._end(self, throw, args)] *)
Definition GeneratorStream__end (rec : methods) (self : oid)
    (throw : bool) (args : list value) : M unit :=
  let* g := get_GeneratorStream self in
  put_GeneratorStream self (set__gen None g) >>
  (fun w => Ret tt (mkWorld (heap w) (fresh w) (callqueue w) (event w)
                      (filter (fun o => o ≠ self) (_running_streams w))
                      (probe_log w))) >>
  Inner__finish rec (inner g) throw args.

Definition is_StopIteration_or_Finished (e : exn) : bool :=
  match exc_type e with
  | VType StopIteration | VType Finished => true
  | _ => false
  end.

(** [GeneratorStream._step(self, source)] *)
Definition GeneratorStream__step (rec : methods) (self source : oid)
    : M unit :=
  let* it := Reg_next_raw rec source in
  match it with
  | None =>
      Reg_add_message_callback rec source (F_callqueue_add_step self) >>
      ret tt
  | Some (final, throw, args) =>
      fun w =>
        match gen_resume rec self throw args w with
        | Raise e w' =>
            if is_StopIteration_or_Finished e
            then GeneratorStream__end rec self false (exn_args e) w'
            else GeneratorStream__end rec self true (exc_info e) w'
        | Ret y w' =>
            (let* next :=
               match y with
               | YNone => ret null_source
               | YStream o => ret o
               | YStreams (first :: rest) => Any___init__ false first rest
               | YStreams [] => raise (new_exn TypeError [])
               end in
             Reg_add_message_callback rec next (F_callqueue_add_step self) >>
             ret tt) w'
        | Diverge => Diverge
        end
  end.

(** [GeneratorStream._begin(self)] *)
Definition GeneratorStream__begin (rec : methods) (self : oid) : M unit :=
  (fun w => Ret tt (mkWorld (heap w) (fresh w) (callqueue w) (event w)
                      (self :: filter (fun o => o ≠ self) (_running_streams w))
                      (probe_log w))) >>
  GeneratorStream__step rec self null_source.

(** [FuncStream.__init__(self, func, ...)] on top of
    [GeneratorStream.__init__]: [func] is the generator function with its
    arguments but [inner] supplied. *)
Definition FuncStream___init__ (rec : methods) (func : oid -> gen) : M oid :=
  let* self := allocate KReg in
  let* inner :=
    allocate (KInner (mkPipeable ∅ [] None (Some self))) in
  let* input := Channel___init__ in
  let* output := Channel___init__ in
  put_GeneratorStream self
    (mkGeneratorStream [] None inner None false input output func) >>
  _Pipeable__pipe rec inner input >>
  _Stackable__stack rec self output >>
  GeneratorStream_start self >>
  ret self.

(** [def stream(func)]: calling the decorated function. *)
Definition stream (rec : methods) (func : oid -> gen) : M oid :=
  FuncStream___init__ rec func.

(** [GeneratorStream.pipe(self, other)] *)
Definition GeneratorStream_pipe (rec : methods) (self other : oid) : M unit :=
  let* g := get_GeneratorStream self in
  _Pipeable__pipe rec (inner g) other.

(** [GeneratorStream.send(self, *values)] *)
Definition GeneratorStream_send (rec : methods) (self : oid)
    (values : list value) : M unit :=
  let* g := get_GeneratorStream self in
  Channel_send rec (input g) values.

(** [GeneratorStream.throw(self, exc, tb=None)] *)
Definition GeneratorStream_throw (rec : methods) (self : oid) (exc tb : value)
    : M unit :=
  let* g := get_GeneratorStream self in
  Channel_throw rec (input g) exc tb.

(** [GeneratorStream._pipe_broken(self)] *)
Definition GeneratorStream__pipe_broken (rec : methods) (self : oid)
    : M unit :=
  GeneratorStream_throw rec self (VExc BrokenPipe []) VNone.

(** ** class PipePair *)

Definition get_PipePair (self : oid) : M PipePair_state :=
  let* k := get_kind self in
  match k with
  | KPipePair pp => ret pp
  | _ => attribute_error
  end.

Definition put_PipePair (self : oid) (pp : PipePair_state) : M unit :=
  put_kind self (KPipePair pp).

(** [PipePair._finish(self)] *)
Definition PipePair__finish (rec : methods) (self : oid) : M unit :=
  let* pp := get_PipePair self in
  let* result := Reg_result_raw (right pp) in
  Reg_signal_activity rec self (Some result).

(** [PipePair._left_finish_callback(self, _)] *)
Definition PipePair__left_finish_callback (rec : methods) (self : oid)
    : M unit :=
  let* pp := get_PipePair self in
  put_PipePair self
    (mkPipePair (left pp) (right pp) true (right_has_result pp) (pp_input pp)) >>
  if right_has_result pp then PipePair__finish rec self else ret tt.

(** [PipePair._right_finish_callback(self, _)] *)
Definition PipePair__right_finish_callback (rec : methods) (self : oid)
    : M unit :=
  let* pp := get_PipePair self in
  m__pipe_broken rec (left pp) >>
  let* pp := get_PipePair self in
  put_PipePair self
    (mkPipePair (left pp) (right pp) (left_has_result pp) true (pp_input pp)) >>
  if left_has_result pp then PipePair__finish rec self else ret tt.

(** [PipePair._callback(self, _)] *)
Definition PipePair__callback (rec : methods) (self : oid) : M unit :=
  Reg_signal_activity rec self None.

(** [PipePair.__init__(self, left, right)] *)
Definition PipePair___init__ (rec : methods) (left right : oid) : M oid :=
  let* self := allocate KReg in
  let* input := Channel___init__ in
  put_PipePair self (mkPipePair left right false false input) >>
  m_pipe rec left input >>
  m_pipe rec right left >>
  Reg_add_finish_callback rec left (F_left_finish_callback self) >>
  Reg_add_finish_callback rec right (F_right_finish_callback self) >>
  Reg_add_message_callback rec right (F_PipePair_callback self) >>
  ret self.

(** [PipePair._pipe_broken(self)] *)
Definition PipePair__pipe_broken (rec : methods) (self : oid) : M unit :=
  let* pp := get_PipePair self in
  m__pipe_broken rec (right pp).

(** [PipePair.pipe(self, other)] *)
Definition PipePair_pipe (rec : methods) (self other : oid) : M unit :=
  let* pp := get_PipePair self in
  m_pipe rec (left pp) other.

(** [PipePair._next_raw(self)] *)
Definition PipePair__next_raw (rec : methods) (self : oid)
    : M (option item) :=
  let* pp := get_PipePair self in
  let* it := Reg_next_raw rec (right pp) in
  match it with
  | None =>
      Reg_add_message_callback rec (right pp) (F_PipePair_callback self) >>
      ret None
  | Some (final, throw, args) =>
      let* pp := get_PipePair self in
      if final && negb (left_has_result pp) then ret None
      else ret (Some (final, throw, args))
  end.

(** [PipePair.send(self, *values)] *)
Definition PipePair_send (rec : methods) (self : oid) (values : list value)
    : M unit :=
  let* pp := get_PipePair self in
  Channel_send rec (pp_input pp) values.

(** [PipePair.throw(self, exc, tb=None)] *)
Definition PipePair_throw (rec : methods) (self : oid) (exc tb : value)
    : M unit :=
  let* pp := get_PipePair self in
  Channel_throw rec (pp_input pp) exc tb.

(** [PipePair.next_is_final(self)] *)
Definition PipePair_next_is_final (rec : methods) (self : oid) : M bool :=
  let* pp := get_PipePair self in
  m_next_is_final rec (right pp).

(** [def pipe(first, *rest)], on the tuple of all its arguments; a call
    without arguments is a TypeError. *)
Equations? pipe_args (rec : methods) (streams : list oid) : M oid
    by wf (length streams) lt :=
  pipe_args rec [] := raise (new_exn TypeError []);
  pipe_args rec [first] := ret first;
  pipe_args rec (first :: rest) :=
    let cut := length rest / 2 in
    let* l := pipe_args rec (first :: take cut rest) in
    let* r := pipe_args rec (drop cut rest) in
    PipePair___init__ rec l r.
Proof.
  - assert (cut ≤ length l).
    { subst cut. change ((Nat.divmod (length l) 1 0 0).1) with (S (length l) / 2).
      pose proof (Nat.Div0.div_lt_upper_bound (S (length l)) 2 (S (length l))). lia. }
    rewrite length_take. lia.
  - rewrite length_drop. subst rest. simpl length. lia.
Qed.

Definition pipe (rec : methods) (first : oid) (rest : list oid) : M oid :=
  pipe_args rec (first :: rest).

(** ** Dynamic dispatch *)

(** [self._next_raw()] *)
Definition dispatch__next_raw (rec : methods) (self : oid) : M (option item) :=
  let* k := get_kind self in
  match k with
  | KReg => raise (new_exn NotImplementedError [])
  | KChannel _ => Channel__next_raw self
  | KNullSource => NullSource__next_raw
  | KInner _ => _Pipeable__next_raw rec self
  | KGeneratorStream _ => _Stackable__next_raw rec self
  | KPipePair _ => PipePair__next_raw rec self
  | KAny _ => Any__next_raw self
  end.

(** [self.next_is_final()] *)
Definition dispatch_next_is_final (rec : methods) (self : oid) : M bool :=
  let* k := get_kind self in
  match k with
  | KReg | KNullSource => raise (new_exn NotImplementedError [])
  | KChannel _ => Channel_next_is_final self
  | KInner _ => _Pipeable_next_is_final self
  | KGeneratorStream _ => _Stackable_next_is_final rec self
  | KPipePair _ => PipePair_next_is_final rec self
  | KAny _ => Any_next_is_final self
  end.

(** [self.pipe(other)] *)
Definition dispatch_pipe (rec : methods) (self other : oid) : M unit :=
  let* k := get_kind self in
  match k with
  | KGeneratorStream _ => GeneratorStream_pipe rec self other
  | KPipePair _ => PipePair_pipe rec self other
  | _ => raise (new_exn NotImplementedError [])
  end.

(** [self._pipe_broken()] *)
Definition dispatch__pipe_broken (rec : methods) (self : oid) : M unit :=
  let* k := get_kind self in
  match k with
  | KGeneratorStream _ => GeneratorStream__pipe_broken rec self
  | KPipePair _ => PipePair__pipe_broken rec self
  | _ => attribute_error
  end.

(** [self.send(values...)] *)
Definition dispatch_send (rec : methods) (self : oid) (values : list value)
    : M unit :=
  let* k := get_kind self in
  match k with
  | KChannel _ => Channel_send rec self values
  | KInner _ => Inner_send rec self values
  | KGeneratorStream _ => GeneratorStream_send rec self values
  | KPipePair _ => PipePair_send rec self values
  | KAny _ => raise (new_exn NotImplementedError [])
  | KReg | KNullSource => ret tt
  end.

(** [self.throw(exc, tb)] *)
Definition dispatch_throw (rec : methods) (self : oid) (exc tb : value)
    : M unit :=
  let* k := get_kind self in
  match k with
  | KChannel _ => Channel_throw rec self exc tb
  | KGeneratorStream _ => GeneratorStream_throw rec self exc tb
  | KPipePair _ => PipePair_throw rec self exc tb
  | KAny _ => raise (new_exn NotImplementedError [])
  | KReg | KNullSource | KInner _ => ret tt
  end.

(** A user callback that only records that it ran, and on which stream. *)
Definition probe (tag : nat) (stream : oid) : M unit :=
  fun w => Ret tt (mkWorld (heap w) (fresh w) (callqueue w) (event w)
                     (_running_streams w) (probe_log w ++ [(tag, stream)])).

(** [Callback.call(self, args...)] with the stream as the one argument. *)
Definition Callback_call (rec : methods) (callback : Callback) (stream : oid)
    : M unit :=
  match cb_func callback with
  | F_pipe_callback self => _Pipeable__pipe_callback rec self stream
  | F_stack_callback self => _Stackable__stack_callback rec self stream
  | F_PipePair_callback self => PipePair__callback rec self
  | F_left_finish_callback self => PipePair__left_finish_callback rec self
  | F_right_finish_callback self => PipePair__right_finish_callback rec self
  | F_callqueue_add_step self => callqueue_add (T_step self stream)
  | F_callqueue_add_Any_callback self =>
      callqueue_add (T_Any_callback self stream)
  | F_sub_callback channel => Inner_sub__callback rec channel stream
  | F_probe tag => probe tag stream
  end.

(** ** The dispatcher *)

Definition thunk_run (rec : methods) (t : thunk) : M unit :=
  match t with
  | T_begin self => GeneratorStream__begin rec self
  | T_step self source => GeneratorStream__step rec self source
  | T_Any_init self sources => Any__init rec self sources
  | T_Any_callback self source => Any__callback rec self source
  end.

(** Modelled from the spec: [callqueue] is not part of the sources.  The
    [iterate] handle of the exclusive region drains the FIFO on the owning
    thread, oldest thunk first; a thunk that raises ends the drain with
    that exception. *)
Definition callqueue_iterate (rec : methods) : M unit :=
  let* w := get_world in
  match callqueue w with
  | [] => ret tt
  | t :: rest =>
      put_world (mkWorld (heap w) (fresh w) rest (event w)
                   (_running_streams w) (probe_log w)) >>
      thunk_run rec t >>
      m_iterate rec
  end.

Definition set_event (b : bool) : M unit :=
  fun w => Ret tt (mkWorld (heap w) (fresh w) (callqueue w) b
                     (_running_streams w) (probe_log w)).

(** Waiting on the event with nobody left to set it never ends: the model
    has the dispatcher thread only. *)
Definition wait_forever {A} : M A := fun _ => Diverge.

(** The [while not main.has_result()] loop of [run]. *)
Definition run_loop (rec : methods) (main : oid) : M unit :=
  let* done := Reg_has_result main in
  if done : bool then ret tt
  else
    m_iterate rec >>
    let* done := Reg_has_result main in
    let* w := get_world in
    if done || event w then set_event false >> m_run_loop rec main
    else wait_forever.

(** [def run(main, throw_on_signal=None)], without signal handlers. *)
Definition run (rec : methods) (main : oid) : M value :=
  set_event false >>
  run_loop rec main >>
  let* (throw, args) := Reg_result_raw main in
  if throw : bool then raise_args args else ret (peel_args args).

(** ** Tying the knot *)

Definition no_methods : methods :=
  mkMethods (fun _ _ _ => Diverge) (fun _ _ => Diverge) (fun _ _ => Diverge)
    (fun _ _ _ => Diverge) (fun _ _ => Diverge) (fun _ => Diverge)
    (fun _ _ => Diverge).

Definition step_methods (rec : methods) : methods :=
  mkMethods (Callback_call rec) (dispatch__next_raw rec)
    (dispatch_next_is_final rec) (dispatch_pipe rec)
    (dispatch__pipe_broken rec) (callqueue_iterate rec) (run_loop rec).

(** [methods_at n]: the methods with calls nested at most [n] deep. *)
Fixpoint methods_at (n : nat) : methods :=
  match n with
  | 0 => no_methods
  | S n' => step_methods (methods_at n')
  end.

(** [k] more levels of calls on top of [rec]; whatever a scenario computes
    with [methods_from k rec] for an arbitrary [rec], it computes with
    every [methods_at n], [n >= k]. *)
Definition methods_from (k : nat) (rec : methods) : methods :=
  Nat.iter k step_methods rec.

(** The state after the module is imported: [null_source] exists and has
    signalled activity once. *)
Definition world0 : world :=
  mkWorld {[ null_source := mkObject (mkReg [] [] (Some 1) None) KNullSource ]}
    2 [] false [] [].

(** * Scenarios and predicates *)

(** ** Coroutines of the scenarios *)

(** A coroutine that calls [inner.finish(7)] and would then send 0. *)
Definition finishing_task (inner : oid) : gen :=
  Call (I_finish [VInt 7]) (fun _ => Call (I_send [VInt 0]) (fun _ => Return_)).

(** A coroutine that waits for one input: [yield inner], twice if the first
    wait ends with an exception, which it catches. *)
Definition waiting_task (inner : oid) : gen :=
  Yield (YStream inner) (fun _ => Return_)
    (fun _ => Yield (YStream inner) (fun _ => Return_) RaiseExc).

(** A coroutine that raises a user exception [E(1)]. *)
Definition failing_task (inner : oid) : gen :=
  RaiseExc (Exn (VType (UserError "E")) (VExc (UserError "E") [VInt 1]) (VTb 7)).

(** A coroutine that finishes with no value, and one with two values. *)
Definition returning_task (inner : oid) : gen := Return_.
Definition finishing_pair_task (inner : oid) : gen :=
  Call (I_finish [VInt 1; VInt 2]) (fun _ => Return_).

(** A coroutine that sends 5 and finishes with 7. *)
Definition send_then_finish_task (inner : oid) : gen :=
  Call (I_send [VInt 5]) (fun _ => Call (I_finish [VInt 7]) (fun _ => Return_)).

(** ** Channel: echo and idempotent close *)

Definition nonfinal (it : item) : Prop := it.1.1 = false.

(** A terminal item, if any, is the last of the queue. *)
Definition queue_ok (queue : list item) : Prop :=
  Forall nonfinal queue ∨
  ∃ body t a, queue = body ++ [(true, t, a)] ∧ Forall nonfinal body.

(** [n] reads with [next_raw()]. *)
Fixpoint read_n (n : nat) (rec : methods) (self : oid)
    : M (list (option item)) :=
  match n with
  | 0 => ret []
  | S n' =>
      let* it := Reg_next_raw rec self in
      let* rest := read_n n' rec self in
      ret (it :: rest)
  end.

(** Scenario S1: [ch = Channel(); ch.send(1); ch.send(2); ch.finish()],
    then five reads with [next_raw], a [send(3)] before the last one. *)
Definition S1_echo (rec : methods) : M (list (option item)) :=
  let* ch := Channel___init__ in
  Channel_send rec ch [VInt 1] >>
  Channel_send rec ch [VInt 2] >>
  Channel_finish rec ch [] >>
  let* i1 := Reg_next_raw rec ch in
  let* i2 := Reg_next_raw rec ch in
  let* i3 := Reg_next_raw rec ch in
  let* i4 := Reg_next_raw rec ch in
  Channel_send rec ch [VInt 3] >>
  let* i5 := Reg_next_raw rec ch in
  ret [i1; i2; i3; i4; i5].

(** A channel (object 2) after [send(1); finish()]. *)
Definition closed_channel_world : world :=
  match (let* ch := Channel___init__ in
         Channel_send (methods_at 1) ch [VInt 1] >>
         Channel_finish (methods_at 1) ch []) world0 with
  | Ret _ w => w
  | _ => world0
  end.

(** ** Reg: the latched result *)


(** ** pipe: a balanced tree of PipePairs *)

(** The nesting of [PipePair] constructions, as a tree over the streams. *)
Inductive shape :=
| Leaf (o : oid)
| Pair (l r : shape).

Fixpoint depth (s : shape) : nat :=
  match s with
  | Leaf _ => 0
  | Pair l r => S (Nat.max (depth l) (depth r))
  end.

Fixpoint leaves (s : shape) : list oid :=
  match s with
  | Leaf o => [o]
  | Pair l r => leaves l ++ leaves r
  end.

(** Constructing the pairs of a tree the way nested calls do: the left
    argument first, then the right one, then [PipePair(left, right)]. *)
Fixpoint build (rec : methods) (s : shape) : M oid :=
  match s with
  | Leaf o => ret o
  | Pair l r =>
      let* l' := build rec l in
      let* r' := build rec r in
      PipePair___init__ rec l' r'
  end.

(** [pipe(a, b, c, d)] on four tasks: the streams, and the sides of the two
    pairs found under the pair that [pipe] returns. *)
Definition pipe_four_tasks (rec : methods)
    : M (list oid * (oid * oid) * (oid * oid)) :=
  let* a := stream rec waiting_task in
  let* b := stream rec waiting_task in
  let* c := stream rec waiting_task in
  let* d := stream rec waiting_task in
  let* p := pipe rec a [b; c; d] in
  let* pp := get_PipePair p in
  let* l := get_PipePair (left pp) in
  let* r := get_PipePair (right pp) in
  ret ([a; b; c; d], (left l, right l), (left r, right r)).

(** ** Inner.finish *)

(** The task of [finishing_task], asked for its result before and after
    the dispatcher has run it, and then read. *)
Definition finish_inside (rec : methods)
    : M (bool * bool * (bool * list value) * option item * option item) :=
  let* t := stream rec finishing_task in
  let* before := Reg_has_result t in
  callqueue_iterate rec >>
  let* after := Reg_has_result t in
  let* result := Reg_result_raw t in
  let* i1 := Reg_next_raw rec t in
  let* i2 := Reg_next_raw rec t in
  ret (before, after, result, i1, i2).

(** [inner.finish(7)] called on the handle of a suspended task by other
    code than its coroutine, inside try/except. *)
Definition finish_outside (rec : methods) : M (option exn * bool * bool) :=
  let* t := stream rec waiting_task in
  callqueue_iterate rec >>
  let* g := get_GeneratorStream t in
  let* caught :=
    try_except (Inner_finish (inner g) [VInt 7] >> ret None)
      (fun e => ret (Some e)) in
  callqueue_iterate rec >>
  let* done := Reg_has_result t in
  let* g := get_GeneratorStream t in
  ret (caught, done, bool_decide (_gen g = None)).

(** The world in which the task of [finishing_task] has been created and
    started; the task is object 2. *)
Definition finishing_task_started : world :=
  match stream (methods_at 8) finishing_task world0 with
  | Ret _ w => w
  | _ => world0
  end.

(** ** run *)

(** [run(stream(func)())] *)
Definition run_task (rec : methods) (func : oid -> gen) : M value :=
  let* main := stream rec func in
  run rec main.

(** The world in which the dispatcher has run that task to its end. *)
Definition finishing_task_done : world :=
  Eval vm_compute in
    match (set_event false >> run_loop (methods_at 8) 2) finishing_task_started
    with
    | Ret _ w1 => w1
    | _ => world0
    end.

(** ** _Pipeable._next_raw: a terminal item of an upstream *)


(** ** PipePair: the terminal item of the right side *)

(** [L | R] with [L] waiting for input (and surviving the BrokenPipe) and
    [R] sending 5 and finishing with 7; the pair is read three times while
    [L] is unfinished, then [L] is given its input and the pair is read
    twice more. *)
Definition pair_drain (rec : methods)
    : M (list (option item) * bool * bool * bool * list (option item) * bool) :=
  let* L := stream rec waiting_task in
  let* R := stream rec send_then_finish_task in
  let* P := PipePair___init__ rec L R in
  callqueue_iterate rec >>
  let* i1 := Reg_next_raw rec P in
  let* i2 := Reg_next_raw rec P in
  let* i3 := Reg_next_raw rec P in
  let* r_done := Reg_has_result R in
  let* l_done := Reg_has_result L in
  let* p_done := Reg_has_result P in
  dispatch_send rec P [VInt 1] >>
  callqueue_iterate rec >>
  let* l_done' := Reg_has_result L in
  let* i4 := Reg_next_raw rec P in
  let* i5 := Reg_next_raw rec P in
  ret ([i1; i2; i3], r_done, l_done, p_done, [i4; i5], l_done').

(** The pair of the scenario (object 14) after the dispatcher has run and
    the 5 has been read: [R] is finished, [L] is not. *)
Definition pair_before_terminal : world :=
  match (let* L := stream (methods_at 12) waiting_task in
         let* R := stream (methods_at 12) send_then_finish_task in
         let* P := PipePair___init__ (methods_at 12) L R in
         callqueue_iterate (methods_at 12) >>
         Reg_next_raw (methods_at 12) P) world0 with
  | Ret _ w => w
  | _ => world0
  end.

(** ** Any: the first item wins *)

(** [w'] has the objects of [w], unchanged but for message callbacks that
    were discarded. *)
Definition obj_shrinks (x x' : object) : Prop :=
  okind x' = okind x ∧
  finish_callbacks (reg x') = finish_callbacks (reg x) ∧
  _id (reg x') = _id (reg x) ∧
  _result (reg x') = _result (reg x) ∧
  ∀ c, c ∈ message_callbacks (reg x') → c ∈ message_callbacks (reg x).

Definition shrinks (w w' : world) : Prop :=
  ∀ o x, heap w !! o = Some x → ∃ x', heap w' !! o = Some x' ∧ obj_shrinks x x'.

(** A handle is registered on a stream. *)
Definition registered (w : world) (o : oid) (h : oid) : Prop :=
  ∃ x, heap w !! o = Some x ∧ h ∈ map cb_id (message_callbacks (reg x)).

(** Scenario S4: [s1 = Channel(); s2 = Channel(); s2.send(42);
    a = any(s1, s2)], the dispatcher runs, then [s1.send(0)] and the
    dispatcher runs again. *)
Definition S4_any (rec : methods)
    : M (oid * (bool * list value) * value * list Callback
         * object * object * option item) :=
  let* s1 := Channel___init__ in
  let* s2 := Channel___init__ in
  Channel_send rec s2 [VInt 42] >>
  let* a := any s1 [s2] in
  callqueue_iterate rec >>
  let* raw := Reg_result_raw a in
  let* v := Reg_result a in
  let* r1 := get_reg s1 in
  let* before := get_object a in
  Channel_send rec s1 [VInt 0] >>
  callqueue_iterate rec >>
  let* after := get_object a in
  let* i := Reg_next_raw rec a in
  ret (s2, raw, v, message_callbacks r1, before, after, i).

(** The Any of the scenario (object 5) after its [_init]: a callback is
    registered on [s1] (object 2), and the call for [s2] (object 3), which
    holds 42, is on the call queue. *)
Definition any_armed : world :=
  match (let* s1 := Channel___init__ in
         let* s2 := Channel___init__ in
         Channel_send (methods_at 4) s2 [VInt 42] >>
         let* a := any s1 [s2] in
         Any__init (methods_at 4) a [s1; s2]) world0 with
  | Ret _ w => w
  | _ => world0
  end.

(** ** Pipe-set: the order of fan-in *)





Definition a1 : value := VStr "a1".
Definition a2 : value := VStr "a2".


(** The pipe-set (object 2) with [A] (object 3) and [B] (object 4) piped
    into it, after [A.send(a1)]. *)
Definition pipeset_a1_sent : world :=
  match (let* P := allocate (KInner (mkPipeable ∅ [] None None)) in
         let* A := Channel___init__ in
         let* B := Channel___init__ in
         _Pipeable__pipe (methods_at 4) P A >>
         _Pipeable__pipe (methods_at 4) P B >>
         Channel_send (methods_at 4) A [a1]) world0 with
  | Ret _ w => w
  | _ => world0
  end.

(** ** Message callbacks fire exactly once *)





(** Two threads on one stream, one inside [add_message_callback(fn)] and
    one inside [signal_activity()].  Each runs its critical section, which
    the lock makes atomic, and then its calls outside the lock. *)
Inductive thread := Registrar | Signaller.

Record locals := mkLocals {
  registrar_pc : nat;
  to_call : option Callback;
  signaller_pc : nat;
  taken : list Callback
}.

Definition locals0 : locals := mkLocals 0 None 0 [].

Definition registrar_step (rec : methods) (self : oid) (f : func)
    (l : locals) : M locals :=
  match registrar_pc l with
  | 0 =>
      let* (callback, registered) := Reg_add_message_callback_locked self f in
      ret (mkLocals 1 (if registered : bool then None else Some callback)
             (signaller_pc l) (taken l))
  | 1 =>
      match to_call l with
      | Some callback => m_call rec callback self
      | None => ret tt
      end >>
      ret (mkLocals 2 None (signaller_pc l) (taken l))
  | _ => ret l
  end.

Definition signaller_step (rec : methods) (self : oid) (l : locals)
    : M locals :=
  match signaller_pc l with
  | 0 =>
      let* callbacks := Reg_signal_activity_locked self None in
      ret (mkLocals (registrar_pc l) (to_call l) 1 callbacks)
  | 1 =>
      for_each (taken l) (fun callback => m_call rec callback self) >>
      ret (mkLocals (registrar_pc l) (to_call l) 2 [])
  | _ => ret l
  end.

Fixpoint interleave (rec : methods) (self : oid) (f : func)
    (schedule : list thread) (l : locals) : M locals :=
  match schedule with
  | [] => ret l
  | Registrar :: schedule' =>
      let* l' := registrar_step rec self f l in
      interleave rec self f schedule' l'
  | Signaller :: schedule' =>
      let* l' := signaller_step rec self l in
      interleave rec self f schedule' l'
  end.


(** A new channel (object 2) and nothing else but [null_source]. *)
Definition new_channel_world : world :=
  match Channel___init__ world0 with
  | Ret _ w => w
  | _ => world0
  end.

(** * Further scenarios and predicates *)

(** ** Callbacks that leave the store alone *)

(** Probes and the [callqueue.add] callbacks of tasks and of Any objects:
    a call only extends the log or the call queue. *)
Definition is_simple (c : Callback) : Prop :=
  match cb_func c with
  | F_probe _ | F_callqueue_add_step _ | F_callqueue_add_Any_callback _ => True
  | _ => False
  end.

(** The world after such a callback was called on [stream]. *)
Definition simple_call (stream : oid) (w : world) (c : Callback) : world :=
  match cb_func c with
  | F_probe tag =>
      mkWorld (heap w) (fresh w) (callqueue w) (event w) (_running_streams w)
        (probe_log w ++ [(tag, stream)])
  | F_callqueue_add_step self =>
      mkWorld (heap w) (fresh w) (callqueue w ++ [T_step self stream]) true
        (_running_streams w) (probe_log w)
  | F_callqueue_add_Any_callback self =>
      mkWorld (heap w) (fresh w) (callqueue w ++ [T_Any_callback self stream])
        true (_running_streams w) (probe_log w)
  | _ => w
  end.

Definition simple_calls (cs : list Callback) (stream : oid) (w : world)
    : world :=
  fold_left (simple_call stream) cs w.

(** The world after [object()]. *)
Definition next_fresh (w : world) : world :=
  mkWorld (heap w) (S (fresh w)) (callqueue w) (event w) (_running_streams w)
    (probe_log w).

(** The world after [signal_activity(result)] on a stream whose callbacks
    are all of that kind. *)
Definition signalled (self : oid) (result : option (bool * list value))
    (r : Reg_state) (k : kind) (w : world) : world :=
  let w1 :=
    simple_calls (message_callbacks r) self
      (set_heap (<[self := mkObject (mkReg [] (finish_callbacks r)
                                       (Some (fresh w)) result) k]> (heap w))
         (next_fresh w)) in
  match result with
  | Some _ =>
      simple_calls (finish_callbacks r) self
        (set_heap (<[self := mkObject (mkReg [] [] (Some (fresh w)) result) k]>
                     (heap w1)) w1)
  | None => w1
  end.

(** ** Channel as a closing FIFO *)

Inductive channel_op :=
| Send (values : list value)
| Finish (args : list value)
| Throw (exc tb : value)
| Next.

(** The operations one after the other on one channel; the result is what
    the reads returned. *)
Fixpoint channel_script (rec : methods) (self : oid) (ops : list channel_op)
    : M (list (option item)) :=
  match ops with
  | [] => ret []
  | Send values :: ops' =>
      Channel_send rec self values >> channel_script rec self ops'
  | Finish args :: ops' =>
      Channel_finish rec self args >> channel_script rec self ops'
  | Throw exc tb :: ops' =>
      Channel_throw rec self exc tb >> channel_script rec self ops'
  | Next :: ops' =>
      let* it := Reg_next_raw rec self in
      let* rest := channel_script rec self ops' in
      ret (it :: rest)
  end.

(** The item that an operation offers to the channel. *)
Definition offered (op : channel_op) : option item :=
  match op with
  | Send values => Some (false, false, values)
  | Finish args => Some (true, false, args)
  | Throw exc tb => Some (true, true, [type_of exc; exc; tb])
  | Next => None
  end.

(** The reference behaviour: the items not yet read, in order, and the
    terminal item once there is one.  A read takes the oldest pending
    item, else shows the terminal item, else returns null; an offer is
    dropped after the close. *)
Fixpoint fifo (pending : list item) (closed : option item)
    (ops : list channel_op) : list (option item) :=
  match ops with
  | [] => []
  | op :: ops' =>
      match offered op, closed with
      | Some _, Some _ => fifo pending closed ops'
      | Some (true, t, a), None => fifo pending (Some (true, t, a)) ops'
      | Some it, None => fifo (pending ++ [it]) None ops'
      | None, _ =>
          match pending with
          | it :: rest => Some it :: fifo rest closed ops'
          | [] => closed :: fifo [] closed ops'
          end
      end
  end.

(** The values sent before the first [finish] or [throw]. *)
Fixpoint sent_before_close (ops : list channel_op) : list item :=
  match ops with
  | [] => []
  | Send values :: ops' => (false, false, values) :: sent_before_close ops'
  | Next :: ops' => sent_before_close ops'
  | _ => []
  end.

(** The first terminal item offered. *)
Fixpoint first_terminal (ops : list channel_op) : option item :=
  match ops with
  | [] => None
  | Finish args :: _ => Some (true, false, args)
  | Throw exc tb :: _ => Some (true, true, [type_of exc; exc; tb])
  | _ :: ops' => first_terminal ops'
  end.

(** The non-terminal and the terminal items among what reads returned. *)
Definition items_read (outs : list (option item)) : list item :=
  filter (fun it : item => it.1.1 = false) (omap id outs).

Definition terminals_read (outs : list (option item)) : list item :=
  filter (fun it : item => it.1.1 = true) (omap id outs).

(** How the deque of a channel represents the pending items and the
    terminal item, and what the activity id has to say about it. *)
Definition channel_inv (self : oid) (pending : list item)
    (closed : option item) (w : world) : Prop :=
  ∃ r, heap w !! self =
       Some (mkObject r (KChannel (pending ++ option_list closed))) ∧
       Forall is_simple (message_callbacks r) ∧
       Forall is_simple (finish_callbacks r) ∧
       (pending ++ option_list closed ≠ [] → _id r ≠ None) ∧
       Forall nonfinal pending ∧
       (∀ it, closed = Some it → it.1.1 = true).

(** ** Operations a class does not support *)

(** The classes that override [pipe]: GeneratorStream and PipePair. *)
Definition pipeable (k : kind) : bool :=
  match k with
  | KGeneratorStream _ | KPipePair _ => true
  | _ => false
  end.

(** The item that [_pipe_broken] throws into a task. *)
Definition broken_pipe_item : item :=
  (true, true, [VType BrokenPipe; VExc BrokenPipe []; VNone]).

(** ** A suspended task *)

(** The task of [waiting_task] (object 2, its [inner] object 3) after the
    dispatcher has run it to its [yield inner] and 1 was sent to it. *)
Definition waiting_task_with_input : world :=
  match (let* t := stream (methods_at 8) waiting_task in
         callqueue_iterate (methods_at 8) >>
         GeneratorStream_send (methods_at 8) t [VInt 1]) world0 with
  | Ret _ w => w
  | _ => world0
  end.

(** ** Pipe-sets *)


(** ** The stack of a task *)

(** A channel whose next item is its terminal item. *)
Definition at_terminal (w : world) (o : oid) : Prop :=
  ∃ r t a rest,
    heap w !! o = Some (mkObject r (KChannel ((true, t, a) :: rest))).

(** A channel whose next item is not a terminal one, or that holds none. *)
Definition before_terminal (w : world) (o : oid) : Prop :=
  ∃ r queue,
    heap w !! o = Some (mkObject r (KChannel queue)) ∧
    ∀ t a rest, queue ≠ (true, t, a) :: rest.

(** A channel that was finished and read up to its terminal item. *)
Definition drained (w : world) (o : oid) : Prop :=
  ∃ r i t a,
    heap w !! o = Some (mkObject r (KChannel [(true, t, a)])) ∧
    _id r = Some i ∧ _result r = Some (t, a).

(** The task [self] with its stack replaced. *)
Definition with_stack (self : oid) (rg : Reg_state)
    (g : GeneratorStream_state) (s : list oid) (w : world) : world :=
  set_heap (<[self := mkObject rg (KGeneratorStream (set_stack s g))]> (heap w))
    w.

(** ** A channel that was read empty *)

(** A channel (object 2) after [send(1)] and one [next_raw()]: the queue is
    empty and the activity id (object 3) is still set. *)
Definition read_channel_world : world :=
  match (let* ch := Channel___init__ in
         Channel_send (methods_at 1) ch [VInt 1] >>
         Reg_next_raw (methods_at 1) ch) world0 with
  | Ret _ w => w
  | _ => world0
  end.

(** ** The end of a task *)

(** The world with object [o] replaced by [x]. *)
Definition upd (o : oid) (x : object) (w : world) : world :=
  set_heap (<[o := x]> (heap w)) w.

(** The terminal item that [inner_finish] pushes to the output channel: a
    success with its args, a failure thrown again from its exception
    value. *)
Definition output_terminal (throw : bool) (args : list value) : option item :=
  if throw then
    match args with
    | [_; exc; tb] => Some (true, true, [type_of exc; exc; tb])
    | _ => None
    end
  else Some (true, false, args).

(** ** Pipes and sub-streams end to end *)

(** A coroutine that sends [v1], then [v2], and finishes with [r]. *)
Definition sending_task (v1 v2 : value) (r : list value) (inner : oid) : gen :=
  Call (I_send [v1]) (fun _ =>
  Call (I_send [v2]) (fun _ =>
  Call (I_finish r) (fun _ => Return_))).

(** A coroutine that, up to [n] times, waits for an input [x] on [inner]
    and sends [f x]; an exception thrown into it leaves it. *)
Fixpoint mapping_task (n : nat) (f : value → value) (inner : oid) : gen :=
  match n with
  | 0 => Return_
  | S n' =>
      Yield (YStream inner)
        (fun x => Call (I_send [f x]) (fun _ => mapping_task n' f inner))
        RaiseExc
  end.

(** [p = A | B] with [A] the sender and [B] the mapper; the dispatcher
    runs until the call queue is empty, then [p] is read four times and
    asked for its result. *)
Definition pipe_map (rec : methods) (f : value → value) (v1 v2 : value)
    (r : list value) : M (list (option item) * value * bool * bool) :=
  let* A := stream rec (sending_task v1 v2 r) in
  let* B := stream rec (mapping_task 5 f) in
  let* P := pipe rec A [B] in
  callqueue_iterate rec >>
  let* its := read_n 4 rec P in
  let* v := Reg_result P in
  let* a_done := Reg_has_result A in
  let* b_done := Reg_has_result B in
  ret (its, v, a_done, b_done).

(** A coroutine that sends [v0], runs [other] as a sub-stream, waits for
    its end, and sends [f x] for the result [x] it is resumed with. *)
Definition delegating_task (other : oid) (v0 : value) (f : value → value)
    (inner : oid) : gen :=
  Call (I_send [v0]) (fun _ =>
  Call (I_sub other) (fun ch =>
    match ch with
    | VRef c =>
        Yield (YStream c) (fun x => Call (I_send [f x]) (fun _ => Return_))
          RaiseExc
    | _ => RaiseExc (new_exn TypeError [])
    end)).

(** [Q] is the sender, [T] delegates to [Q]; the dispatcher runs until the
    call queue is empty, then [T] is read six times. *)
Definition sub_stream (rec : methods) (f : value → value) (v0 v1 v2 : value)
    (r : list value) : M (list (option item) * value) :=
  let* Q := stream rec (sending_task v1 v2 r) in
  let* T := stream rec (delegating_task Q v0 f) in
  callqueue_iterate rec >>
  let* its := read_n 6 rec T in
  let* v := Reg_result T in
  ret (its, v).


(** ** Any: arming the sources *)

(** The activity id of a stream is set: a callback added now is called at
    once. *)
Definition is_ready (w : world) (o : oid) : bool :=
  match heap w !! o with
  | Some x => bool_decide (_id (reg x) ≠ None)
  | None => false
  end.

(** The stream [x] with one more message callback. *)
Definition with_callback (x : object) (c : Callback) : object :=
  mkObject (mkReg (message_callbacks (reg x) ++ [c]) (finish_callbacks (reg x))
              (_id (reg x)) (_result (reg x))) (okind x).

(** The Any of scenario S4 (object 5) before its [_init]: [s1] (object 2)
    is quiet and [s2] (object 3) holds 42. *)
Definition any_created : world :=
  match (let* s1 := Channel___init__ in
         let* s2 := Channel___init__ in
         Channel_send (methods_at 4) s2 [VInt 42] >>
         any s1 [s2]) world0 with
  | Ret _ w => w
  | _ => world0
  end.

(** ** Callbacks on the output of a finished task *)

(** A task that has its terminal item. *)
Definition finished_task (w : world) (o : oid) : Prop :=
  ∃ r g f, heap w !! o = Some (mkObject r (KGeneratorStream g)) ∧
           s_final g = Some f.

(** The callbacks that do nothing to the store once [owner] is finished:
    those that leave it alone anyway, and the [_stack_callback] of
    [owner], which a finished task ignores. *)
Definition is_quiet_for (owner : oid) (c : Callback) : Prop :=
  is_simple c ∨ cb_func c = F_stack_callback owner.

(** ** The start of a task *)

(** The world in which [self] is among the running streams. *)
Definition running (self : oid) (w : world) : world :=
  mkWorld (heap w) (fresh w) (callqueue w) (event w)
    (self :: filter (fun o => o ≠ self) (_running_streams w)) (probe_log w).

(** The world in which [t] was added to the call queue. *)
Definition scheduled (t : thunk) (w : world) : world :=
  mkWorld (heap w) (fresh w) (callqueue w ++ [t]) true (_running_streams w)
    (probe_log w).

(** The task of [waiting_task] (object 2, its [inner] object 3) created and
    started, before the dispatcher has run. *)
Definition waiting_task_started : world :=
  match stream (methods_at 8) waiting_task world0 with
  | Ret _ w => w
  | _ => world0
  end.

(** ** Sending to a task, and waiting for one of several streams *)


(** A coroutine that waits for the first item of either of two streams,
    [x = yield c1, c2], and sends [f x]. *)
Definition choosing_task (c1 c2 : oid) (f : value → value) (inner : oid)
    : gen :=
  Yield (YStreams [c1; c2]) (fun x => Call (I_send [f x]) (fun _ => Return_))
    RaiseExc.

(** Two channels, of which the second is sent [v]; the chooser is created
    and the dispatcher runs; the task is read twice, and the first channel
    is asked for its callbacks. *)
Definition yield_any (rec : methods) (f : value → value) (v : value)
    : M (list (option item) * list Callback) :=
  let* c1 := Channel___init__ in
  let* c2 := Channel___init__ in
  let* T := stream rec (choosing_task c1 c2 f) in
  Channel_send rec c2 [v] >>
  callqueue_iterate rec >>
  let* its := read_n 2 rec T in
  let* r1 := get_reg c1 in
  ret (its, message_callbacks r1).

(** * Properties *)

(** What holds for [methods_from k rec] with every [rec] holds for every
    step index from [k] on. *)
Lemma methods_at_from k n : methods_at (k + n) = methods_from k (methods_at n).
Proof. induction k as [| k IH]; [done |]. cbn. by rewrite IH. Qed.

(** ** Reading and writing the store *)

Lemma get_object_Some o x w :
  heap w !! o = Some x → get_object o w = Ret x w.
Proof. intros H. unfold get_object. by rewrite H. Qed.

Lemma put_kind_Some o k x w :
  heap w !! o = Some x →
  put_kind o k w = Ret tt (set_heap (<[o := mkObject (reg x) k]> (heap w)) w).
Proof. intros H. unfold put_kind, bind, put_object. by rewrite (get_object_Some o x). Qed.

(** Unfolds the monad and the accessors, so that a method body becomes a
    cascade of matches on store lookups. *)
Ltac munfold :=
  unfold get_queue, get_Pipeable, put_Pipeable, get_GeneratorStream,
    put_GeneratorStream, get_PipePair, put_PipePair, get_Any, put_Any,
    get_reg, put_reg, get_kind, put_kind, get_object, put_object,
    get_world, put_world, new_object, attribute_error, raise, bind, ret.


(** Runs a method body along the lookups that [H] decides. *)
Ltac mrun H := repeat (progress (cbn; rewrite ?H)).

(** ** Channel: echo and idempotent close *)

Lemma queue_ok_nil : queue_ok [].
Proof. left. constructor. Qed.

Lemma queue_ok_terminal_last queue t a :
  queue_ok queue → (true, t, a) ∈ queue →
  ∃ t' a', last queue = Some (true, t', a').
Proof.
  intros [Hall | (body & t' & a' & -> & _)] Hin.
  - rewrite Forall_forall in Hall. specialize (Hall _ Hin). discriminate.
  - exists t', a'. apply last_snoc.
Qed.

(** What [_push] leaves in the queue. *)
Lemma queue_ok_push queue it :
  queue_ok queue →
  queue_ok (match last queue with
            | Some (true, _, _) => queue
            | _ => queue ++ [it]
            end).
Proof.
  intros [Hall | (body & t & a & -> & Hall)].
  - assert (queue_ok (queue ++ [it])) as Hnew.
    { destruct it as [[[] t] a].
      - right. by exists queue, t, a.
      - left. apply Forall_app. split; [done | by repeat constructor]. }
    destruct (last queue) as [[[[] ?] ?] |] eqn: E; [| done | done].
    left. done.
  - rewrite last_snoc. right. by exists body, t, a.
Qed.

(** What [_next_raw] leaves in the queue. *)
Lemma queue_ok_pop final throw args rest :
  queue_ok ((final, throw, args) :: rest) →
  queue_ok (if final then rest ++ [(final, throw, args)] else rest).
Proof.
  intros [Hall | (body & t & a & E & Hall)].
  - inversion Hall as [| ? ? Hhd Htl]; subst. unfold nonfinal in Hhd.
    simpl in Hhd. subst final. by left.
  - destruct body as [| [[f' t'] a'] body]; simpl in E.
    + injection E as ? ? ? ?; subst. right. exists [], t, a.
      split; [done | constructor].
    + injection E as ? ? ? ?; subst. inversion Hall as [| ? ? Hhd Htl]; subst.
      unfold nonfinal in Hhd. simpl in Hhd. subst.
      right. by exists body, t, a.
Qed.

(** [_next_raw] on a channel keeps the invariant. *)
Lemma Channel__next_raw_queue_ok self w r queue it w' :
  heap w !! self = Some (mkObject r (KChannel queue)) →
  queue_ok queue →
  Channel__next_raw self w = Ret it w' →
  ∃ queue', heap w' !! self = Some (mkObject r (KChannel queue')) ∧
            queue_ok queue'.
Proof.
  intros Hobj Hok. unfold Channel__next_raw. munfold. rewrite Hobj. simpl.
  destruct queue as [| [[final throw] args] rest]; simpl.
  - intros [= <- <-]. by exists [].
  - rewrite Hobj. simpl. intros [= <- <-]. simpl.
    eexists. rewrite lookup_insert_eq. split; [done |].
    by apply queue_ok_pop.
Qed.

(** A finished channel on which the terminal item has come to the head of
    the queue: a read returns it and changes nothing. *)
Lemma Channel_terminal_sticky rec self w r i t a :
  heap w !! self = Some (mkObject r (KChannel [(true, t, a)])) →
  _id r = Some i → _result r = Some (t, a) →
  Reg_next_raw (step_methods rec) self w = Ret (Some (true, t, a)) w.
Proof.
  intros Hobj Hid Hres. destruct r as [mcs fcs i' res]. cbn in Hid, Hres.
  subst i' res.
  unfold Reg_next_raw. munfold. mrun Hobj.
  unfold dispatch__next_raw, Channel__next_raw. munfold. mrun Hobj.
  repeat (progress (cbn; rewrite ?lookup_insert_eq)).
  rewrite insert_insert_eq, !(insert_id (heap w) self _ Hobj).
  unfold set_heap. cbn. by destruct w.
Qed.

(** A finished channel is read back in push order, the terminal item
    last and then again on every further read. *)
Lemma Channel_reads_in_push_order rec self i t a : ∀ body w r n,
  heap w !! self = Some (mkObject r (KChannel (body ++ [(true, t, a)]))) →
  Forall nonfinal body →
  _id r = Some i → _result r = Some (t, a) →
  ∃ w', read_n (length body + n) (step_methods rec) self w =
        Ret (map Some body ++ replicate n (Some (true, t, a))) w'.
Proof.
  induction body as [| [[f th] ar] body IH]; intros w r n Hobj Hall Hid Hres.
  - exists w. cbn [length map app Nat.add]. induction n as [| n IHn]; [done |].
    cbn [read_n replicate]. unfold bind at 1.
    rewrite (Channel_terminal_sticky rec self w r i t a) by done.
    unfold bind at 1. by rewrite IHn.
  - inversion Hall as [| ? ? Hhd Htl]; subst. unfold nonfinal in Hhd.
    cbn in Hhd. subst f.
    set (w1 := set_heap
                 (<[self := mkObject r (KChannel (body ++ [(true, t, a)]))]>
                    (heap w)) w).
    destruct (IH w1 r n) as (w' & Hrest); try done.
    { subst w1. cbn. apply lookup_insert_eq. }
    exists w'. cbn [length map app Nat.add read_n]. unfold bind at 1.
    assert (Reg_next_raw (step_methods rec) self w =
            Ret (Some (false, th, ar)) w1) as ->.
    { unfold Reg_next_raw. munfold. mrun Hobj. rewrite Hid.
      unfold dispatch__next_raw, Channel__next_raw. munfold. mrun Hobj.
      reflexivity. }
    unfold bind at 1. by rewrite Hrest.
Qed.

(** C5. On a new channel, [send(1); send(2); finish()] is read back as
    (false,false,(1,)), (false,false,(2,)), (true,false,()) and then the
    same terminal item on every further read; on any channel whose queue
    holds a terminal item, a push of any kind returns without changing
    anything and without signalling; and a finished channel is read back
    in push order, the terminal item last and again on each of any
    number of further reads. *)
Theorem Channel_echo_and_idempotent_close
    (rec : methods) (self : oid) (w : world) (r : Reg_state)
    (queue : list item) (final throw : bool) (args : list value)
    (t : bool) (a : list value)
    (Hobj : heap w !! self = Some (mkObject r (KChannel queue)))
    (Hok : queue_ok queue)
    (Hterm : (true, t, a) ∈ queue) :
  Channel__push rec self final throw args w = Ret tt w ∧
  (∀ body i n,
      queue = body ++ [(true, t, a)] →
      _id r = Some i → _result r = Some (t, a) →
      ∃ w', read_n (length body + n) (step_methods rec) self w =
            Ret (map Some body ++ replicate n (Some (true, t, a))) w') ∧
  ∃ w', S1_echo (step_methods rec) world0 =
        Ret [Some (false, false, [VInt 1]); Some (false, false, [VInt 2]);
             Some (true, false, []); Some (true, false, []);
             Some (true, false, [])] w'.
Proof.
  split; [| split].
  - destruct (queue_ok_terminal_last queue t a Hok Hterm) as (t' & a' & Hlast).
    unfold Channel__push. munfold. rewrite Hobj. simpl. by rewrite Hlast.
  - intros body i n -> Hid Hres.
    apply (Channel_reads_in_push_order rec self i t a body w r n);
      try done.
    destruct Hok as [Hall | (body' & t' & a' & E & Hall)].
    + apply Forall_app in Hall as [_ Hlast].
      inversion Hlast as [| ? ? Hhd _]; subst. discriminate.
    + apply app_inj_tail in E as [-> _]. done.
  - eexists. vm_compute. reflexivity.
Qed.

Lemma Channel_echo_and_idempotent_close_witness :
  Channel__push no_methods 2 false false [VInt 2] closed_channel_world =
  Ret tt closed_channel_world.
Proof.
  refine (proj1 (Channel_echo_and_idempotent_close no_methods 2
                   closed_channel_world _ _ false false [VInt 2] false [] _ _ _)).
  - vm_compute. reflexivity.
  - right. exists [(false, false, [VInt 1])], false, []. split; [reflexivity |].
    repeat constructor.
  - apply list_elem_of_In. simpl. right. left. reflexivity.
Defined.

(** ** Reg: the latched result *)




(** ** pipe: a balanced tree of PipePairs *)

Lemma log2_up_half (m : nat) :
  1 ≤ m → S (Nat.log2_up (S (m / 2))) = Nat.log2_up (S m).
Proof.
  intros Hm.
  rewrite (Nat.log2_up_eqn (S m)) by lia. rewrite Nat.pred_succ. f_equal.
  destruct (decide (m = 1)) as [-> | Hne]; [reflexivity |].
  assert (1 ≤ m / 2) as Hhalf.
  { apply (Nat.div_le_lower_bound m 2 1); lia. }
  rewrite (Nat.log2_up_eqn (S (m / 2))) by lia. rewrite Nat.pred_succ.
  pose proof (Nat.div_mod_eq m 2) as Hsplit.
  pose proof (Nat.mod_upper_bound m 2 ltac:(lia)) as Hmod.
  destruct (decide (m mod 2 = 0)) as [E | E].
  - rewrite Hsplit at 2. rewrite E, Nat.add_0_r.
    symmetry. apply Nat.log2_double. lia.
  - assert (m mod 2 = 1) as E1 by lia.
    rewrite Hsplit at 2. rewrite E1.
    symmetry. apply Nat.log2_succ_double. lia.
Qed.

Lemma pipe_args_shape (rec : methods) (streams : list oid) :
  streams ≠ [] →
  ∃ s, pipe_args rec streams = build rec s ∧
       leaves s = streams ∧
       depth s = Nat.log2_up (length streams).
Proof.
  funelim (pipe_args rec streams); intros Hne.
  - done.
  - exists (Leaf first). repeat split.
  - clear Heqcall Hne. set (rest := o0 :: l) in *.
    assert (1 ≤ length rest) as Hlen by (simpl; lia).
    remember (length rest / 2) as cut eqn: Ecut.
    assert (cut < length rest) as Hcut.
    { subst cut. apply Nat.Div0.div_lt_upper_bound. lia. }
    destruct (H world0) as (s1 & E1 & L1 & D1); [done |].
    destruct (H0 first world0) as (s2 & E2 & L2 & D2).
    { intros Hd. apply (f_equal length) in Hd. rewrite length_drop in Hd.
      change (length (@nil oid)) with 0 in Hd. lia. }
    exists (Pair s1 s2). simpl build.
    rewrite E1, E2. split; [reflexivity |]. split.
    + simpl. rewrite L1, L2. simpl. f_equal. apply take_drop.
    + simpl depth. rewrite D1, D2. cbn [length].
      rewrite length_take, length_drop.
      rewrite Nat.min_l by lia.
      rewrite Nat.max_l.
      * subst cut. by apply log2_up_half.
      * apply Nat.log2_up_le_mono. subst cut.
        pose proof (Nat.div_mod_eq (length rest) 2).
        pose proof (Nat.mod_upper_bound (length rest) 2 ltac:(lia)). lia.
Qed.

(** C9. [pipe(a)] is [a]; [pipe(a, b, c, d)] constructs [PipePair(a, b)],
    then [PipePair(c, d)], then the pair of the two, as the objects
    it leaves for four tasks show; and in general [pipe] builds a tree
    over its arguments, in order, whose depth is the base-2 logarithm of
    their number, rounded up. *)
Theorem pipe_builds_balanced_tree (rec : methods) (a b c d : oid) :
  pipe rec a [] = ret a ∧
  pipe rec a [b; c; d] =
    (let* ab := PipePair___init__ rec a b in
     let* cd := PipePair___init__ rec c d in
     PipePair___init__ rec ab cd) ∧
  (∀ first rest, ∃ s,
      pipe rec first rest = build rec s ∧
      leaves s = first :: rest ∧
      depth s = Nat.log2_up (S (length rest))) ∧
  ∀ bottom, ∃ ta tb tc td w',
    pipe_four_tasks (methods_from 6 bottom) world0 =
    Ret ([ta; tb; tc; td], (ta, tb), (tc, td)) w'.
Proof.
  split; [| split; [| split]].
  - unfold pipe. by simp pipe_args.
  - unfold pipe. simp pipe_args. cbn. simp pipe_args. reflexivity.
  - intros first rest. unfold pipe.
    destruct (pipe_args_shape rec (first :: rest)) as (s & E & L & D); [done |].
    exists s. done.
  - intros bottom. do 5 eexists. vm_compute. reflexivity.
Qed.

(** ** Inner.finish *)

(** C10. [inner.finish(values)] changes nothing and raises
    [Finished(values)] to its caller; called from the coroutine, the
    exception leaves the generator, and [_step], which resumed it, answers
    with [_end(False, values)], after which the task has the success
    result [values]; called from elsewhere, it raises there and the task
    stays unfinished. *)
Theorem Inner_finish_raises_to_caller
    (rec : methods) (self source : oid) (w w1 w2 : world)
    (final throw : bool) (args values : list value) (e : exn)
    (Hread : Reg_next_raw rec source w = Ret (Some (final, throw, args)) w1)
    (Hresume : gen_resume rec self throw args w1 = Raise e w2)
    (Hfinished : exc_type e = VType Finished) :
  (∀ inner w0, Inner_finish inner values w0 = Raise (new_exn Finished values) w0) ∧
  (∀ inner k w0, gen_run rec inner (Call (I_finish values) k) w0 =
                 Raise (new_exn Finished values) w0) ∧
  exn_args (new_exn Finished values) = values ∧
  GeneratorStream__step rec self source w =
    GeneratorStream__end rec self false (exn_args e) w2 ∧
  (∀ bottom, ∃ w',
      finish_inside (methods_from 8 bottom) world0 =
      Ret (false, true, (false, [VInt 7]),
           Some (true, false, [VInt 7]), Some (true, false, [VInt 7])) w') ∧
  (∀ bottom, ∃ w',
      finish_outside (methods_from 8 bottom) world0 =
      Ret (Some (new_exn Finished [VInt 7]), false, false) w').
Proof.
  repeat split.
  - unfold GeneratorStream__step, bind. rewrite Hread, Hresume.
    unfold is_StopIteration_or_Finished. by rewrite Hfinished.
  - intros bottom. eexists. vm_compute. reflexivity.
  - intros bottom. eexists. vm_compute. reflexivity.
Qed.

Lemma Inner_finish_raises_to_caller_witness :
  ∃ w2, GeneratorStream__step (methods_at 8) 2 null_source
          finishing_task_started =
        GeneratorStream__end (methods_at 8) 2 false [VInt 7] w2.
Proof.
  eexists.
  refine (proj1 (proj2 (proj2 (proj2
    (Inner_finish_raises_to_caller (methods_at 8) 2 null_source
       finishing_task_started _ _ false false [] [VInt 7]
       (new_exn Finished [VInt 7]) _ _ _))))).
  - vm_compute. reflexivity.
  - vm_compute. reflexivity.
  - reflexivity.
Defined.

(** ** run *)

Lemma Reg_has_result_inv self w b w' :
  Reg_has_result self w = Ret b w' →
  w' = w ∧ ∃ x, heap w !! self = Some x ∧ b = bool_decide (_result (reg x) ≠ None).
Proof.
  unfold Reg_has_result. munfold.
  destruct (heap w !! self) as [x |] eqn: E; [| done].
  intros [= <- <-]. split; [done |]. by exists x.
Qed.

(** The loop of [run] is left only with a result latched on [main]. *)
Lemma run_loop_has_result n : ∀ main w w1,
  run_loop (methods_at n) main w = Ret tt w1 →
  Reg_has_result main w1 = Ret true w1.
Proof.
  induction n as [| n IH]; intros main w w1; unfold run_loop, bind at 1;
    destruct (Reg_has_result main w) as [[] w0 | |] eqn: E; try discriminate;
    try (destruct (Reg_has_result_inv _ _ _ _ E) as [-> _];
         unfold ret; intros [= <-]; exact E).
  unfold bind.
  destruct (m_iterate (methods_at (S n)) w0) as [[] wa | |]; try discriminate.
  destruct (Reg_has_result main wa) as [done wb | |]; try discriminate.
  unfold get_world.
  destruct (done || event wb); [| discriminate].
  unfold set_event. simpl m_run_loop. apply IH.
Qed.

Lemma Reg_result_raw_latched main w :
  Reg_has_result main w = Ret true w →
  ∃ throw args, Reg_result_raw main w = Ret (throw, args) w.
Proof.
  intros H. apply Reg_has_result_inv in H as (_ & x & Hx & Hb).
  symmetry in Hb. apply bool_decide_eq_true in Hb.
  unfold Reg_result_raw. munfold. rewrite Hx. simpl.
  destruct (_result (reg x)) as [[throw args] |]; [| done].
  by exists throw, args.
Qed.

Lemma run_unfold rec main w :
  run rec main w =
  match (set_event false >> run_loop rec main) w with
  | Ret _ w1 =>
      (let* (throw, args) := Reg_result_raw main in
       if throw : bool then raise_args args else ret (peel_args args)) w1
  | Raise e w1 => Raise e w1
  | Diverge => Diverge
  end.
Proof.
  unfold run, bind, set_event.
  by destruct (run_loop rec main _) as [[] ? | |].
Qed.

Lemma run_Ret_inv n main w v w' :
  run (methods_at n) main w = Ret v w' →
  Reg_has_result main w' = Ret true w' ∧
  ∃ args, Reg_result_raw main w' = Ret (false, args) w' ∧ v = peel_args args.
Proof.
  rewrite run_unfold.
  destruct ((set_event false >> run_loop (methods_at n) main) w)
    as [[] w1 | |] eqn: E; try done.
  unfold bind at 1 in E. unfold set_event at 1 in E.
  apply run_loop_has_result in E.
  destruct (Reg_result_raw_latched _ _ E) as (throw & args & Hraw).
  unfold bind. rewrite Hraw. destruct throw.
  - unfold raise_args. destruct args as [| ? [| ? [| ? [| ? ?]]]]; done.
  - unfold ret. intros [= <- <-]. split; [done |]. by exists args.
Qed.

(** C8. When the loop of [run] is left, [main] has a result; if it is a
    success [run] returns its peeled args, if it is a failure
    [(type, exc, tb)] [run] raises exactly that; [run] returns only with
    [main.has_result()] true; [peel_args] gives null, the single value or
    the whole tuple; and tasks that finish with 7, with nothing, with
    (1, 2) or with the exception E are run to these outcomes. *)
Theorem run_returns_or_reraises
    (n : nat) (main : oid) (w w1 : world)
    (Hloop : (set_event false >> run_loop (methods_at n) main) w = Ret tt w1) :
  Reg_has_result main w1 = Ret true w1 ∧
  (∃ throw args,
      Reg_result_raw main w1 = Ret (throw, args) w1 ∧
      (throw = false → run (methods_at n) main w = Ret (peel_args args) w1) ∧
      (∀ type exc tb, throw = true → args = [type; exc; tb] →
         run (methods_at n) main w = Raise (Exn type exc tb) w1)) ∧
  (∀ n0 main0 w0 v w',
      run (methods_at n0) main0 w0 = Ret v w' →
      Reg_has_result main0 w' = Ret true w') ∧
  (peel_args [] = VNone ∧ (∀ x, peel_args [x] = x) ∧
   ∀ x y l, peel_args (x :: y :: l) = VTuple (x :: y :: l)) ∧
  (∀ bottom, ∃ w',
      run_task (methods_from 8 bottom) finishing_task world0 =
      Ret (VInt 7) w') ∧
  (∀ bottom, ∃ w',
      run_task (methods_from 8 bottom) returning_task world0 =
      Ret VNone w') ∧
  (∀ bottom, ∃ w',
      run_task (methods_from 8 bottom) finishing_pair_task world0 =
      Ret (VTuple [VInt 1; VInt 2]) w') ∧
  (∀ bottom, ∃ w',
      run_task (methods_from 8 bottom) failing_task world0 =
      Raise (Exn (VType (UserError "E")) (VExc (UserError "E") [VInt 1])
               (VTb 7)) w').
Proof.
  pose proof Hloop as Hhas.
  unfold bind at 1 in Hhas. unfold set_event at 1 in Hhas.
  apply run_loop_has_result in Hhas.
  destruct (Reg_result_raw_latched _ _ Hhas) as (throw & args & Hraw).
  split; [done |]. split; [| split; [| split]].
  - exists throw, args. split; [done |].
    rewrite run_unfold, Hloop. unfold bind. rewrite Hraw.
    split; [by intros -> | by intros type exc tb -> ->].
  - intros n0 main0 w0 v w' Hrun. by apply run_Ret_inv in Hrun as [? _].
  - done.
  - repeat split; intros bottom; eexists; vm_compute; reflexivity.
Qed.

Lemma run_returns_or_reraises_witness :
  Reg_has_result 2 finishing_task_done = Ret true finishing_task_done.
Proof.
  refine (proj1 (run_returns_or_reraises 8 2 finishing_task_started
                   finishing_task_done _)).
  vm_compute. reflexivity.
Defined.

(** ** _Pipeable._next_raw: a terminal item of an upstream *)

Lemma get_Pipeable_Some self r p w :
  heap w !! self = Some (mkObject r (KInner p)) →
  get_Pipeable self w = Ret p w.
Proof. intros H. unfold get_Pipeable. munfold. by rewrite H. Qed.

(** One step of a method body: the first bind is decided by [H]. *)
Ltac mstep H := unfold bind at 1; rewrite H; cbv beta iota.



(** ** PipePair: the terminal item of the right side *)

Lemma get_PipePair_Some self r pp w :
  heap w !! self = Some (mkObject r (KPipePair pp)) →
  get_PipePair self w = Ret pp w.
Proof. intros H. unfold get_PipePair. munfold. by rewrite H. Qed.

(** C2. [_next_raw] of a pair that reads a terminal item from its right
    side returns null while [left_has_result] is false and the item itself
    once it is true; the finish callback of the left side is what sets the
    flag; and in the scenario the reads give 5, null, null with [R]
    finished and [L] not, and [R]'s terminal 7 after [L] has finished. *)
Theorem PipePair__next_raw_withholds_terminal
    (rec : methods) (self : oid) (w w1 : world) (r r1 : Reg_state)
    (pp pp1 : PipePair_state) (throw : bool) (args : list value)
    (Hobj : heap w !! self = Some (mkObject r (KPipePair pp)))
    (Hread : Reg_next_raw rec (right pp) w = Ret (Some (true, throw, args)) w1)
    (Hself : heap w1 !! self = Some (mkObject r1 (KPipePair pp1))) :
  PipePair__next_raw rec self w =
    Ret (if left_has_result pp1 then Some (true, throw, args) else None) w1 ∧
  PipePair__left_finish_callback rec self w1 =
    (if right_has_result pp1 then PipePair__finish rec self else ret tt)
      (set_heap
         (<[self := mkObject r1
                      (KPipePair (mkPipePair (left pp1) (right pp1) true
                                    (right_has_result pp1) (pp_input pp1)))]>
            (heap w1)) w1) ∧
  ∀ bottom, ∃ w', pair_drain (methods_from 12 bottom) world0 =
        Ret ([Some (false, false, [VInt 5]); None; None], true, false, false,
             [Some (true, false, [VInt 7]); Some (true, false, [VInt 7])],
             true) w'.
Proof.
  split; [| split].
  - unfold PipePair__next_raw.
    mstep (get_PipePair_Some self r pp w Hobj). mstep Hread.
    mstep (get_PipePair_Some self r1 pp1 w1 Hself).
    by destruct (left_has_result pp1).
  - unfold PipePair__left_finish_callback.
    mstep (get_PipePair_Some self r1 pp1 w1 Hself).
    unfold bind, put_PipePair. by rewrite (put_kind_Some _ _ _ _ Hself).
  - intros bottom. eexists. vm_compute. reflexivity.
Qed.

Lemma PipePair__next_raw_withholds_terminal_witness :
  ∃ w1, PipePair__next_raw (methods_at 12) 14 pair_before_terminal =
        Ret None w1.
Proof.
  edestruct (PipePair__next_raw_withholds_terminal (methods_at 12) 14
               pair_before_terminal) as [H _].
  - vm_compute. reflexivity.
  - vm_compute. reflexivity.
  - vm_compute. reflexivity.
  - eexists. exact H.
Defined.

(** ** Any: the first item wins *)

Lemma obj_shrinks_refl x : obj_shrinks x x.
Proof. by repeat split. Qed.

Lemma shrinks_refl w : shrinks w w.
Proof. intros o x H. exists x. split; [done | apply obj_shrinks_refl]. Qed.

Lemma shrinks_trans w1 w2 w3 : shrinks w1 w2 → shrinks w2 w3 → shrinks w1 w3.
Proof.
  intros H12 H23 o x H.
  destruct (H12 o x H) as (x2 & H2 & (K2 & F2 & I2 & R2 & M2)).
  destruct (H23 o x2 H2) as (x3 & H3 & (K3 & F3 & I3 & R3 & M3)).
  exists x3. split; [done |]. repeat split; try congruence. auto.
Qed.

Lemma shrinks_not_registered w w' o h :
  shrinks w w' → is_Some (heap w !! o) →
  ¬ registered w o h → ¬ registered w' o h.
Proof.
  intros Hs [x Hx] Hn (x' & Hx' & Hin). apply Hn. exists x. split; [done |].
  destruct (Hs o x Hx) as (x'' & Hx'' & (_ & _ & _ & _ & Hsub)).
  rewrite Hx' in Hx''. injection Hx'' as <-.
  apply list_elem_of_fmap in Hin as (c & -> & Hc).
  apply list_elem_of_fmap. exists c. split; [done | by apply Hsub].
Qed.

Lemma Reg_discard_message_callback_shrinks o c w x :
  heap w !! o = Some x →
  ∃ w', Reg_discard_message_callback o c w = Ret tt w' ∧
        shrinks w w' ∧
        ∀ h, c = Some h → ¬ registered w' o h.
Proof.
  intros Hx. unfold Reg_discard_message_callback. munfold. mrun Hx.
  eexists. split; [reflexivity |]. split.
  - intros o' x' Hx'. cbn. destruct (decide (o' = o)) as [-> | Hne].
    + rewrite lookup_insert_eq. eexists. split; [done |].
      rewrite Hx in Hx'. injection Hx' as <-. repeat split; cbn.
      intros c0. destruct c as [h |]; cbn; [| done].
      rewrite list_elem_of_filter. tauto.
    + rewrite lookup_insert_ne by done. exists x'. split; [done |].
      apply obj_shrinks_refl.
  - intros h -> (x' & Hx' & Hin). cbn in Hx'. rewrite lookup_insert_eq in Hx'.
    injection Hx' as <-. cbn in Hin.
    apply list_elem_of_fmap in Hin as (c0 & E & Hc).
    apply list_elem_of_filter in Hc as [Hc _]. by apply Hc.
Qed.

(** The loop of [Any._callback] over the other sources. *)
Lemma discard_losers_spec source (l : list (oid * option oid)) : ∀ w,
  (∀ oc, oc ∈ l → is_Some (heap w !! oc.1)) →
  ∃ w', for_each l (fun oc =>
          if bool_decide (oc.1 ≠ source)
          then Reg_discard_message_callback oc.1 oc.2 else ret tt) w
        = Ret tt w' ∧
        shrinks w w' ∧
        ∀ o h, (o, Some h) ∈ l → o ≠ source → ¬ registered w' o h.
Proof.
  induction l as [| [o c] l IH]; intros w Hlive.
  - exists w. split; [done |]. split; [apply shrinks_refl |].
    intros o h Hin. by apply elem_of_nil in Hin.
  - assert (∃ w1, (if bool_decide ((o, c).1 ≠ source)
                   then Reg_discard_message_callback (o, c).1 (o, c).2
                   else ret tt) w = Ret tt w1 ∧ shrinks w w1 ∧
                  (o ≠ source → ∀ h, c = Some h → ¬ registered w1 o h))
      as (w1 & Hstep & Hs1 & Hgone).
    { cbn. case_bool_decide as Hne.
      - destruct (Hlive (o, c)) as [x Hx]; [by left |].
        destruct (Reg_discard_message_callback_shrinks o c w x Hx)
          as (w1 & H1 & H2 & H3).
        exists w1. by repeat split.
      - exists w. split; [done |]. split; [apply shrinks_refl | done]. }
    destruct (IH w1) as (w' & Hrest & Hs' & Hgone').
    { intros oc Hoc. destruct (Hlive oc) as [x Hx]; [by right |].
      destruct (Hs1 _ _ Hx) as (x' & Hx' & _). by exists x'. }
    exists w'. split.
    { cbn [for_each]. unfold bind at 1. by rewrite Hstep. }
    split; [by eapply shrinks_trans |].
    intros o' h Hin Hne. apply elem_of_cons in Hin as [[= -> <-] | Hin].
    + apply (shrinks_not_registered w1 w'); [done | | by apply Hgone].
      destruct (Hlive (o, Some h)) as [x Hx]; [by left |].
      destruct (Hs1 _ _ Hx) as (x' & Hx' & _). by exists x'.
    + by apply Hgone'.
Qed.

Lemma get_Any_Some self r a w :
  heap w !! self = Some (mkObject r (KAny a)) → get_Any self w = Ret a w.
Proof. intros H. unfold get_Any. munfold. by rewrite H. Qed.

Lemma put_kind_registered self k x w o h :
  heap w !! self = Some x →
  registered (set_heap (<[self := mkObject (reg x) k]> (heap w)) w) o h →
  registered w o h.
Proof.
  intros Hx (x' & Hx' & Hin). cbn in Hx'.
  destruct (decide (o = self)) as [-> | Hne].
  - rewrite lookup_insert_eq in Hx'. injection Hx' as <-. by exists x.
  - rewrite lookup_insert_ne in Hx' by done. by exists x'.
Qed.

(** C7. When [Any._callback] reads an item from [source] while the Any
    is still open, it closes the Any, discards the callbacks it holds on
    every other stream, and signals activity with the result
    [(throw, args)] of that item, where for a success under
    [include_source] the args are [(source, peel_args(args))]; that signal
    latches the result; a later [_callback] on the closed Any does
    nothing; and [any(s1, s2)] with 42 waiting in [s2] ends with
    [(s2, 42)], unchanged by a later [s1.send(0)]. *)
Theorem Any__callback_first_item_wins
    (rec : methods) (self source : oid) (w w1 : world) (r r1 : Reg_state)
    (a a1 : Any_state) (cbs0 cbs : gmap oid (option oid))
    (final throw : bool) (args : list value)
    (Hobj : heap w !! self = Some (mkObject r (KAny a)))
    (Hopen : _callbacks a = Some cbs0)
    (Hread : Reg_next_raw rec source w = Ret (Some (final, throw, args)) w1)
    (Hself : heap w1 !! self = Some (mkObject r1 (KAny a1)))
    (Hopen1 : _callbacks a1 = Some cbs)
    (Hlive : map_Forall (λ other _, is_Some (heap w1 !! other)) cbs) :
  (∃ w2 r2 args',
      args' = (if negb throw && _include_source a1
               then [VRef source; peel_args args] else args) ∧
      Any__callback rec self source w =
        Reg_signal_activity rec self (Some (throw, args')) w2 ∧
      heap w2 !! self =
        Some (mkObject r2 (KAny (mkAny None (_include_source a1)
                                   (Some (true, throw, args'))))) ∧
      (∀ other h, cbs !! other = Some (Some h) → other ≠ source →
                  ¬ registered w2 other h) ∧
      ∃ w3 callbacks,
        Reg_signal_activity_locked self (Some (throw, args')) w2 =
          Ret callbacks w3 ∧
        Reg_result_raw self w3 = Ret (throw, args') w3) ∧
  (∀ w4 r4 a4 src,
      heap w4 !! self = Some (mkObject r4 (KAny a4)) →
      _callbacks a4 = None →
      Any__callback rec self src w4 = Ret tt w4) ∧
  (∀ bottom, ∃ w' obj,
      S4_any (methods_from 4 bottom) world0 =
      Ret (3, (false, [VRef 3; VInt 42]), VTuple [VRef 3; VInt 42], [],
           obj, obj, Some (true, false, [VRef 3; VInt 42])) w').
Proof.
  split; [| split].
  - set (args' := if negb throw && _include_source a1
                  then [VRef source; peel_args args] else args).
    set (a2 := mkAny None (_include_source a1) (_final a1)).
    set (wa := set_heap (<[self := mkObject r1 (KAny a2)]> (heap w1)) w1).
    destruct (discard_losers_spec source (map_to_list cbs) wa)
      as (wb & Hloop & Hs & Hgone).
    { intros [o c] Hin. apply elem_of_map_to_list in Hin. cbn.
      destruct (Hlive o c Hin) as [x Hx].
      subst wa. cbn. destruct (decide (o = self)) as [-> | Hne].
      - rewrite lookup_insert_eq. by eexists.
      - rewrite lookup_insert_ne by done. by eexists. }
    assert (heap wa !! self = Some (mkObject r1 (KAny a2))) as Hwa
      by (subst wa; cbn; apply lookup_insert_eq).
    destruct (Hs _ _ Hwa) as ([rb kb] & Hwb & (Hk & _)). cbn in Hk. subst kb.
    exists (set_heap (<[self := mkObject rb
                               (KAny (mkAny None (_include_source a1)
                                        (Some (true, throw, args'))))]>
                        (heap wb)) wb), rb, args'.
    split; [done |]. split; [| split; [| split]].
    + unfold Any__callback.
      mstep (get_Any_Some self r a w Hobj). rewrite Hopen.
      mstep Hread. mstep (get_Any_Some self r1 a1 w1 Hself). rewrite Hopen1.
      unfold bind at 1. unfold put_Any at 1.
      rewrite (put_kind_Some self _ _ w1 Hself). cbv beta iota.
      cbn [reg okind]. fold a2. fold wa. mstep Hloop.
      mstep (get_Any_Some self rb a2 wb Hwb).
      unfold bind at 1. unfold put_Any at 1.
      rewrite (put_kind_Some self _ _ wb Hwb). cbv beta iota.
      cbn [reg okind]. reflexivity.
    + cbn. apply lookup_insert_eq.
    + intros other h Hcb Hne Hreg.
      apply (put_kind_registered self _ _ wb other h Hwb) in Hreg.
      apply (Hgone other h); [| done | done].
      by apply elem_of_map_to_list.
    + do 2 eexists. split.
      * unfold Reg_signal_activity_locked. munfold. cbn.
        rewrite lookup_insert_eq. cbn. rewrite lookup_insert_eq. cbn.
        reflexivity.
      * unfold Reg_result_raw. munfold. cbn. by rewrite lookup_insert_eq.
  - intros w4 r4 a4 src H4 Hclosed. unfold Any__callback.
    mstep (get_Any_Some self r4 a4 w4 H4). by rewrite Hclosed.
  - intros bottom. do 2 eexists. vm_compute. reflexivity.
Qed.

Lemma Any__callback_first_item_wins_witness :
  ∃ w2, Any__callback (methods_at 4) 5 3 any_armed =
        Reg_signal_activity (methods_at 4) 5
          (Some (false, [VRef 3; VInt 42])) w2.
Proof.
  edestruct (Any__callback_first_item_wins (methods_at 4) 5 3 any_armed)
    as [(w2 & r2 & args' & Hargs & Hcall & _) _].
  - vm_compute. reflexivity.
  - reflexivity.
  - vm_compute. reflexivity.
  - vm_compute. reflexivity.
  - reflexivity.
  - apply map_Forall_to_list. vm_compute.
    repeat constructor; eexists; reflexivity.
  - exists w2. rewrite Hcall, Hargs. reflexivity.
Defined.

(** ** Pipe-set: the order of fan-in *)




(** ** Message callbacks fire exactly once *)


Section probes.
Variable rec : methods.
Variable self : oid.



End probes.

(** The two steps of the registrar, run one after the other, are
    [add_message_callback]. *)
Lemma registrar_steps_are_add_message_callback rec self f w :
  match Reg_add_message_callback rec self f w with
  | Ret _ w' =>
      ∃ l, interleave rec self f [Registrar; Registrar] locals0 w = Ret l w'
  | Raise e w' =>
      interleave rec self f [Registrar; Registrar] locals0 w = Raise e w'
  | Diverge =>
      interleave rec self f [Registrar; Registrar] locals0 w = Diverge
  end.
Proof.
  remember (interleave rec self f [Registrar; Registrar] locals0 w) as I
    eqn: EI.
  unfold Reg_add_message_callback, bind.
  cbn -[Reg_add_message_callback_locked] in EI. unfold bind in EI.
  destruct (Reg_add_message_callback_locked self f w)
    as [[callback []] w1 | e w1 |]; cbn in *; unfold bind in *; try done.
  - by eexists.
  - destruct (m_call rec callback self w1) as [[] w2 | e w2 |]; cbn in *;
      try done.
    by eexists.
Qed.

(** The two steps of the signaller are [signal_activity()]. *)
Lemma signaller_steps_are_signal_activity rec self f w :
  match Reg_signal_activity rec self None w with
  | Ret _ w' =>
      ∃ l, interleave rec self f [Signaller; Signaller] locals0 w = Ret l w'
  | Raise e w' =>
      interleave rec self f [Signaller; Signaller] locals0 w = Raise e w'
  | Diverge =>
      interleave rec self f [Signaller; Signaller] locals0 w = Diverge
  end.
Proof.
  remember (interleave rec self f [Signaller; Signaller] locals0 w) as I
    eqn: EI.
  unfold Reg_signal_activity, bind.
  cbn -[Reg_signal_activity_locked for_each] in EI. unfold bind in EI.
  destruct (Reg_signal_activity_locked self None w)
    as [callbacks w1 | e w1 |]; cbn -[for_each] in *; unfold bind in *;
    try done.
  destruct (for_each callbacks _ w1) as [[] w2 | e w2 |]; cbn in *; try done.
  by eexists.
Qed.




(** * Further properties *)

(** ** Reading and writing the store, continued *)

Lemma get_reg_Some o x w : heap w !! o = Some x → get_reg o w = Ret (reg x) w.
Proof. intros H. unfold get_reg, bind. by rewrite (get_object_Some o x). Qed.

Lemma put_reg_Some o r x w :
  heap w !! o = Some x →
  put_reg o r w = Ret tt (set_heap (<[o := mkObject r (okind x)]> (heap w)) w).
Proof. intros H. unfold put_reg, bind, put_object. by rewrite (get_object_Some o x). Qed.

(** Runs a method body along the lookups in a store built by insertions
    at distinct identities. *)
Ltac hrun :=
  repeat (progress (cbn;
    repeat first [ rewrite lookup_insert_eq
                 | rewrite lookup_insert_ne by (lia || congruence) ])).

Lemma set_heap_id w : set_heap (heap w) w = w.
Proof. by destruct w. Qed.

Lemma Reg_state_eta r :
  mkReg (message_callbacks r) (finish_callbacks r) (_id r) (_result r) = r.
Proof. by destruct r. Qed.

(** ** Callbacks that leave the store alone *)

Lemma simple_call_heap s w c : heap (simple_call s w c) = heap w.
Proof. unfold simple_call. by destruct (cb_func c). Qed.

Lemma simple_call_fresh s w c : fresh (simple_call s w c) = fresh w.
Proof. unfold simple_call. by destruct (cb_func c). Qed.

Lemma simple_call_running s w c :
  _running_streams (simple_call s w c) = _running_streams w.
Proof. unfold simple_call. by destruct (cb_func c). Qed.

Lemma simple_calls_heap cs s : ∀ w, heap (simple_calls cs s w) = heap w.
Proof.
  induction cs as [| c cs IH]; intros w; [done |].
  unfold simple_calls in *. cbn [fold_left]. by rewrite IH, simple_call_heap.
Qed.

Lemma simple_calls_fresh cs s : ∀ w, fresh (simple_calls cs s w) = fresh w.
Proof.
  induction cs as [| c cs IH]; intros w; [done |].
  unfold simple_calls in *. cbn [fold_left]. by rewrite IH, simple_call_fresh.
Qed.

Lemma simple_calls_running cs s : ∀ w,
  _running_streams (simple_calls cs s w) = _running_streams w.
Proof.
  induction cs as [| c cs IH]; intros w; [done |].
  unfold simple_calls in *. cbn [fold_left]. by rewrite IH, simple_call_running.
Qed.

Lemma Callback_call_simple rec c s w :
  is_simple c → Callback_call rec c s w = Ret tt (simple_call s w c).
Proof.
  unfold is_simple, Callback_call, simple_call.
  by destruct (cb_func c).
Qed.

Lemma for_each_simple rec s cs : ∀ w,
  Forall is_simple cs →
  for_each cs (fun c => Callback_call rec c s) w = Ret tt (simple_calls cs s w).
Proof.
  induction cs as [| c cs IH]; intros w Hall; [done |].
  inversion Hall as [| ? ? Hc Hrest]; subst.
  cbn [for_each]. unfold bind at 1. rewrite Callback_call_simple by done.
  by rewrite IH.
Qed.



(** [signal_activity(result)] on a stream whose callbacks leave the store
    alone. *)
Lemma Reg_signal_activity_simple rec self result w r k :
  heap w !! self = Some (mkObject r k) →
  Forall is_simple (message_callbacks r) →
  Forall is_simple (finish_callbacks r) →
  Reg_signal_activity (step_methods rec) self result w =
  Ret tt (signalled self result r k w).
Proof.
  intros Hobj Hmsg Hfin. unfold Reg_signal_activity, signalled.
  cbn [m_call step_methods].
  unfold bind at 1. unfold Reg_signal_activity_locked. munfold. mrun Hobj.
  rewrite for_each_simple by done.
  destruct result as [res |]; [| done].
  unfold Reg_take_finish_callbacks. munfold.
  rewrite simple_calls_heap. cbn [heap set_heap next_fresh].
  rewrite lookup_insert_eq. cbn.
  rewrite simple_calls_heap. cbn [heap set_heap next_fresh].
  rewrite lookup_insert_eq. cbn.
  rewrite for_each_simple by done. done.
Qed.


Lemma signalled_lookup self result r k w :
  heap (signalled self result r k w) !! self =
  Some (mkObject (mkReg [] (match result with
                            | Some _ => []
                            | None => finish_callbacks r
                            end) (Some (fresh w)) result) k).
Proof.
  unfold signalled. destruct result; rewrite !simple_calls_heap; cbn;
    by rewrite lookup_insert_eq.
Qed.

Lemma signalled_lookup_ne self result r k w o :
  o ≠ self → heap (signalled self result r k w) !! o = heap w !! o.
Proof.
  intros Hne. unfold signalled.
  destruct result; rewrite !simple_calls_heap; cbn;
    rewrite ?simple_calls_heap; cbn; by rewrite !lookup_insert_ne.
Qed.

(** ** Reg: registering and discarding callbacks *)

Lemma discard_unknown h cs :
  (∀ c, c ∈ cs → cb_id c ≠ h) → discard (Some h) cs = cs.
Proof.
  induction cs as [| c cs IH]; intros Hnew; [done |].
  unfold discard in *. rewrite filter_cons_True by (apply Hnew; by left).
  f_equal. apply IH. intros c' Hc'. apply Hnew. by right.
Qed.

Lemma discard_last h f cs :
  (∀ c, c ∈ cs → cb_id c ≠ h) → discard (Some h) (cs ++ [mkCallback h f]) = cs.
Proof.
  intros Hnew. unfold discard.
  rewrite filter_app, filter_cons_False by (cbn; tauto).
  rewrite filter_nil, app_nil_r. by apply (discard_unknown h cs).
Qed.

Lemma put_same_object self r k w :
  heap w !! self = Some (mkObject r k) →
  set_heap (<[self := mkObject r k]> (heap w)) w = w.
Proof. intros H. rewrite insert_id by done. apply set_heap_id. Qed.

Lemma Reg_discard_message_callback_Some self c w r k :
  heap w !! self = Some (mkObject r k) →
  Reg_discard_message_callback self c w =
  Ret tt (set_heap
            (<[self := mkObject (mkReg (discard c (message_callbacks r))
                                   (finish_callbacks r) (_id r) (_result r)) k]>
               (heap w)) w).
Proof.
  intros H. unfold Reg_discard_message_callback, bind.
  rewrite (get_reg_Some self _ w H). by rewrite (put_reg_Some self _ _ w H).
Qed.

(** X2.  [discard_message_callback] undoes a registration: on a quiet stream
    (null [_id]) [add_message_callback] registers the callback and returns its
    handle, and discarding that handle gives back the stream as it was;
    discarding a handle that is not registered, or null, changes nothing. *)
Theorem discard_message_callback_undoes_registration
    (rec : methods) (self : oid) (w : world) (r : Reg_state) (k : kind)
    (f : func)
    (Hobj : heap w !! self = Some (mkObject r k))
    (Hquiet : _id r = None)
    (Hfresh : ∀ c, c ∈ message_callbacks r → cb_id c ≠ fresh w) :
  (∃ w1, Reg_add_message_callback rec self f w = Ret (Some (fresh w)) w1 ∧
         registered w1 self (fresh w) ∧
         Reg_discard_message_callback self (Some (fresh w)) w1 =
         Ret tt (next_fresh w)) ∧
  (∀ h, (∀ c, c ∈ message_callbacks r → cb_id c ≠ h) →
        Reg_discard_message_callback self (Some h) w = Ret tt w) ∧
  Reg_discard_message_callback self None w = Ret tt w.
Proof.
  split; [| split].
  - eexists. split; [| split].
    + unfold Reg_add_message_callback, Reg_add_message_callback_locked.
      munfold. mrun Hobj. rewrite Hquiet. mrun Hobj. reflexivity.
    + eexists. cbn. rewrite lookup_insert_eq. split; [done |]. cbn.
      rewrite map_app. apply elem_of_app. right. cbn. by left.
    + erewrite Reg_discard_message_callback_Some
        by (cbn; apply lookup_insert_eq).
      cbn [message_callbacks finish_callbacks _id _result heap set_heap].
      rewrite discard_last by done.
      rewrite insert_insert_eq, <- Hquiet, Reg_state_eta, insert_id by done.
      done.
  - intros h Hh. rewrite (Reg_discard_message_callback_Some _ _ _ _ _ Hobj).
    rewrite discard_unknown by done. rewrite Reg_state_eta.
    by rewrite put_same_object.
  - rewrite (Reg_discard_message_callback_Some _ _ _ _ _ Hobj).
    cbn [discard]. rewrite Reg_state_eta. by rewrite put_same_object.
Qed.

Lemma discard_message_callback_undoes_registration_witness :
  Reg_discard_message_callback 2 None new_channel_world =
  Ret tt new_channel_world.
Proof.
  refine (proj2 (proj2 (discard_message_callback_undoes_registration
                          no_methods 2 new_channel_world _ _
                          (F_probe 0) _ _ _))).
  - vm_compute. reflexivity.
  - reflexivity.
  - intros c Hc. cbn in Hc. by apply elem_of_nil in Hc.
Defined.



(** ** Channel: pushing *)

(** [_push] on a channel that holds no terminal item and whose callbacks
    leave the store alone. *)
Lemma Channel__push_simple rec self w r queue final throw args :
  heap w !! self = Some (mkObject r (KChannel queue)) →
  (∀ t a, last queue ≠ Some (true, t, a)) →
  Forall is_simple (message_callbacks r) →
  Forall is_simple (finish_callbacks r) →
  let queue' := queue ++ [(final, throw, args)] in
  let w1 := set_heap (<[self := mkObject r (KChannel queue')]> (heap w)) w in
  Channel__push (step_methods rec) self final throw args w =
  Ret tt (if final then signalled self (Some (throw, args)) r (KChannel queue') w1
          else if bool_decide (length queue' = 1)
               then signalled self None r (KChannel queue') w1
               else w1).
Proof.
  intros Hobj Hopen Hmsg Hfin queue' w1.
  assert (heap w1 !! self = Some (mkObject r (KChannel queue'))) as Hobj1
    by apply lookup_insert_eq.
  assert ((put_kind self (KChannel queue') >>
           if final then
             Reg_signal_activity (step_methods rec) self (Some (throw, args))
           else if bool_decide (length queue' = 1)
                then Reg_signal_activity (step_methods rec) self None
                else ret tt) w =
          Ret tt (if final
                  then signalled self (Some (throw, args)) r (KChannel queue') w1
                  else if bool_decide (length queue' = 1)
                       then signalled self None r (KChannel queue') w1
                       else w1)) as Hrun.
  { unfold bind at 1. rewrite (put_kind_Some _ _ _ _ Hobj). cbn [reg].
    fold w1. destruct final.
    - by apply Reg_signal_activity_simple.
    - case_bool_decide; [by apply Reg_signal_activity_simple | done]. }
  unfold Channel__push. unfold bind at 1. unfold get_queue, get_kind.
  unfold bind at 1. unfold bind at 1.
  rewrite (get_object_Some _ _ _ Hobj). cbn [ret okind].
  destruct (last queue) as [[[[] t] a] |] eqn: E; try exact Hrun.
  by destruct (Hopen t a).
Qed.

(** X8.  What was passed to [finish] or [throw] is what [result] gives back:
    on a channel that holds no terminal item, after [finish(args...)] the
    result is latched and [result()] returns [peel_args(args)], and after
    [throw(exc, tb)] it raises [(type(exc), exc, tb)]; while no result is
    latched, [result()] and [result_raw()] raise NotFinished and change
    nothing. *)
Theorem Channel_result_is_what_was_finished
    (rec : methods) (self : oid) (w : world) (r : Reg_state)
    (queue : list item)
    (Hobj : heap w !! self = Some (mkObject r (KChannel queue)))
    (Hopen : ∀ t a, last queue ≠ Some (true, t, a))
    (Hmsg : Forall is_simple (message_callbacks r))
    (Hfin : Forall is_simple (finish_callbacks r)) :
  (∀ args, ∃ w',
      Channel_finish (step_methods rec) self args w = Ret tt w' ∧
      Reg_has_result self w' = Ret true w' ∧
      Reg_result_raw self w' = Ret (false, args) w' ∧
      Reg_result self w' = Ret (peel_args args) w') ∧
  (∀ exc tb, ∃ w',
      Channel_throw (step_methods rec) self exc tb w = Ret tt w' ∧
      Reg_has_result self w' = Ret true w' ∧
      Reg_result_raw self w' = Ret (true, [type_of exc; exc; tb]) w' ∧
      Reg_result self w' = Raise (Exn (type_of exc) exc tb) w') ∧
  (_result r = None →
      Reg_has_result self w = Ret false w ∧
      Reg_result_raw self w = Raise (new_exn NotFinished []) w ∧
      Reg_result self w = Raise (new_exn NotFinished []) w).
Proof.
  split; [| split].
  - intros args. eexists. split.
    + unfold Channel_finish. by apply Channel__push_simple.
    + cbv beta iota zeta.
      unfold Reg_has_result, Reg_result, Reg_result_raw. munfold.
      rewrite !signalled_lookup. done.
  - intros exc tb. eexists. split.
    + unfold Channel_throw. by apply Channel__push_simple.
    + cbv beta iota zeta.
      unfold Reg_has_result, Reg_result, Reg_result_raw. munfold.
      rewrite !signalled_lookup. done.
  - intros Hres. unfold Reg_has_result, Reg_result, Reg_result_raw. munfold.
    rewrite Hobj. cbn. by rewrite Hres.
Qed.

Lemma Channel_result_is_what_was_finished_witness :
  ∃ w', Channel_finish (step_methods no_methods) 2 [VInt 1; VInt 2]
          new_channel_world = Ret tt w' ∧
        Reg_has_result 2 w' = Ret true w' ∧
        Reg_result_raw 2 w' = Ret (false, [VInt 1; VInt 2]) w' ∧
        Reg_result 2 w' = Ret (peel_args [VInt 1; VInt 2]) w'.
Proof.
  refine (proj1 (Channel_result_is_what_was_finished no_methods 2
                   new_channel_world _ _ _ _ _ _) [VInt 1; VInt 2]).
  - vm_compute. reflexivity.
  - intros t a. cbn. discriminate.
  - constructor.
  - constructor.
Defined.



(** ** Channel as a closing FIFO *)

Lemma option_list_Some {A} (x : A) : option_list (Some x) = [x].
Proof. done. Qed.

Lemma option_list_None {A} : option_list (@None A) = [].
Proof. done. Qed.

Lemma last_nonfinal (pending : list item) t a :
  Forall nonfinal pending → last pending ≠ Some (true, t, a).
Proof.
  intros Hall Hlast. apply last_Some in Hlast as [l' ->].
  apply Forall_app in Hall as [_ Hall]. inversion Hall as [| ? ? Hhd _]; subst.
  discriminate.
Qed.

Lemma channel_push_step rec self pending closed w final throw args :
  channel_inv self pending closed w →
  ∃ w', Channel__push (step_methods rec) self final throw args w = Ret tt w' ∧
        match closed with
        | Some _ => channel_inv self pending closed w'
        | None =>
            if final
            then channel_inv self pending (Some (final, throw, args)) w'
            else channel_inv self (pending ++ [(final, throw, args)]) None w'
        end.
Proof.
  intros (r & Hobj & Hmsg & Hfin & Hid & Hall & Hclosed).
  destruct closed as [[[f t] a] |].
  - pose proof (Hclosed _ eq_refl) as Hf. cbn in Hf. subst f.
    exists w. split.
    + unfold Channel__push. munfold. rewrite Hobj. cbn [okind reg].
      rewrite ?option_list_Some, ?option_list_None. by rewrite last_snoc.
    + exists r. by repeat split.
  - rewrite ?option_list_Some, ?option_list_None in *. rewrite app_nil_r in *.
    eexists. split.
    { apply Channel__push_simple; try done.
      intros t a. by apply last_nonfinal. }
    cbv zeta. destruct final.
    + eexists. rewrite signalled_lookup. rewrite ?option_list_Some, ?option_list_None.
      repeat split; try done. intros it [= <-]. done.
    + destruct pending as [| it pending].
      * rewrite bool_decide_true by done.
        eexists. rewrite signalled_lookup. rewrite ?option_list_Some, ?option_list_None.
        rewrite app_nil_r. repeat split; try done.
        by repeat constructor.
      * rewrite bool_decide_false by (cbn; rewrite length_app; cbn; lia).
        exists r. split.
        { cbn [heap set_heap]. rewrite lookup_insert_eq.
          by rewrite option_list_None, app_nil_r. }
        repeat split; try done.
        { intros _. by apply Hid. }
        apply Forall_app. split; [done | by repeat constructor].
Qed.

Lemma channel_next_step rec self pending closed w :
  channel_inv self pending closed w →
  ∃ w', Reg_next_raw (step_methods rec) self w =
        Ret (match pending with
             | it :: _ => Some it
             | [] => closed
             end) w' ∧
        channel_inv self (tail pending) closed w'.
Proof.
  intros (r & Hobj & Hmsg & Hfin & Hid & Hall & Hclosed).
  destruct r as [mcs fcs i res]. cbn [message_callbacks finish_callbacks _id] in *.
  destruct pending as [| [[f t] a] pending].
  - destruct closed as [[[f t] a] |];
      rewrite ?option_list_Some, ?option_list_None in *; cbn [app tail] in *.
    + pose proof (Hclosed _ eq_refl) as Hf. cbn in Hf. subst f.
      destruct i as [i |]; [| by destruct Hid].
      eexists. split.
      * unfold Reg_next_raw. munfold. mrun Hobj.
        unfold dispatch__next_raw, Channel__next_raw. munfold. mrun Hobj.
        repeat (progress (cbn; rewrite ?lookup_insert_eq)). reflexivity.
      * eexists. cbn. rewrite lookup_insert_eq.
        repeat split; try done; by intros it [= <-].
    + destruct i as [i |].
      * eexists. split.
        { unfold Reg_next_raw. munfold. mrun Hobj.
          unfold dispatch__next_raw, Channel__next_raw. munfold. mrun Hobj.
          rewrite bool_decide_true by done. mrun Hobj. reflexivity. }
        eexists. cbn. rewrite lookup_insert_eq. repeat split; try done.
      * exists w. split.
        { unfold Reg_next_raw. munfold. mrun Hobj. reflexivity. }
        eexists. repeat split; try done.
  - inversion Hall as [| ? ? Hhd Htl]; subst. unfold nonfinal in Hhd.
    cbn in Hhd. subst f. cbn [app tail] in *.
    destruct i as [i |]; [| by destruct Hid].
    eexists. split.
    + unfold Reg_next_raw. munfold. mrun Hobj.
      unfold dispatch__next_raw, Channel__next_raw. munfold. mrun Hobj.
      reflexivity.
    + eexists. cbn. rewrite lookup_insert_eq. repeat split; try done.
Qed.

Lemma channel_script_fifo rec self : ∀ ops pending closed w,
  channel_inv self pending closed w →
  ∃ w', channel_script (step_methods rec) self ops w =
        Ret (fifo pending closed ops) w'.
Proof.
  induction ops as [| op ops IH]; intros pending closed w Hinv.
  - by exists w.
  - destruct op as [values | args | exc tb |]; cbn [channel_script fifo offered].
    + destruct (channel_push_step rec self pending closed w false false values
                  Hinv) as (w1 & Hpush & Hinv1).
      unfold Channel_send, bind. rewrite Hpush.
      destruct closed; by apply IH.
    + destruct (channel_push_step rec self pending closed w true false args
                  Hinv) as (w1 & Hpush & Hinv1).
      unfold Channel_finish, bind. rewrite Hpush.
      destruct closed; by apply IH.
    + destruct (channel_push_step rec self pending closed w true true
                  [type_of exc; exc; tb] Hinv) as (w1 & Hpush & Hinv1).
      unfold Channel_throw, bind. rewrite Hpush.
      destruct closed; by apply IH.
    + destruct (channel_next_step rec self pending closed w Hinv)
        as (w1 & Hnext & Hinv1).
      unfold bind at 1. rewrite Hnext.
      destruct (IH (tail pending) closed w1 Hinv1) as (w' & Hrest).
      unfold bind at 1. rewrite Hrest. exists w'. by destruct pending.
Qed.

Lemma items_read_cons_nonfinal (it : item) outs :
  it.1.1 = false → items_read (Some it :: outs) = it :: items_read outs.
Proof.
  intros H. unfold items_read.
  change (omap id (Some it :: outs)) with (it :: omap id outs).
  by rewrite filter_cons_True.
Qed.

Lemma items_read_cons_final (it : item) outs :
  it.1.1 = true → items_read (Some it :: outs) = items_read outs.
Proof.
  intros H. unfold items_read.
  change (omap id (Some it :: outs)) with (it :: omap id outs).
  rewrite filter_cons_False; [done |].
  rewrite H. discriminate.
Qed.

Lemma terminals_read_cons_nonfinal (it : item) outs :
  it.1.1 = false → terminals_read (Some it :: outs) = terminals_read outs.
Proof.
  intros H. unfold terminals_read.
  change (omap id (Some it :: outs)) with (it :: omap id outs).
  rewrite filter_cons_False; [done |].
  rewrite H. discriminate.
Qed.

(** The reference FIFO hands out the items sent before the close, oldest
    first. *)
Lemma fifo_items_in_order : ∀ ops pending closed,
  Forall nonfinal pending →
  (∀ it, closed = Some it → it.1.1 = true) →
  items_read (fifo pending closed ops) `prefix_of`
  pending ++ match closed with
             | Some _ => []
             | None => sent_before_close ops
             end.
Proof.
  induction ops as [| op ops IH]; intros pending closed Hall Hclosed.
  - apply prefix_nil.
  - destruct op as [values | args | exc tb |]; cbn [fifo offered].
    + destruct closed as [c |]; [by apply IH |].
      cbn [sent_before_close].
      replace (pending ++ (false, false, values) :: sent_before_close ops)
        with ((pending ++ [(false, false, values)]) ++ sent_before_close ops)
        by (by rewrite <- app_assoc).
      apply (IH _ None); [| done].
      apply Forall_app. split; [done | by repeat constructor].
    + destruct closed as [c |]; [by apply IH |].
      cbn [sent_before_close].
      apply (IH pending (Some (true, false, args))); [done |].
      by intros it [= <-].
    + destruct closed as [c |]; [by apply IH |].
      cbn [sent_before_close].
      apply (IH pending (Some (true, true, [type_of exc; exc; tb]))); [done |].
      by intros it [= <-].
    + destruct pending as [| it pending].
      * specialize (IH [] closed Hall Hclosed).
        destruct closed as [c |]; [| exact IH].
        rewrite items_read_cons_final by (by apply Hclosed). exact IH.
      * inversion Hall as [| ? ? Hhd Htl]; subst.
        rewrite items_read_cons_nonfinal by done. cbn [app].
        apply prefix_cons.
        specialize (IH pending closed Htl Hclosed). by destruct closed.
Qed.

(** Every terminal item it shows is the first one that was offered. *)
Lemma fifo_terminal_is_first : ∀ ops pending closed,
  Forall nonfinal pending →
  ∀ it, it ∈ terminals_read (fifo pending closed ops) →
        match closed with
        | Some c => c = it
        | None => first_terminal ops = Some it
        end.
Proof.
  induction ops as [| op ops IH]; intros pending closed Hall it Hin.
  - by apply elem_of_nil in Hin.
  - destruct op as [values | args | exc tb |]; cbn [fifo offered] in Hin.
    + destruct closed as [c |].
      * by apply (IH pending (Some c)).
      * cbn [first_terminal]. apply (IH (pending ++ [(false, false, values)]) None);
          [| done].
        apply Forall_app. split; [done | by repeat constructor].
    + destruct closed as [c |].
      * by apply (IH pending (Some c)).
      * cbn [first_terminal]. f_equal.
        by apply (IH pending (Some (true, false, args))).
    + destruct closed as [c |].
      * by apply (IH pending (Some c)).
      * cbn [first_terminal]. f_equal.
        by apply (IH pending (Some (true, true, [type_of exc; exc; tb]))).
    + destruct pending as [| p pending].
      * destruct closed as [c |].
        -- unfold terminals_read in Hin.
           change (omap id (Some c :: fifo [] (Some c) ops)) with
             (c :: omap id (fifo [] (Some c) ops)) in Hin.
           apply list_elem_of_filter in Hin as [Hfinal Hin].
           apply elem_of_cons in Hin as [-> | Hin]; [done |].
           apply (IH [] (Some c)); [done |].
           unfold terminals_read. by apply list_elem_of_filter.
        -- cbn [first_terminal]. apply (IH [] None); [done |]. exact Hin.
      * inversion Hall as [| ? ? Hhd Htl]; subst.
        rewrite terminals_read_cons_nonfinal in Hin by done.
        specialize (IH pending closed Htl it Hin).
        by destruct closed.
Qed.

(** X6.  A channel is a FIFO that closes with its first terminal item.
    Whatever sequence of [send], [finish], [throw] and [next_raw] is run on a
    channel with an empty queue, every read returns what the reference FIFO
    returns; so the non-terminal items read are, in order, a prefix of the
    items sent before the first [finish] or [throw], and every terminal item
    read is the first one that was pushed. *)
Theorem Channel_is_a_closing_fifo
    (rec : methods) (self : oid) (w : world) (r : Reg_state)
    (ops : list channel_op)
    (Hobj : heap w !! self = Some (mkObject r (KChannel [])))
    (Hmsg : Forall is_simple (message_callbacks r))
    (Hfin : Forall is_simple (finish_callbacks r)) :
  ∃ outs w',
    channel_script (step_methods rec) self ops w = Ret outs w' ∧
    outs = fifo [] None ops ∧
    items_read outs `prefix_of` sent_before_close ops ∧
    ∀ it, it ∈ terminals_read outs → first_terminal ops = Some it.
Proof.
  destruct (channel_script_fifo rec self ops [] None w) as (w' & Hrun).
  { exists r. repeat split; try done. }
  exists (fifo [] None ops), w'. split; [done |]. split; [done |]. split.
  - apply (fifo_items_in_order ops [] None); [constructor | done].
  - intros it Hin. by apply (fifo_terminal_is_first ops [] None).
Qed.

Lemma Channel_is_a_closing_fifo_witness :
  ∃ outs w',
    channel_script (step_methods no_methods) 2
      [Next; Send [VInt 1]; Send [VInt 2]; Next; Finish [VInt 3];
       Send [VInt 4]; Next; Next; Throw (VInt 5) VNone; Next]
      new_channel_world = Ret outs w' ∧
    outs = [None; Some (false, false, [VInt 1]); Some (false, false, [VInt 2]);
            Some (true, false, [VInt 3]); Some (true, false, [VInt 3])].
Proof.
  edestruct (Channel_is_a_closing_fifo no_methods 2 new_channel_world new_Reg
               [Next; Send [VInt 1]; Send [VInt 2]; Next; Finish [VInt 3];
                Send [VInt 4]; Next; Next; Throw (VInt 5) VNone; Next])
    as (outs & w' & Hrun & Houts & _).
  - vm_compute. reflexivity.
  - constructor.
  - constructor.
  - exists outs, w'. split; [exact Hrun |]. rewrite Houts. reflexivity.
Defined.

(** ** peel_args *)

(** X1.  [peel_args] forgets how its value was passed in exactly two ways: no
    argument looks like the single argument None, and two or more arguments
    look like the one tuple of them. Apart from that, equal results come from
    equal arguments. *)
Theorem peel_args_collisions (args1 args2 : list value) :
  peel_args args1 = peel_args args2 ↔
  args1 = args2 ∨
  (args1 = [] ∧ args2 = [VNone]) ∨ (args1 = [VNone] ∧ args2 = []) ∨
  (2 ≤ length args2 ∧ args1 = [VTuple args2]) ∨
  (2 ≤ length args1 ∧ args2 = [VTuple args1]).
Proof.
  split.
  - destruct args1 as [| x1 [| y1 l1]], args2 as [| x2 [| y2 l2]]; cbn;
      intros E; subst; try discriminate; auto.
    + right. right. right. left. split; [lia | done].
    + right. right. right. right. split; [lia | done].
    + left. by injection E as -> -> ->.
  - intros [-> | [[-> ->] | [[-> ->] | [[Hlen ->] | [Hlen ->]]]]]; try done.
    + destruct args2 as [| x2 [| y2 l2]]; cbn in *; try lia. done.
    + destruct args1 as [| x1 [| y1 l1]]; cbn in *; try lia. done.
Qed.

(** ** run without scheduled work *)

(** X24.  [run(main)] on a stream that already has a result returns that
    result or raises its exception at once, and runs nothing of what is on the
    call queue; on a stream without result and with an empty call queue it
    waits for ever. *)
Theorem run_without_scheduled_work
    (rec : methods) (main : oid) (w : world) (r : Reg_state) (k : kind)
    (Hobj : heap w !! main = Some (mkObject r k)) :
  let w0 := mkWorld (heap w) (fresh w) (callqueue w) false
              (_running_streams w) (probe_log w) in
  match _result r with
  | Some (false, args) => run rec main w = Ret (peel_args args) w0
  | Some (true, [type; exc; tb]) => run rec main w = Raise (Exn type exc tb) w0
  | Some (true, _) => run rec main w = Raise (new_exn ValueError []) w0
  | None => callqueue w = [] → run (step_methods rec) main w = Diverge
  end.
Proof.
  intros w0. subst w0.
  destruct (_result r) as [[[] args] |] eqn: Hres.
  - assert (run rec main w =
            raise_args args (mkWorld (heap w) (fresh w) (callqueue w) false
                               (_running_streams w) (probe_log w))) as ->.
    { unfold run, run_loop, Reg_has_result, Reg_result_raw, set_event.
      munfold. by repeat (progress (cbn; rewrite ?Hobj, ?Hres)). }
    by destruct args as [| ? [| ? [| ? [| ? ?]]]].
  - unfold run, run_loop, Reg_has_result, Reg_result_raw, set_event.
    munfold. by repeat (progress (cbn; rewrite ?Hobj, ?Hres)).
  - intros Hq. unfold run, run_loop, Reg_has_result, set_event.
    cbn [m_iterate step_methods]. unfold callqueue_iterate.
    munfold. by repeat (progress (cbn; rewrite ?Hobj, ?Hres, ?Hq)).
Qed.

Lemma run_without_scheduled_work_witness :
  run (step_methods no_methods) 2 new_channel_world = Diverge.
Proof.
  refine (run_without_scheduled_work no_methods 2 new_channel_world new_Reg
            _ _ _).
  - vm_compute. reflexivity.
  - reflexivity.
Defined.

(** ** Operations a class does not support *)

(** X21.  A stream of a class that does not override [pipe] (a channel, an
    Any, a pipe-set) cannot be the left side of a pair: [self.pipe(other)]
    raises NotImplementedError and changes nothing, and so [PipePair(left,
    right)], [left | right] and [pipe(left, right)] raise it after creating
    the pair object and its input channel, with [left] and [right] untouched
    and no callback registered. An Any raises it for [send] and [throw] as
    well. *)
Theorem PipePair_of_unpipeable_left_raises
    (rec : methods) (left right : oid) (w : world) (x : object)
    (Hobj : heap w !! left = Some x)
    (Hkind : pipeable (okind x) = false)
    (Hold : left < fresh w) :
  (∀ other, dispatch_pipe rec left other w =
            Raise (new_exn NotImplementedError []) w) ∧
  (∃ w', PipePair___init__ (step_methods rec) left right w =
         Raise (new_exn NotImplementedError []) w' ∧
         pipe (step_methods rec) left [right] w =
         Raise (new_exn NotImplementedError []) w' ∧
         fresh w' = S (S (fresh w)) ∧
         ∀ o, o < fresh w → heap w' !! o = heap w !! o) ∧
  (∀ a values exc tb, okind x = KAny a →
     dispatch_send rec left values w =
     Raise (new_exn NotImplementedError []) w ∧
     dispatch_throw rec left exc tb w =
     Raise (new_exn NotImplementedError []) w).
Proof.
  assert (∀ other, dispatch_pipe rec left other w =
                   Raise (new_exn NotImplementedError []) w) as Hpipe.
  { intros other. unfold dispatch_pipe. munfold. rewrite Hobj. cbn.
    by destruct (okind x). }
  split; [done |]. split.
  - assert (∃ w', PipePair___init__ (step_methods rec) left right w =
                  Raise (new_exn NotImplementedError []) w' ∧
                  fresh w' = S (S (fresh w)) ∧
                  ∀ o, o < fresh w → heap w' !! o = heap w !! o)
      as (w' & Hinit & Hfresh & Hsame).
    { eexists. split; [| split].
      - unfold PipePair___init__, Channel___init__, allocate. munfold.
        hrun. unfold dispatch_pipe. munfold. hrun. rewrite Hobj. cbn.
        destruct (okind x); try done.
      - done.
      - intros o Ho. cbn. by rewrite !lookup_insert_ne by lia. }
    exists w'. split; [done |]. split; [| done].
    unfold pipe. simp pipe_args. cbn. unfold bind. cbn. done.
  - intros a values exc tb Ha. unfold dispatch_send, dispatch_throw. munfold.
    rewrite Hobj. cbn. by rewrite Ha.
Qed.

Lemma PipePair_of_unpipeable_left_raises_witness :
  dispatch_pipe no_methods 2 3 new_channel_world =
  Raise (new_exn NotImplementedError []) new_channel_world.
Proof.
  refine (proj1 (PipePair_of_unpipeable_left_raises no_methods 2 0
                   new_channel_world _ _ _ _) 3).
  - vm_compute. reflexivity.
  - reflexivity.
  - vm_compute. lia.
Defined.

(** ** GeneratorStream._step: what the coroutine makes of an item *)

Lemma get_GeneratorStream_Some self r g w :
  heap w !! self = Some (mkObject r (KGeneratorStream g)) →
  get_GeneratorStream self w = Ret g w.
Proof. intros H. unfold get_GeneratorStream. munfold. by rewrite H. Qed.



(** ** _pipe_broken *)

(** X20.  [_pipe_broken] on a task throws BrokenPipe into the task's input
    channel: the item [(true, true, (BrokenPipe, BrokenPipe(), None))] is
    appended to the input queue and the input signals activity with the result
    [(true, (BrokenPipe, BrokenPipe(), None))], unless the input already holds
    a terminal item, in which case nothing happens. On a pair it is passed on
    to the right side. *)
Theorem _pipe_broken_closes_the_input
    (rec : methods) (self : oid) (w : world) (rg ri : Reg_state)
    (g : GeneratorStream_state) (queue : list item)
    (Hobj : heap w !! self = Some (mkObject rg (KGeneratorStream g)))
    (Hin : heap w !! input g = Some (mkObject ri (KChannel queue))) :
  GeneratorStream__pipe_broken rec self w =
  match last queue with
  | Some (true, _, _) => Ret tt w
  | _ =>
      Reg_signal_activity rec (input g)
        (Some (true, [VType BrokenPipe; VExc BrokenPipe []; VNone]))
        (set_heap (<[input g := mkObject ri (KChannel (queue ++ [broken_pipe_item]))]>
                     (heap w)) w)
  end ∧
  (∀ pair rp pp,
      heap w !! pair = Some (mkObject rp (KPipePair pp)) → right pp = self →
      PipePair__pipe_broken (step_methods rec) pair w =
      GeneratorStream__pipe_broken rec self w) ∧
  (Forall is_simple (message_callbacks ri) →
   Forall is_simple (finish_callbacks ri) →
   queue = [] →
   ∃ w', GeneratorStream__pipe_broken (step_methods rec) self w = Ret tt w' ∧
         Reg_next_raw (step_methods rec) (input g) w' =
         Ret (Some broken_pipe_item) w' ∧
         Reg_result (input g) w' =
         Raise (Exn (VType BrokenPipe) (VExc BrokenPipe []) VNone) w').
Proof.
  assert (∀ rec0, GeneratorStream__pipe_broken rec0 self w =
          Channel__push rec0 (input g) true true
            [VType BrokenPipe; VExc BrokenPipe []; VNone] w) as Hpush.
  { intros rec0.
    unfold GeneratorStream__pipe_broken, GeneratorStream_throw, Channel_throw.
    unfold bind at 1. by rewrite (get_GeneratorStream_Some _ _ _ _ Hobj). }
  split; [| split].
  - rewrite Hpush. unfold Channel__push, get_queue, get_kind.
    unfold bind at 1. unfold bind at 1. unfold bind at 1.
    rewrite (get_object_Some _ _ _ Hin). cbn [ret okind].
    destruct (last queue) as [[[[] t] a] |]; try done;
      unfold bind at 1; by rewrite (put_kind_Some _ _ _ _ Hin).
  - intros pair rp pp Hpair <-.
    unfold PipePair__pipe_broken. unfold bind at 1. unfold get_PipePair.
    unfold bind at 1. unfold get_kind. unfold bind at 1.
    rewrite (get_object_Some _ _ _ Hpair). cbn [ret okind m__pipe_broken step_methods].
    unfold dispatch__pipe_broken. unfold bind at 1. unfold get_kind.
    unfold bind at 1. by rewrite (get_object_Some _ _ _ Hobj).
  - intros Hmsg Hfin ->.
    pose proof (Channel__push_simple rec (input g) w ri [] true true
                  [VType BrokenPipe; VExc BrokenPipe []; VNone] Hin) as Hrun.
    cbv zeta in Hrun. eexists. split.
    { rewrite Hpush. apply Hrun; try done. }
    split.
    + eapply Channel_terminal_sticky.
      * rewrite signalled_lookup. reflexivity.
      * reflexivity.
      * reflexivity.
    + unfold Reg_result, Reg_result_raw. munfold. rewrite signalled_lookup.
      done.
Qed.

Lemma _pipe_broken_closes_the_input_witness :
  ∃ w', GeneratorStream__pipe_broken (methods_at 8) 2 finishing_task_started =
        Ret tt w' ∧
        Reg_result 4 w' =
        Raise (Exn (VType BrokenPipe) (VExc BrokenPipe []) VNone) w'.
Proof.
  edestruct (_pipe_broken_closes_the_input (methods_at 7) 2
               finishing_task_started) as (_ & _ & H).
  - vm_compute. reflexivity.
  - vm_compute. reflexivity.
  - destruct H as (w' & H1 & _ & H2).
    + constructor.
    + constructor.
    + reflexivity.
    + exists w'. split; [exact H1 | exact H2].
Defined.

(** ** Pipe-sets: closing and piping *)

(** The loop of [_Pipeable._finish] over the upstreams. *)
Lemma discard_all_spec (l : list (oid * option oid)) : ∀ w,
  (∀ oc, oc ∈ l → is_Some (heap w !! oc.1)) →
  ∃ w', for_each l (fun oc => Reg_discard_message_callback oc.1 oc.2) w
        = Ret tt w' ∧
        w' = set_heap (heap w') w ∧
        shrinks w w' ∧
        (∀ o h, (o, Some h) ∈ l → ¬ registered w' o h) ∧
        (∀ o, (∀ c, (o, c) ∉ l) → heap w' !! o = heap w !! o).
Proof.
  induction l as [| [o c] l IH]; intros w Hlive.
  - exists w. split; [done |]. split; [by rewrite set_heap_id |].
    split; [apply shrinks_refl |]. split; [| done].
    intros o h Hin. by apply elem_of_nil in Hin.
  - destruct (Hlive (o, c)) as [[rx kx] Hx]; [by left |].
    destruct (Reg_discard_message_callback_shrinks o c w _ Hx)
      as (w1 & H1 & Hs1 & Hgone).
    assert (w1 = set_heap (heap w1) w ∧
            ∀ o', o' ≠ o → heap w1 !! o' = heap w !! o') as [Hframe1 Hother1].
    { rewrite (Reg_discard_message_callback_Some _ _ _ _ _ Hx) in H1.
      injection H1 as <-. split; [done |]. intros o' Hne. cbn.
      by rewrite lookup_insert_ne. }
    destruct (IH w1) as (w' & Hrest & Hframe & Hs' & Hgone' & Hother').
    { intros oc Hoc. destruct (Hlive oc) as [x' Hx']; [by right |].
      destruct (Hs1 _ _ Hx') as (x'' & Hx'' & _). by exists x''. }
    exists w'. split.
    { cbn [for_each]. unfold bind at 1. cbn [fst snd]. by rewrite H1. }
    split.
    { rewrite Hframe at 1. rewrite Hframe1. done. }
    split; [by eapply shrinks_trans |]. split.
    + intros o' h Hin. apply elem_of_cons in Hin as [[= -> <-] | Hin].
      * apply (shrinks_not_registered w1 w'); [done | | by apply Hgone].
        destruct (Hs1 _ _ Hx) as (x' & Hx' & _). by exists x'.
      * by apply Hgone'.
    + intros o' Hnot. rewrite Hother'.
      * apply Hother1. intros ->. apply (Hnot c). by left.
      * intros c' Hin. apply (Hnot c'). by right.
Qed.

(** X11.  [_finish] closes a pipe-set for good. On an open pipe-set it stores
    the terminal item, forgets every upstream and every pending read, discards
    the callbacks it held on the upstreams, and signals activity with the
    result; where the callbacks registered on the pipe-set leave the store
    alone, the result is latched and every read from then on returns the
    terminal item. On a closed pipe-set, [_finish] and [_pipe] do nothing and
    [_next_raw] returns the stored terminal item. *)
Theorem _Pipeable__finish_closes_the_pipe_set
    (rec : methods) (self : oid) (w : world) (r : Reg_state)
    (p : Pipeable_state) (throw : bool) (args : list value)
    (Hobj : heap w !! self = Some (mkObject r (KInner p)))
    (Hlive : map_Forall (λ o _, is_Some (heap w !! o)) (pipes p)) :
  match final p with
  | Some f =>
      _Pipeable__finish rec self throw args w = Ret tt w ∧
      (∀ other, _Pipeable__pipe rec self other w = Ret tt w) ∧
      _Pipeable__next_raw rec self w = Ret (Some f) w
  | None =>
      ∃ w1 r1,
        _Pipeable__finish rec self throw args w =
        Reg_signal_activity rec self (Some (throw, args)) w1 ∧
        heap w1 !! self =
        Some (mkObject r1 (KInner (mkPipeable ∅ [] (Some (true, throw, args))
                                     (outer p)))) ∧
        (∀ c, c ∈ message_callbacks r1 → c ∈ message_callbacks r) ∧
        finish_callbacks r1 = finish_callbacks r ∧
        (∀ o h, pipes p !! o = Some (Some h) → ¬ registered w1 o h) ∧
        (Forall is_simple (message_callbacks r) →
         Forall is_simple (finish_callbacks r) →
         ∃ w2,
           _Pipeable__finish (step_methods rec) self throw args w = Ret tt w2 ∧
           Reg_result_raw self w2 = Ret (throw, args) w2 ∧
           Reg_next_raw (step_methods rec) self w2 =
           Ret (Some (true, throw, args)) w2)
  end.
Proof.
  destruct (final p) as [f |] eqn: Hfinal.
  - split; [| split].
    + unfold _Pipeable__finish. unfold bind at 1.
      rewrite (get_Pipeable_Some _ _ _ _ Hobj). by rewrite Hfinal.
    + intros other. unfold _Pipeable__pipe. unfold bind at 1.
      rewrite (get_Pipeable_Some _ _ _ _ Hobj). by rewrite Hfinal.
    + unfold _Pipeable__next_raw. unfold bind at 1.
      rewrite (get_Pipeable_Some _ _ _ _ Hobj). by rewrite Hfinal.
  - set (p' := mkPipeable ∅ [] (Some (true, throw, args)) (outer p)).
    set (w0 := set_heap (<[self := mkObject r (KInner p')]> (heap w)) w).
    assert (heap w0 !! self = Some (mkObject r (KInner p'))) as Hobj0
      by apply lookup_insert_eq.
    destruct (discard_all_spec (map_to_list (pipes p)) w0)
      as (w1 & Hloop & Hframe & Hshr & Hgone & _).
    { intros [o c] Hoc. apply elem_of_map_to_list in Hoc.
      destruct (Hlive o c Hoc) as [x Hx]. subst w0. cbn.
      destruct (decide (o = self)) as [-> | Hne].
      - rewrite lookup_insert_eq. by eexists.
      - rewrite lookup_insert_ne by done. by exists x. }
    destruct (Hshr _ _ Hobj0) as ([r1 k1] & Hobj1 & (Hk & Hf & Hi & Hr & Hm)).
    cbn in Hk, Hf, Hi, Hr, Hm. subst k1.
    assert (∀ rec0, _Pipeable__finish rec0 self throw args w =
                    Reg_signal_activity rec0 self (Some (throw, args)) w1)
      as Hrun.
    { intros rec0. unfold _Pipeable__finish. unfold bind at 1.
      rewrite (get_Pipeable_Some _ _ _ _ Hobj). rewrite Hfinal.
      unfold put_Pipeable. unfold bind at 1.
      rewrite (put_kind_Some _ _ _ _ Hobj). cbn [reg]. fold p'. fold w0.
      unfold bind at 1. by rewrite Hloop. }
    exists w1, r1. split; [apply Hrun |]. split; [done |].
    split; [done |]. split; [done |]. split.
    { intros o h Hoh. apply Hgone. by apply elem_of_map_to_list. }
    intros Hmsg Hfin.
    pose proof (signalled_lookup self (Some (throw, args)) r1 (KInner p') w1)
      as Hobj2.
    assert (_Pipeable__finish (step_methods rec) self throw args w =
            Ret tt (signalled self (Some (throw, args)) r1 (KInner p') w1))
      as Hfinish.
    { rewrite Hrun. apply (Reg_signal_activity_simple rec self _ w1 r1 _ Hobj1).
      - apply Forall_forall. intros c Hc. rewrite Forall_forall in Hmsg.
        apply Hmsg. by apply Hm.
      - by rewrite Hf. }
    remember (signalled self (Some (throw, args)) r1 (KInner p') w1) as w2
      eqn: Ew2.
    clear Ew2. exists w2. split; [done |]. split.
    + unfold Reg_result_raw. munfold. by rewrite Hobj2.
    + unfold Reg_next_raw. munfold. mrun Hobj2.
      unfold dispatch__next_raw, _Pipeable__next_raw. munfold. mrun Hobj2.
      rewrite insert_id by done. by rewrite set_heap_id.
Qed.

Lemma _Pipeable__finish_closes_the_pipe_set_witness :
  ∃ w2, _Pipeable__finish (step_methods no_methods) 2 false [VInt 9]
          pipeset_a1_sent = Ret tt w2 ∧
        Reg_result_raw 2 w2 = Ret (false, [VInt 9]) w2 ∧
        Reg_next_raw (step_methods no_methods) 2 w2 =
        Ret (Some (true, false, [VInt 9])) w2.
Proof.
  pose proof (fun r p Hobj Hlive =>
                _Pipeable__finish_closes_the_pipe_set no_methods 2
                  pipeset_a1_sent r p false [VInt 9] Hobj Hlive) as H.
  specialize (H _ _ ltac:(vm_compute; reflexivity)).
  cbn [final] in H.
  destruct H as (w1 & r1 & _ & _ & _ & _ & _ & H).
  - apply map_Forall_to_list. vm_compute.
    repeat constructor; eexists; reflexivity.
  - apply H; constructor.
Defined.



(** ** The stack of a task *)

Lemma methods_from_S k rec :
  methods_from (S k) rec = step_methods (methods_from k rec).
Proof. done. Qed.

Lemma set_stack_id g : set_stack (stack g) g = g.
Proof. by destruct g. Qed.

Lemma with_stack_id self rg g w :
  heap w !! self = Some (mkObject rg (KGeneratorStream g)) →
  with_stack self rg g (stack g) w = w.
Proof.
  intros H. unfold with_stack. rewrite set_stack_id. by apply put_same_object.
Qed.

Lemma with_stack_lookup self rg g s w :
  heap (with_stack self rg g s w) !! self =
  Some (mkObject rg (KGeneratorStream (set_stack s g))).
Proof. apply lookup_insert_eq. Qed.

Lemma with_stack_with_stack self rg g s s' w :
  with_stack self rg (set_stack s g) s' (with_stack self rg g s w) =
  with_stack self rg g s' w.
Proof. unfold with_stack. cbn. by rewrite insert_insert_eq. Qed.

Lemma at_terminal_with_stack self rg g s w o :
  heap w !! self = Some (mkObject rg (KGeneratorStream g)) →
  at_terminal w o → at_terminal (with_stack self rg g s w) o.
Proof.
  intros Hobj (r & t & a & rest & Ho). exists r, t, a, rest.
  unfold with_stack. cbn. rewrite lookup_insert_ne; [done |].
  intros ->. congruence.
Qed.

Lemma before_terminal_with_stack self rg g s w o :
  heap w !! self = Some (mkObject rg (KGeneratorStream g)) →
  before_terminal w o → before_terminal (with_stack self rg g s w) o.
Proof.
  intros Hobj (r & queue & Ho & Hq). exists r, queue. split; [| done].
  unfold with_stack. cbn. rewrite lookup_insert_ne; [done |].
  intros ->. congruence.
Qed.

Lemma drained_with_stack self rg g s w o :
  heap w !! self = Some (mkObject rg (KGeneratorStream g)) →
  drained w o → drained (with_stack self rg g s w) o.
Proof.
  intros Hobj (r & i & t & a & Ho & Hi & Hr). exists r, i, t, a.
  split; [| done].
  unfold with_stack. cbn. rewrite lookup_insert_ne; [done |].
  intros ->. congruence.
Qed.

Lemma dispatch_next_is_final_at_terminal rec w o :
  at_terminal w o → dispatch_next_is_final rec o w = Ret true w.
Proof.
  intros (r & t & a & rest & Ho).
  unfold dispatch_next_is_final, Channel_next_is_final. munfold.
  by mrun Ho.
Qed.

Lemma dispatch_next_is_final_before_terminal rec w o :
  before_terminal w o → dispatch_next_is_final rec o w = Ret false w.
Proof.
  intros (r & queue & Ho & Hq).
  unfold dispatch_next_is_final, Channel_next_is_final. munfold.
  mrun Ho. destruct queue as [| [[[] t] a] rest]; try done.
  by destruct (Hq t a rest).
Qed.

Lemma _Stackable_next_is_final_pops
    (rec : methods) (self : oid) (rg : Reg_state) (rest : list oid) :
  ∀ (done : list oid) (w : world) (g : GeneratorStream_state)
    (Hobj : heap w !! self = Some (mkObject rg (KGeneratorStream g)))
    (Hstack : stack g = done ++ rest)
    (Hdone : Forall (at_terminal w) done)
    (Hrest : ∀ o rest', rest = o :: rest' → before_terminal w o),
  _Stackable_next_is_final (methods_from (S (length done)) rec) self w =
  Ret (match rest with
       | [] => bool_decide (s_final g ≠ None)
       | _ :: _ => false
       end) (with_stack self rg g rest w).
Proof.
  induction done as [| d done IH]; intros w g Hobj Hstack Hdone Hrest.
  - cbn [app] in Hstack. rewrite <- Hstack, with_stack_id by done.
    unfold _Stackable_next_is_final. unfold bind at 1.
    rewrite (get_GeneratorStream_Some _ _ _ _ Hobj). rewrite Hstack.
    destruct rest as [| o rest']; [done |].
    unfold bind at 1. cbn [length]. rewrite methods_from_S.
    cbn [m_next_is_final step_methods].
    by rewrite (dispatch_next_is_final_before_terminal _ w o (Hrest _ _ eq_refl)).
  - inversion Hdone as [| ? ? Hd Hdone']; subst.
    unfold _Stackable_next_is_final. unfold bind at 1.
    rewrite (get_GeneratorStream_Some _ _ _ _ Hobj). rewrite Hstack.
    cbn [app]. unfold bind at 1.
    cbn [length]. rewrite (methods_from_S (S (length done))).
    cbn [m_next_is_final step_methods].
    rewrite (dispatch_next_is_final_at_terminal _ w d Hd).
    unfold bind at 1. unfold pop_if_head. unfold bind at 1.
    rewrite (get_GeneratorStream_Some _ _ _ _ Hobj). rewrite Hstack.
    cbn [app]. rewrite bool_decide_true by done.
    unfold put_GeneratorStream. rewrite (put_kind_Some _ _ _ _ Hobj).
    cbn [reg]. fold (with_stack self rg g (done ++ rest) w).
    unfold dispatch_next_is_final. unfold bind at 1. unfold get_kind.
    unfold bind at 1. unfold get_object. rewrite with_stack_lookup.
    cbn [ret okind].
    rewrite (IH (with_stack self rg g (done ++ rest) w)
               (set_stack (done ++ rest) g)).
    + cbn [s_final set_stack]. by rewrite with_stack_with_stack.
    + apply with_stack_lookup.
    + done.
    + eapply Forall_impl; [exact Hdone' |]. intros o.
      by apply at_terminal_with_stack.
    + intros o rest' E. apply before_terminal_with_stack; [done |].
      by eapply Hrest.
Qed.

(** X12.  [next_is_final] on a task takes the channels whose next item is
    their terminal item off the front of the stack, up to the first channel
    that is not there yet; it answers false if there is one, and else whether
    the task itself is finished. Asked again, it gives the same answer and
    changes nothing. *)
Theorem _Stackable_next_is_final_pops_finished
    (rec : methods) (self : oid) (rg : Reg_state) (done rest : list oid)
    (w : world) (g : GeneratorStream_state)
    (Hobj : heap w !! self = Some (mkObject rg (KGeneratorStream g)))
    (Hstack : stack g = done ++ rest)
    (Hdone : Forall (at_terminal w) done)
    (Hrest : ∀ o rest', rest = o :: rest' → before_terminal w o) :
  let answer := match rest with
                | [] => bool_decide (s_final g ≠ None)
                | _ :: _ => false
                end in
  let w' := with_stack self rg g rest w in
  _Stackable_next_is_final (methods_from (S (length done)) rec) self w =
  Ret answer w' ∧
  _Stackable_next_is_final (methods_from 1 rec) self w' = Ret answer w'.
Proof.
  cbv zeta. split.
  - by apply _Stackable_next_is_final_pops.
  - pose proof (_Stackable_next_is_final_pops rec self rg rest []
                  (with_stack self rg g rest w) (set_stack rest g)) as Hagain.
    cbn [length app s_final set_stack] in Hagain.
    rewrite with_stack_with_stack in Hagain. apply Hagain.
    + apply with_stack_lookup.
    + done.
    + constructor.
    + intros o rest' E. apply before_terminal_with_stack; [done |].
      by eapply Hrest.
Qed.

Lemma _Stackable_next_is_final_pops_finished_witness :
  ∃ w', _Stackable_next_is_final (methods_from 2 no_methods) 2
          finishing_task_done = Ret true w'.
Proof.
  pose proof (fun rg g Hobj =>
                _Stackable_next_is_final_pops_finished no_methods 2 rg [5]
                  [] finishing_task_done g Hobj) as H.
  specialize (H _ _ ltac:(vm_compute; reflexivity) ltac:(reflexivity)).
  eexists. apply H.
  - repeat constructor. do 4 eexists. vm_compute. reflexivity.
  - intros o rest' E. discriminate E.
Defined.

Lemma _Stackable__next_raw_skips_drained (rec : methods) (self : oid)
    (rg : Reg_state) (rest : list oid) :
  ∀ (done : list oid) (w : world) (g : GeneratorStream_state),
    heap w !! self = Some (mkObject rg (KGeneratorStream g)) →
    stack g = done ++ rest →
    Forall (drained w) done →
    _Stackable__next_raw (methods_from (S (length done)) rec) self w =
    _Stackable__next_raw (methods_from 1 rec) self (with_stack self rg g rest w).
Proof.
  induction done as [| d done IH]; intros w g Hobj Hstack Hdone.
  - cbn [app] in Hstack. by rewrite <- Hstack, with_stack_id.
  - inversion Hdone as [| ? ? Hd Hdone']; subst.
    destruct Hd as (r & i & t & a & Hd & Hi & Hr).
    unfold _Stackable__next_raw at 1. unfold bind at 1.
    rewrite (get_GeneratorStream_Some _ _ _ _ Hobj). rewrite Hstack.
    cbn [app]. unfold bind at 1.
    cbn [length]. rewrite (methods_from_S (S (length done))).
    rewrite (Channel_terminal_sticky _ d w r i t a Hd Hi Hr).
    unfold bind at 1. unfold pop_if_head. unfold bind at 1.
    rewrite (get_GeneratorStream_Some _ _ _ _ Hobj). rewrite Hstack.
    cbn [app]. rewrite bool_decide_true by done.
    unfold put_GeneratorStream. rewrite (put_kind_Some _ _ _ _ Hobj).
    cbn [reg m__next_raw step_methods].
    fold (with_stack self rg g (done ++ rest) w).
    unfold dispatch__next_raw. unfold bind at 1. unfold get_kind.
    unfold bind at 1. unfold get_object. rewrite with_stack_lookup.
    cbn [ret okind].
    rewrite (IH (with_stack self rg g (done ++ rest) w)
               (set_stack (done ++ rest) g)).
    + by rewrite with_stack_with_stack.
    + apply with_stack_lookup.
    + done.
    + eapply Forall_impl; [exact Hdone' |]. intros o.
      by apply drained_with_stack.
Qed.

(** X13.  A read of a task goes through its stack: the channels in front that
    were finished and read up to their terminal item are taken off, and the
    read is served by the first stream behind them. With nothing behind them,
    the read returns the task's own terminal item, or null while the task is
    not finished; with a channel behind them whose next item is a plain one,
    the read returns that item and takes it out of the channel. *)
Theorem _Stackable__next_raw_serves_first_unfinished
    (rec : methods) (self : oid) (rg : Reg_state) (done rest : list oid)
    (w : world) (g : GeneratorStream_state)
    (Hobj : heap w !! self = Some (mkObject rg (KGeneratorStream g)))
    (Hstack : stack g = done ++ rest)
    (Hdone : Forall (drained w) done) :
  let w' := with_stack self rg g rest w in
  (rest = [] →
     _Stackable__next_raw (methods_from (S (length done)) rec) self w =
     Ret (s_final g) w') ∧
  (∀ o rest' ro i throw args queue,
     rest = o :: rest' →
     heap w !! o = Some (mkObject ro (KChannel ((false, throw, args) :: queue))) →
     _id ro = Some i →
     _Stackable__next_raw (methods_from (S (length done)) rec) self w =
     Ret (Some (false, throw, args))
       (set_heap (<[o := mkObject ro (KChannel queue)]> (heap w')) w')).
Proof.
  intros w'.
  pose proof (_Stackable__next_raw_skips_drained rec self rg rest done w g
                Hobj Hstack Hdone) as Hskip.
  fold w' in Hskip.
  assert (heap w' !! self = Some (mkObject rg (KGeneratorStream (set_stack rest g))))
    as Hobj' by apply with_stack_lookup.
  split.
  - intros ->. rewrite Hskip. unfold _Stackable__next_raw. unfold bind at 1.
    by rewrite (get_GeneratorStream_Some _ _ _ _ Hobj').
  - intros o rest' ro i throw args queue -> Ho Hi.
    assert (o ≠ self) as Hne by (intros ->; congruence).
    assert (heap w' !! o =
            Some (mkObject ro (KChannel ((false, throw, args) :: queue))))
      as Ho'.
    { subst w'. unfold with_stack. cbn. by rewrite lookup_insert_ne. }
    rewrite Hskip. unfold _Stackable__next_raw. unfold bind at 1.
    rewrite (get_GeneratorStream_Some _ _ _ _ Hobj'). cbn [stack set_stack].
    assert (Reg_next_raw (methods_from 1 rec) o w' =
            Ret (Some (false, throw, args))
              (set_heap (<[o := mkObject ro (KChannel queue)]> (heap w')) w'))
      as Hread.
    { rewrite methods_from_S. destruct ro as [mcs fcs i' res]. cbn in Hi.
      subst i'. clear Hskip Hobj'. clearbody w'.
      unfold Reg_next_raw. munfold. mrun Ho'.
      unfold dispatch__next_raw, Channel__next_raw. munfold. mrun Ho'.
      reflexivity. }
    unfold bind at 1. by rewrite Hread.
Qed.

Lemma _Stackable__next_raw_serves_first_unfinished_witness :
  ∃ w', _Stackable__next_raw (methods_from 2 no_methods) 2
          finishing_task_done = Ret (Some (true, false, [VInt 7])) w'.
Proof.
  pose proof (fun rg g Hobj =>
                _Stackable__next_raw_serves_first_unfinished no_methods 2 rg
                  [5] [] finishing_task_done g Hobj) as H.
  specialize (H _ _ ltac:(vm_compute; reflexivity) ltac:(reflexivity)).
  eexists. apply H.
  - repeat constructor. do 4 eexists. vm_compute. repeat split; reflexivity.
  - reflexivity.
Defined.

(** ** Reg.next_raw: the activity id *)

(** X4.  A read that finds nothing goes back to waiting only if nothing was
    signalled meanwhile. When [_next_raw] returns null, [next_raw] returns
    null; it resets the activity id if the id is still the one it saw before
    the call, after which a callback is registered and not called; if a
    [signal_activity] during the call has replaced the id, the id is kept, and
    a callback added next is called at once instead of being registered. When
    the stream is quiet to begin with, [_next_raw] is not called at all. *)
Theorem next_raw_keeps_newer_activity
    (rec : methods) (self : oid) (w w1 : world) (r r1 : Reg_state)
    (k k1 : kind) (id0 : oid) (f : func)
    (Hobj : heap w !! self = Some (mkObject r k))
    (Hid : _id r = Some id0)
    (Hnone : m__next_raw rec self w = Ret None w1)
    (Hobj1 : heap w1 !! self = Some (mkObject r1 k1)) :
  (_id r1 = Some id0 →
     let w' := set_heap (<[self := mkObject (mkReg (message_callbacks r1)
                                        (finish_callbacks r1) None (_result r1)) k1]>
                           (heap w1)) w1 in
     Reg_next_raw rec self w = Ret None w' ∧
     ∃ w'', Reg_add_message_callback rec self f w' = Ret (Some (fresh w1)) w'' ∧
            registered w'' self (fresh w1)) ∧
  (∀ id1, _id r1 = Some id1 → id1 ≠ id0 →
     Reg_next_raw rec self w = Ret None w1 ∧
     Reg_add_message_callback rec self f w1 =
     (m_call rec (mkCallback (fresh w1) f) self >> ret None) (next_fresh w1)) ∧
  (∀ wq rq kq, heap wq !! self = Some (mkObject rq kq) → _id rq = None →
     Reg_next_raw rec self wq = Ret None wq).
Proof.
  split; [| split].
  - intros Hsame. cbv zeta. split.
    + unfold Reg_next_raw. munfold. mrun Hobj. rewrite Hid, Hnone.
      mrun Hobj1. rewrite Hsame. rewrite bool_decide_true by done.
      mrun Hobj1. done.
    + eexists. split.
      * unfold Reg_add_message_callback, Reg_add_message_callback_locked.
        munfold. hrun. reflexivity.
      * eexists. cbn. rewrite lookup_insert_eq. split; [done |]. cbn.
        rewrite map_app. apply elem_of_app. right. cbn. by left.
  - intros id1 Hid1 Hne. split.
    + unfold Reg_next_raw. munfold. mrun Hobj. rewrite Hid, Hnone.
      mrun Hobj1. rewrite Hid1. rewrite bool_decide_false by congruence.
      done.
    + unfold Reg_add_message_callback, Reg_add_message_callback_locked.
      munfold. mrun Hobj1. rewrite Hid1. done.
  - intros wq rq kq Hq Hidq. unfold Reg_next_raw. munfold. mrun Hq.
    by rewrite Hidq.
Qed.

Lemma next_raw_keeps_newer_activity_witness :
  ∃ w', Reg_next_raw (methods_at 1) 2 read_channel_world = Ret None w' ∧
        ∃ w'', Reg_add_message_callback (methods_at 1) 2 (F_probe 0) w' =
               Ret (Some 4) w'' ∧ registered w'' 2 4.
Proof.
  pose proof (fun w1 r r1 k k1 Hobj Hid Hnone Hobj1 =>
                next_raw_keeps_newer_activity (methods_at 1) 2
                  read_channel_world w1 r r1 k k1 3 (F_probe 0)
                  Hobj Hid Hnone Hobj1) as H.
  specialize (H _ _ _ _ _ ltac:(vm_compute; reflexivity) ltac:(reflexivity)
                ltac:(vm_compute; reflexivity) ltac:(vm_compute; reflexivity)).
  destruct H as (H & _ & _).
  destruct (H eq_refl) as (H1 & w'' & H2 & H3).
  eexists. split; [exact H1 |]. exists w''. split; [exact H2 | exact H3].
Defined.

(** ** Callbacks on the output of a finished task *)

Lemma simple_call_finished_task s w c o :
  finished_task w o → finished_task (simple_call s w c) o.
Proof. unfold finished_task. by rewrite simple_call_heap. Qed.

Lemma Callback_call_quiet rec owner c s w :
  is_quiet_for owner c → finished_task w owner →
  Callback_call rec c s w = Ret tt (simple_call s w c).
Proof.
  intros [Hc | Hc] (r & g & f & Hobj & Hfinal).
  - by apply Callback_call_simple.
  - unfold Callback_call, simple_call. rewrite Hc.
    unfold _Stackable__stack_callback. unfold bind at 1.
    rewrite (get_GeneratorStream_Some _ _ _ _ Hobj). by rewrite Hfinal.
Qed.

Lemma for_each_quiet rec owner s cs : ∀ w,
  Forall (is_quiet_for owner) cs → finished_task w owner →
  for_each cs (fun c => Callback_call rec c s) w = Ret tt (simple_calls cs s w).
Proof.
  induction cs as [| c cs IH]; intros w Hall Hdone; [done |].
  inversion Hall as [| ? ? Hc Hrest]; subst.
  cbn [for_each]. unfold bind at 1.
  rewrite (Callback_call_quiet rec owner) by done.
  rewrite IH; [done | done | by apply simple_call_finished_task].
Qed.

Lemma finished_task_set_heap_ne owner o x w w0 :
  o ≠ owner → finished_task w owner →
  finished_task (set_heap (<[o := x]> (heap w)) w0) owner.
Proof.
  intros Hne (r & g & f & Hobj & Hfinal). exists r, g, f. split; [| done].
  cbn. by rewrite lookup_insert_ne.
Qed.

(** [signal_activity(result)] on a stream whose callbacks do nothing to
    the store once [owner] is finished. *)
Lemma Reg_signal_activity_quiet rec owner self result w r k :
  heap w !! self = Some (mkObject r k) →
  self ≠ owner → finished_task w owner →
  Forall (is_quiet_for owner) (message_callbacks r) →
  Forall (is_quiet_for owner) (finish_callbacks r) →
  Reg_signal_activity (step_methods rec) self result w =
  Ret tt (signalled self result r k w).
Proof.
  intros Hobj Hne Hdone Hmsg Hfin. unfold Reg_signal_activity, signalled.
  cbn [m_call step_methods].
  unfold bind at 1. unfold Reg_signal_activity_locked. munfold. mrun Hobj.
  rewrite (for_each_quiet rec owner);
    [| done | by apply finished_task_set_heap_ne].
  destruct result as [res |]; [| done].
  unfold Reg_take_finish_callbacks. munfold.
  rewrite simple_calls_heap. cbn [heap set_heap next_fresh].
  rewrite lookup_insert_eq. cbn.
  rewrite simple_calls_heap. cbn [heap set_heap next_fresh].
  rewrite lookup_insert_eq. cbn.
  rewrite (for_each_quiet rec owner); [done | done |].
  apply finished_task_set_heap_ne; [done |].
  destruct Hdone as (r0 & g0 & f0 & H0 & Hf0). exists r0, g0, f0.
  split; [| done]. rewrite simple_calls_heap. cbn.
  by rewrite lookup_insert_ne.
Qed.

(** A terminal push on such a channel. *)
Lemma Channel__push_quiet rec owner self w r queue throw args :
  heap w !! self = Some (mkObject r (KChannel queue)) →
  (∀ t a, last queue ≠ Some (true, t, a)) →
  self ≠ owner → finished_task w owner →
  Forall (is_quiet_for owner) (message_callbacks r) →
  Forall (is_quiet_for owner) (finish_callbacks r) →
  let queue' := queue ++ [(true, throw, args)] in
  Channel__push (step_methods rec) self true throw args w =
  Ret tt (signalled self (Some (throw, args)) r (KChannel queue')
            (set_heap (<[self := mkObject r (KChannel queue')]> (heap w)) w)).
Proof.
  intros Hobj Hopen Hne Hdone Hmsg Hfin queue'.
  set (w1 := set_heap (<[self := mkObject r (KChannel queue')]> (heap w)) w).
  assert (heap w1 !! self = Some (mkObject r (KChannel queue'))) as Hobj1
    by apply lookup_insert_eq.
  assert ((put_kind self (KChannel queue') >>
           Reg_signal_activity (step_methods rec) self (Some (throw, args))) w =
          Ret tt (signalled self (Some (throw, args)) r (KChannel queue') w1))
    as Hrun.
  { unfold bind at 1. rewrite (put_kind_Some _ _ _ _ Hobj). cbn [reg].
    fold w1. apply (Reg_signal_activity_quiet rec owner); try done.
    by apply finished_task_set_heap_ne. }
  unfold Channel__push. unfold bind at 1. unfold get_queue, get_kind.
  unfold bind at 1. unfold bind at 1.
  rewrite (get_object_Some _ _ _ Hobj). cbn [ret okind].
  destruct (last queue) as [[[[] t] a] |] eqn: E; try exact Hrun.
  by destruct (Hopen t a).
Qed.

(** ** The end of a task *)

Lemma upd_lookup_eq o x w : heap (upd o x w) !! o = Some x.
Proof. apply lookup_insert_eq. Qed.

Lemma upd_lookup_ne o x w o' : o' ≠ o → heap (upd o x w) !! o' = heap w !! o'.
Proof. intros H. unfold upd. cbn. by rewrite lookup_insert_ne. Qed.

Lemma upd_upd o x y w : upd o y (upd o x w) = upd o y w.
Proof. unfold upd. cbn. by rewrite insert_insert_eq. Qed.

Lemma signalled_running self result r k w :
  _running_streams (signalled self result r k w) = _running_streams w.
Proof.
  unfold signalled. destruct result; rewrite !simple_calls_running; cbn;
    by rewrite ?simple_calls_running.
Qed.

Lemma put_kind_upd o k x w :
  heap w !! o = Some x → put_kind o k w = Ret tt (upd o (mkObject (reg x) k) w).
Proof. apply put_kind_Some. Qed.

(** [_Pipeable._finish] on an open pipe-set whose callbacks leave the
    store alone and whose upstreams are other objects. *)
Lemma _Pipeable__finish_simple rec self w r p throw args :
  heap w !! self = Some (mkObject r (KInner p)) →
  final p = None →
  map_Forall (λ o _, is_Some (heap w !! o) ∧ o ≠ self) (pipes p) →
  Forall is_simple (message_callbacks r) →
  Forall is_simple (finish_callbacks r) →
  ∃ w' i,
    _Pipeable__finish (step_methods rec) self throw args w = Ret tt w' ∧
    heap w' !! self =
    Some (mkObject (mkReg [] [] (Some i) (Some (throw, args)))
            (KInner (mkPipeable ∅ [] (Some (true, throw, args)) (outer p)))) ∧
    (∀ o, o ≠ self → pipes p !! o = None → heap w' !! o = heap w !! o) ∧
    (∀ o h, pipes p !! o = Some (Some h) → ¬ registered w' o h) ∧
    _running_streams w' = _running_streams w.
Proof.
  intros Hobj Hfinal Hups Hmsg Hfin.
  set (p' := mkPipeable ∅ [] (Some (true, throw, args)) (outer p)).
  set (w0 := upd self (mkObject r (KInner p')) w).
  assert (heap w0 !! self = Some (mkObject r (KInner p'))) as Hobj0
    by apply upd_lookup_eq.
  destruct (discard_all_spec (map_to_list (pipes p)) w0)
    as (w1 & Hloop & Hframe & Hshr & Hgone & Hsame).
  { intros [o c] Hoc. apply elem_of_map_to_list in Hoc.
    destruct (Hups o c Hoc) as [[x Hx] Hne]. cbn [fst].
    subst w0. rewrite upd_lookup_ne by done. by exists x. }
  assert (heap w1 !! self = Some (mkObject r (KInner p'))) as Hobj1.
  { rewrite Hsame; [done |]. intros c Hin. apply elem_of_map_to_list in Hin.
    by destruct (Hups self c Hin) as [_ Hne]. }
  exists (signalled self (Some (throw, args)) r (KInner p') w1), (fresh w1).
  split; [| split; [| split; [| split]]].
  - unfold _Pipeable__finish. unfold bind at 1.
    rewrite (get_Pipeable_Some _ _ _ _ Hobj). rewrite Hfinal.
    unfold put_Pipeable. unfold bind at 1.
    rewrite (put_kind_upd _ _ _ _ Hobj). cbn [reg]. fold p'. fold w0.
    unfold bind at 1. rewrite Hloop.
    by apply Reg_signal_activity_simple.
  - by rewrite signalled_lookup.
  - intros o Hne Hnot. rewrite signalled_lookup_ne by done.
    rewrite Hsame.
    + subst w0. by rewrite upd_lookup_ne.
    + intros c Hin. apply elem_of_map_to_list in Hin. congruence.
  - intros o h Hoh (x & Hx & Hin).
    assert (o ≠ self) as Hne.
    { by destruct (Hups o _ Hoh) as [_ Hne]. }
    rewrite signalled_lookup_ne in Hx by done.
    apply (Hgone o h); [by apply elem_of_map_to_list |]. by exists x.
  - rewrite signalled_running. rewrite Hframe. cbn. done.
Qed.

(** [_Stackable._finish] on an unfinished task whose callbacks leave the
    store alone. *)
Lemma _Stackable__finish_simple rec self rg done rest w g throw args :
  heap w !! self = Some (mkObject rg (KGeneratorStream g)) →
  s_final g = None →
  stack g = done ++ rest →
  Forall (at_terminal w) done →
  (∀ o rest', rest = o :: rest' → before_terminal w o) →
  Forall is_simple (message_callbacks rg) →
  Forall is_simple (finish_callbacks rg) →
  let k' := KGeneratorStream
              (set_stack rest (set_s_final (Some (true, throw, args)) g)) in
  _Stackable__finish (methods_from (S (length done)) rec) self throw args w =
  Ret tt (signalled self (Some (throw, args)) rg k' (upd self (mkObject rg k') w)).
Proof.
  intros Hobj Hfinal Hstack Hdone Hrest Hmsg Hfin k'.
  set (g2 := set_s_final (Some (true, throw, args)) g).
  unfold _Stackable__finish. unfold bind at 1.
  rewrite (get_GeneratorStream_Some _ _ _ _ Hobj). rewrite Hfinal.
  unfold put_GeneratorStream. unfold bind at 1.
  rewrite (put_kind_upd _ _ _ _ Hobj). cbn [reg]. fold g2.
  unfold bind at 1.
  rewrite (_Stackable_next_is_final_pops rec self rg rest done _ g2).
  - unfold with_stack. fold (upd self (mkObject rg (KGeneratorStream (set_stack rest g2)))
                               (upd self (mkObject rg (KGeneratorStream g2)) w)).
    rewrite upd_upd. rewrite methods_from_S.
    apply Reg_signal_activity_simple; [apply upd_lookup_eq | done | done].
  - apply upd_lookup_eq.
  - done.
  - eapply Forall_impl; [exact Hdone |]. intros o (r & t & a & q & Ho).
    exists r, t, a, q. rewrite upd_lookup_ne; [done |]. intros ->. congruence.
  - intros o rest' E. destruct (Hrest o rest' E) as (r & q & Ho & Hq).
    exists r, q. split; [| done]. rewrite upd_lookup_ne; [done |].
    intros ->. congruence.
Qed.

Lemma _Stackable_finished_ignores rec self w r g f :
  heap w !! self = Some (mkObject r (KGeneratorStream g)) →
  s_final g = Some f →
  (∀ throw args, _Stackable__finish rec self throw args w = Ret tt w) ∧
  (∀ other, _Stackable__stack rec self other w = Ret tt w) ∧
  (∀ other, _Stackable__stack_callback rec self other w = Ret tt w).
Proof.
  intros Hobj Hfinal. repeat split; intros.
  - unfold _Stackable__finish. unfold bind at 1.
    rewrite (get_GeneratorStream_Some _ _ _ _ Hobj). by rewrite Hfinal.
  - unfold _Stackable__stack. unfold bind at 1.
    rewrite (get_GeneratorStream_Some _ _ _ _ Hobj). by rewrite Hfinal.
  - unfold _Stackable__stack_callback. unfold bind at 1.
    rewrite (get_GeneratorStream_Some _ _ _ _ Hobj). by rewrite Hfinal.
Qed.

(** X15.  [_Stackable._finish] finishes a task once. On an unfinished task it
    stores the terminal item, takes the channels that are at their terminal
    item off the front of the stack, and signals activity with the result,
    which calls and drops every callback; nothing but the task object changes.
    From then on [_finish], [_stack] and [_stack_callback] change nothing, and
    once the stack is empty every read returns the terminal item. *)
Theorem _Stackable__finish_latches_once
    (rec : methods) (self : oid) (rg : Reg_state) (done rest : list oid)
    (w : world) (g : GeneratorStream_state) (throw : bool) (args : list value)
    (Hobj : heap w !! self = Some (mkObject rg (KGeneratorStream g)))
    (Hfinal : s_final g = None)
    (Hstack : stack g = done ++ rest)
    (Hdone : Forall (at_terminal w) done)
    (Hrest : ∀ o rest', rest = o :: rest' → before_terminal w o)
    (Hmsg : Forall is_simple (message_callbacks rg))
    (Hfin : Forall is_simple (finish_callbacks rg)) :
  ∃ w' r',
    _Stackable__finish (methods_from (S (length done)) rec) self throw args w =
    Ret tt w' ∧
    heap w' !! self =
    Some (mkObject r' (KGeneratorStream
            (set_stack rest (set_s_final (Some (true, throw, args)) g)))) ∧
    _result r' = Some (throw, args) ∧
    message_callbacks r' = [] ∧ finish_callbacks r' = [] ∧
    (∀ o, o ≠ self → heap w' !! o = heap w !! o) ∧
    (∀ rec' throw' args' other,
        _Stackable__finish rec' self throw' args' w' = Ret tt w' ∧
        _Stackable__stack rec' self other w' = Ret tt w' ∧
        _Stackable__stack_callback rec' self other w' = Ret tt w') ∧
    (rest = [] →
     Reg_next_raw (step_methods rec) self w' = Ret (Some (true, throw, args)) w').
Proof.
  pose proof (_Stackable__finish_simple rec self rg done rest w g throw args
                Hobj Hfinal Hstack Hdone Hrest Hmsg Hfin) as Hrun.
  cbv zeta in Hrun.
  set (k' := KGeneratorStream
               (set_stack rest (set_s_final (Some (true, throw, args)) g))) in *.
  remember (signalled self (Some (throw, args)) rg k'
              (upd self (mkObject rg k') w)) as w' eqn: Ew'.
  assert (heap w' !! self =
          Some (mkObject (mkReg [] [] (Some (fresh w)) (Some (throw, args))) k'))
    as Hobj'.
  { subst w'. by rewrite signalled_lookup. }
  assert (∀ o, o ≠ self → heap w' !! o = heap w !! o) as Hframe.
  { intros o Hne. subst w'. rewrite signalled_lookup_ne by done.
    by rewrite upd_lookup_ne. }
  clear Ew'. eexists w', _. split; [exact Hrun |]. split; [exact Hobj' |].
  split; [done |]. split; [done |]. split; [done |]. split; [done |]. split.
  - intros rec' throw' args' other.
    destruct (_Stackable_finished_ignores rec' self w' _ _ (true, throw, args)
                Hobj' eq_refl) as (H1 & H2 & H3).
    by repeat split.
  - intros ->. subst k'. unfold Reg_next_raw. munfold. mrun Hobj'.
    unfold dispatch__next_raw, _Stackable__next_raw. munfold. mrun Hobj'.
    rewrite insert_id by done. by rewrite set_heap_id.
Qed.

Lemma _Stackable__finish_latches_once_witness :
  ∃ w', _Stackable__finish (methods_from 1 no_methods) 2 false [VInt 3]
          finishing_task_started = Ret tt w' ∧
        Reg_result_raw 2 w' = Ret (false, [VInt 3]) w'.
Proof.
  pose proof (fun rg g Hobj Hfinal Hstack =>
                _Stackable__finish_latches_once no_methods 2 rg [] [5]
                  finishing_task_started g false [VInt 3] Hobj Hfinal Hstack)
    as H.
  specialize (H _ _ ltac:(vm_compute; reflexivity) ltac:(reflexivity)
                ltac:(reflexivity)).
  destruct H as (w' & r' & H1 & H2 & H3 & _).
  - constructor.
  - intros o rest' [= <- <-]. do 2 eexists. split; [vm_compute; reflexivity |].
    intros t a rest'. discriminate.
  - constructor.
  - constructor.
  - exists w'. split; [exact H1 |].
    unfold Reg_result_raw, bind. rewrite (get_reg_Some _ _ _ H2). cbn.
    rewrite H3. reflexivity.
Defined.

(** X19.  [_end] takes a running task to its finished state. For a task
    without sub-streams (its stack holds its output channel, which is open)
    whose callbacks and those of its [inner] leave the store alone, and on
    whose output nothing is registered but such callbacks and the task's own
    [_stack_callback]: the generator is dropped and the task leaves
    [_running_streams]; the pipe-set [inner] is closed with the terminal item,
    forgets its upstreams, whose callbacks are discarded, and loses its
    [outer]; the task stores the terminal item and latches the result; the
    output channel gets a terminal item, which for a failure is thrown again
    from the exception value; none of the three objects has a callback left.
    From then on [inner.send] does nothing, and a reader of the task whose
    output is empty gets the task's terminal item. *)
Theorem GeneratorStream__end_finishes_the_task
    (rec : methods) (self : oid) (w : world) (rs ri ro : Reg_state)
    (g : GeneratorStream_state) (p : Pipeable_state) (queue : list item)
    (throw : bool) (args targs : list value)
    (Hself : heap w !! self = Some (mkObject rs (KGeneratorStream g)))
    (Hinner : heap w !! inner g = Some (mkObject ri (KInner p)))
    (Hout : heap w !! output g = Some (mkObject ro (KChannel queue)))
    (Hopen : s_final g = None ∧ final p = None ∧ outer p = Some self)
    (Hstack : stack g = [output g])
    (Hqueue : Forall nonfinal queue)
    (Hterm : output_terminal throw args = Some (true, throw, targs))
    (Hups : map_Forall (λ o _, is_Some (heap w !! o) ∧ o ≠ self ∧
                               o ≠ inner g ∧ o ≠ output g) (pipes p))
    (Hsimple : Forall is_simple
                 (message_callbacks rs ++ finish_callbacks rs ++
                  message_callbacks ri ++ finish_callbacks ri))
    (Hquiet : Forall (is_quiet_for self)
                (message_callbacks ro ++ finish_callbacks ro)) :
  ∃ w' i1 i2 i3,
    GeneratorStream__end (step_methods rec) self throw args w = Ret tt w' ∧
    heap w' !! self =
    Some (mkObject (mkReg [] [] (Some i1) (Some (throw, args)))
            (KGeneratorStream
               (set_s_final (Some (true, throw, args)) (set__gen None g)))) ∧
    heap w' !! inner g =
    Some (mkObject (mkReg [] [] (Some i2) (Some (throw, args)))
            (KInner (mkPipeable ∅ [] (Some (true, throw, args)) None))) ∧
    heap w' !! output g =
    Some (mkObject (mkReg [] [] (Some i3) (Some (throw, targs)))
            (KChannel (queue ++ [(true, throw, targs)]))) ∧
    (self ∉ _running_streams w') ∧
    (∀ o h, pipes p !! o = Some (Some h) → ¬ registered w' o h) ∧
    (∀ rec' values, Inner_send rec' (inner g) values w' = Ret tt w') ∧
    (queue = [] →
     ∃ w'', Reg_next_raw (methods_from 3 rec) self w' =
            Ret (Some (true, throw, args)) w'').
Proof.
  destruct Hopen as (Hsf & Hpf & Hpo).
  rewrite !Forall_app in Hsimple.
  destruct Hsimple as (Hsm & Hsfc & Him & Hifc).
  rewrite Forall_app in Hquiet. destruct Hquiet as (Hom & Hofc).
  assert (self ≠ inner g) as Hne1 by (intros E; rewrite <- E in Hinner; congruence).
  assert (self ≠ output g) as Hne2 by (intros E; rewrite <- E in Hout; congruence).
  assert (inner g ≠ output g) as Hne3 by (intros E; rewrite <- E in Hout; congruence).
  (* the generator is dropped, the task leaves the running set *)
  set (g1 := set__gen None g).
  set (w1 := upd self (mkObject rs (KGeneratorStream g1)) w).
  set (w2 := mkWorld (heap w1) (fresh w1) (callqueue w1) (event w1)
               (filter (fun o => o ≠ self) (_running_streams w1)) (probe_log w1)).
  assert (heap w2 !! self = Some (mkObject rs (KGeneratorStream g1))) as H2s
    by apply upd_lookup_eq.
  assert (heap w2 !! inner g = Some (mkObject ri (KInner p))) as H2i.
  { subst w2 w1. cbn [heap]. by rewrite upd_lookup_ne. }
  assert (heap w2 !! output g = Some (mkObject ro (KChannel queue))) as H2o.
  { subst w2 w1. cbn [heap]. by rewrite upd_lookup_ne. }
  assert (self ∉ _running_streams w2) as H2r.
  { subst w2. cbn [_running_streams]. intros Hin.
    apply list_elem_of_filter in Hin as [Hin _]. done. }
  (* the pipe-set is closed *)
  destruct (_Pipeable__finish_simple rec (inner g) w2 ri p throw args)
    as (w5 & ii & Hrun5 & H5i & H5same & H5gone & H5r); try done.
  { intros o c Hoc. destruct (Hups o c Hoc) as ([x Hx] & Ho1 & Ho2 & Ho3).
    split; [| done]. subst w2 w1. cbn [heap]. rewrite upd_lookup_ne by done.
    by exists x. }
  assert (∀ o, o ≠ inner g → (o = self ∨ o = output g) →
               heap w5 !! o = heap w2 !! o) as H5frame.
  { intros o Hne Ho. apply H5same; [done |].
    destruct (pipes p !! o) as [c |] eqn: E; [| done].
    destruct (Hups o c E) as (_ & Ho1 & _ & Ho3). by destruct Ho. }
  assert (heap w5 !! self = Some (mkObject rs (KGeneratorStream g1))) as H5s.
  { rewrite H5frame; [done | done | by left]. }
  assert (heap w5 !! output g = Some (mkObject ro (KChannel queue))) as H5o.
  { rewrite H5frame; [done | done | by right]. }
  (* the task is finished *)
  set (g2 := set_s_final (Some (true, throw, args)) g1).
  pose proof (_Stackable__finish_simple rec self rs [] [output g] w5 g1
                throw args H5s Hsf Hstack) as Hrun7.
  cbv zeta in Hrun7. cbn [length] in Hrun7.
  assert (set_stack [output g] (set_s_final (Some (true, throw, args)) g1) = g2)
    as Eg2.
  { subst g2 g1. destruct g. cbn in *. by rewrite Hstack. }
  rewrite Eg2 in Hrun7.
  remember (signalled self (Some (throw, args)) rs (KGeneratorStream g2)
              (upd self (mkObject rs (KGeneratorStream g2)) w5)) as w7 eqn: Ew7.
  assert (heap w7 !! self =
          Some (mkObject (mkReg [] [] (Some (fresh w5)) (Some (throw, args)))
                  (KGeneratorStream g2))) as H7s.
  { subst w7. by rewrite signalled_lookup. }
  assert (∀ o, o ≠ self → heap w7 !! o = heap w5 !! o) as H7frame.
  { intros o Hne. subst w7. rewrite signalled_lookup_ne by done.
    by rewrite upd_lookup_ne. }
  assert (_running_streams w7 = _running_streams w5) as H7r.
  { subst w7. by rewrite signalled_running. }
  assert (heap w7 !! output g = Some (mkObject ro (KChannel queue))) as H7o.
  { rewrite H7frame; [done | congruence]. }
  clear Ew7.
  specialize (Hrun7 ltac:(constructor)).
  assert (_Stackable__finish (methods_from 1 rec) self throw args w5 = Ret tt w7)
    as Hfinish.
  { apply Hrun7; try done. intros o rest' [= <- <-]. exists ro, queue.
    split; [done |]. intros t a rest E. subst queue.
    inversion Hqueue as [| ? ? Hhd _]; subst. discriminate. }
  clear Hrun7.
  (* the output gets its terminal item *)
  pose proof (Channel__push_quiet rec self (output g) w7 ro queue throw
                targs H7o) as Hrun8.
  cbv zeta in Hrun8.
  remember (signalled (output g) (Some (throw, targs)) ro
              (KChannel (queue ++ [(true, throw, targs)]))
              (set_heap (<[output g := mkObject ro
                             (KChannel (queue ++ [(true, throw, targs)]))]>
                           (heap w7)) w7)) as w8 eqn: Ew8.
  assert (heap w8 !! output g =
          Some (mkObject (mkReg [] [] (Some (fresh w7)) (Some (throw, targs)))
                  (KChannel (queue ++ [(true, throw, targs)])))) as H8o.
  { subst w8. by rewrite signalled_lookup. }
  assert (∀ o, o ≠ output g → heap w8 !! o = heap w7 !! o) as H8frame.
  { intros o Hne. subst w8. rewrite signalled_lookup_ne by done.
    cbn. by rewrite lookup_insert_ne. }
  assert (_running_streams w8 = _running_streams w7) as H8r.
  { subst w8. by rewrite signalled_running. }
  clear Ew8.
  assert (Channel__push (step_methods rec) (output g) true throw targs w7 =
          Ret tt w8) as Hpush.
  { apply Hrun8; try done.
    - intros t a. by apply last_nonfinal.
    - by eexists _, g2, _. }
  clear Hrun8.
  assert (GeneratorStream_inner_finish (step_methods rec) self throw args w5 =
          Ret tt w8) as Hinner_finish.
  { unfold GeneratorStream_inner_finish. unfold bind at 1.
    change (step_methods rec) with (methods_from 1 rec) at 1.
    rewrite Hfinish. unfold bind at 1.
    rewrite (get_GeneratorStream_Some _ _ _ _ H7s).
    cbn [output g2 g1 set_s_final set__gen].
    unfold output_terminal in Hterm. destruct throw.
    - destruct args as [| ? [| exc [| tb [| ? ?]]]]; try done.
      injection Hterm as <-. exact Hpush.
    - injection Hterm as <-. exact Hpush. }
  clear Hpush Hfinish.
  (* the pipe-set loses its outer *)
  set (w9 := upd (inner g)
               (mkObject (mkReg [] [] (Some ii) (Some (throw, args)))
                  (KInner (mkPipeable ∅ [] (Some (true, throw, args)) None)))
               w8).
  assert (heap w8 !! inner g =
          Some (mkObject (mkReg [] [] (Some ii) (Some (throw, args)))
                  (KInner (mkPipeable ∅ [] (Some (true, throw, args)) (outer p)))))
    as H8i.
  { rewrite H8frame, H7frame by congruence. done. }
  assert (heap w9 !! inner g =
          Some (mkObject (mkReg [] [] (Some ii) (Some (throw, args)))
                  (KInner (mkPipeable ∅ [] (Some (true, throw, args)) None))))
    as H9i by apply upd_lookup_eq.
  assert (∀ o, o ≠ inner g → heap w9 !! o = heap w8 !! o) as H9frame.
  { intros o Hne. subst w9. by rewrite upd_lookup_ne. }
  assert (_running_streams w9 = _running_streams w8) as H9r by done.
  assert (GeneratorStream__end (step_methods rec) self throw args w = Ret tt w9)
    as Hend.
  { unfold GeneratorStream__end. unfold bind at 1.
    rewrite (get_GeneratorStream_Some _ _ _ _ Hself).
    unfold put_GeneratorStream. unfold bind at 1.
    rewrite (put_kind_upd _ _ _ _ Hself). cbn [reg]. fold g1.
    unfold bind at 1. unfold Inner__finish. unfold bind at 1.
    change (mkWorld _ _ _ _ _ _) with w2.
    rewrite Hrun5. unfold bind at 1.
    rewrite (get_Pipeable_Some _ _ _ _ H5i). cbn [outer]. rewrite Hpo.
    unfold bind at 1. rewrite Hinner_finish. unfold bind at 1.
    rewrite (get_Pipeable_Some _ _ _ _ H8i).
    unfold put_Pipeable. rewrite (put_kind_upd _ _ _ _ H8i). done. }
  exists w9, (fresh w5), ii, (fresh w7).
  split; [exact Hend |]. split.
  { rewrite H9frame, H8frame by done. exact H7s. }
  split; [exact H9i |]. split.
  { rewrite H9frame by done. exact H8o. }
  split.
  { rewrite H9r, H8r, H7r, H5r. exact H2r. }
  split.
  { intros o h Hoh (x & Hx & Hin).
    destruct (Hups o _ Hoh) as (_ & Ho1 & Ho2 & Ho3).
    rewrite H9frame, H8frame, H7frame in Hx by done.
    apply (H5gone o h Hoh). by exists x. }
  split.
  { intros rec' values. unfold Inner_send. unfold bind at 1.
    by rewrite (get_Pipeable_Some _ _ _ _ H9i). }
  intros ->. cbn [app] in *.
  set (r9 := mkReg [] [] (Some (fresh w5)) (Some (throw, args))).
  assert (heap w9 !! self = Some (mkObject r9 (KGeneratorStream g2))) as H9s.
  { rewrite H9frame, H8frame by done. exact H7s. }
  assert (drained w9 (output g)) as Hdr.
  { exists (mkReg [] [] (Some (fresh w7)) (Some (throw, targs))),
      (fresh w7), throw, targs.
    rewrite H9frame by done. by split. }
  pose proof (_Stackable__next_raw_skips_drained rec self r9 [] [output g] w9
                g2 H9s) as Hskip.
  cbn [length app] in Hskip.
  set (w10 := with_stack self r9 g2 [] w9) in *.
  assert (heap w10 !! self =
          Some (mkObject r9 (KGeneratorStream (set_stack [] g2)))) as H10s
    by apply with_stack_lookup.
  assert (_Stackable__next_raw (methods_from 2 rec) self w9 =
          Ret (Some (true, throw, args)) w10) as Hraw.
  { rewrite Hskip; [| by rewrite <- Eg2 | by repeat constructor].
    unfold _Stackable__next_raw. unfold bind at 1.
    by rewrite (get_GeneratorStream_Some _ _ _ _ H10s). }
  clearbody w10. clear Hskip.
  eexists. unfold Reg_next_raw. unfold bind at 1.
  rewrite (get_reg_Some _ _ _ H9s). cbn [reg _id r9].
  rewrite (methods_from_S 2). cbn [m__next_raw step_methods].
  unfold bind at 1. unfold dispatch__next_raw. unfold bind at 1.
  unfold get_kind. unfold bind at 1. rewrite (get_object_Some _ _ _ H9s).
  cbn [ret okind]. rewrite Hraw. munfold. mrun H10s. reflexivity.
Qed.

Lemma GeneratorStream__end_finishes_the_task_witness :
  ∃ w', GeneratorStream__end (step_methods no_methods) 2 false [VInt 7]
          waiting_task_with_input = Ret tt w' ∧
        ∃ w'', Reg_next_raw (methods_from 3 no_methods) 2 w' =
               Ret (Some (true, false, [VInt 7])) w''.
Proof.
  pose proof (fun rs ri ro g p queue Hself Hinner Hout =>
                GeneratorStream__end_finishes_the_task no_methods 2
                  waiting_task_with_input rs ri ro g p queue false [VInt 7]
                  [VInt 7] Hself Hinner Hout) as H.
  specialize (H _ _ _ _ _ _ ltac:(vm_compute; reflexivity)
                ltac:(vm_compute; reflexivity) ltac:(vm_compute; reflexivity)).
  destruct H as (w' & i1 & i2 & i3 & H1 & _ & _ & _ & _ & _ & _ & H2).
  - vm_compute. repeat split; reflexivity.
  - reflexivity.
  - constructor.
  - reflexivity.
  - apply map_Forall_to_list. vm_compute.
    repeat constructor; try discriminate. eexists. reflexivity.
  - vm_compute. constructor.
  - vm_compute. constructor.
  - exists w'. split; [exact H1 |]. apply H2. reflexivity.
Defined.

(** ** stream: the constructor of a task *)

Ltac hrun' :=
  repeat (progress (cbn;
    repeat first [ rewrite lookup_insert_eq
                 | rewrite lookup_insert_ne by (lia || congruence)
                 | rewrite lookup_empty
                 | rewrite bool_decide_true by (done || lia)
                 | rewrite bool_decide_false by (done || lia) ])).

(** X16.  Calling a function decorated with [stream] creates a task and starts
    it, in whatever state the program is: the task, its [inner] pipe-set, its
    input channel and its output channel are four new objects; the input is
    piped into [inner] and pending there, the output is the one entry of the
    task's stack; [inner] and the task have signalled activity once; the
    generator is created but not run, and the one thing added to the call
    queue is the task's [_begin]; no older object is touched. A second [start]
    does nothing. *)
Theorem stream_creates_a_started_task
    (rec : methods) (func : oid → gen) (w : world) :
  let n := fresh w in
  ∃ w',
    stream (step_methods rec) func w = Ret n w' ∧
    heap w' !! n =
    Some (mkObject (mkReg [] [] (Some (n + 5)) None)
            (KGeneratorStream
               (mkGeneratorStream [n + 3] None (n + 1)
                  (Some (GenFresh (func (n + 1)))) true (n + 2) (n + 3) func))) ∧
    heap w' !! (n + 1) =
    Some (mkObject (mkReg [] [] (Some (n + 4)) None)
            (KInner (mkPipeable {[n + 2 := None]} [n + 2] None (Some n)))) ∧
    heap w' !! (n + 2) = Some (mkObject new_Reg (KChannel [])) ∧
    heap w' !! (n + 3) = Some (mkObject new_Reg (KChannel [])) ∧
    (∀ o, o < n → heap w' !! o = heap w !! o) ∧
    fresh w' = n + 6 ∧
    callqueue w' = callqueue w ++ [T_begin n] ∧
    event w' = true ∧
    _running_streams w' = _running_streams w ∧
    probe_log w' = probe_log w ∧
    GeneratorStream_start n w' = Ret tt w'.
Proof.
  intros n. subst n.
  rewrite !Nat.add_succ_r, !Nat.add_0_r. rewrite <- insert_empty.
  eexists. split.
  { unfold stream, FuncStream___init__, Channel___init__, allocate,
      put_GeneratorStream, _Pipeable__pipe, _Stackable__stack,
      GeneratorStream_start, callqueue_add.
    munfold. hrun'.
    unfold Reg_signal_activity, Reg_signal_activity_locked. munfold. hrun'.
    unfold _Stackable_next_is_final. munfold. hrun'.
    unfold dispatch_next_is_final, Channel_next_is_final. munfold. hrun'.
    unfold Reg_signal_activity, Reg_signal_activity_locked. munfold. hrun'.
    reflexivity. }
  cbn [heap fresh callqueue event _running_streams probe_log].
  repeat split;
    try (repeat first [ rewrite lookup_insert_eq
                      | rewrite lookup_insert_ne by lia ]; done).
  - intros o Ho. by rewrite !lookup_insert_ne by lia.
  - unfold GeneratorStream_start. munfold. hrun'. done.
Qed.

(** ** Pipes and sub-streams end to end *)

(** X25.  A pipe maps and hands the result on. In [A | B], where [A] sends
    [v1] and [v2] and finishes with [r], and [B] sends [f x] for every input
    [x] and lets the Finished of its upstream through: a reader of the pair
    gets [f v1], [f v2] and then the terminal item with the args [r] of [A],
    again on every further read; [result()] of the pair is [peel_args r]; both
    tasks are finished. For all values, every [f] and every step index from 12
    on. *)
Theorem pipe_maps_and_hands_the_result_on
    (rec : methods) (f : value → value) (v1 v2 : value) (r : list value) :
  ∃ w', pipe_map (methods_from 12 rec) f v1 v2 r world0 =
        Ret ([Some (false, false, [f v1]); Some (false, false, [f v2]);
              Some (true, false, r); Some (true, false, r)],
             peel_args r, true, true) w'.
Proof. eexists. vm_compute. reflexivity. Qed.


(** X27.  A sub-stream keeps its place in the output. A task that sends [v0],
    then runs [inner.sub(Q)] and waits for its end, where [Q] sends [v1] and
    [v2] and finishes with [r], and that then sends [f x] for the value [x] it
    is resumed with: a reader of the task gets [v0], then the items [v1] and
    [v2] of [Q], then [f (peel_args r)], then the task's own terminal item,
    again on every further read. *)
Theorem sub_stream_keeps_its_place
    (rec : methods) (f : value → value) (v0 v1 v2 : value) (r : list value) :
  ∃ w', sub_stream (methods_from 12 rec) f v0 v1 v2 r world0 =
        Ret ([Some (false, false, [v0]); Some (false, false, [v1]);
              Some (false, false, [v2]); Some (false, false, [f (peel_args r)]);
              Some (true, false, []); Some (true, false, [])],
             VNone) w'.
Proof. eexists. vm_compute. reflexivity. Qed.

(** ** PipePair: the result of a pair *)



(** ** Any: arming the sources *)

Lemma filter_ext_elem {A} (P Q : A → Prop) `{∀ x, Decision (P x)}
    `{∀ x, Decision (Q x)} (l : list A) :
  (∀ x, x ∈ l → (P x ↔ Q x)) → filter P l = filter Q l.
Proof.
  induction l as [| a l IH]; intros Hext; [done |].
  assert (filter P l = filter Q l) as E.
  { apply IH. intros x Hx. apply Hext. by right. }
  destruct (decide (P a)) as [HP | HP].
  - rewrite !filter_cons_True; [by rewrite E | | done].
    apply Hext; [by left | done].
  - rewrite !filter_cons_False; [done | | done].
    intros HQ. apply HP. apply Hext; [by left | done].
Qed.

(** One turn of the loop of [Any._init]. *)
Lemma Any__init_one rec self s w r cbs inc fin x :
  heap w !! self = Some (mkObject r (KAny (mkAny (Some cbs) inc fin))) →
  s ≠ self →
  heap w !! s = Some x →
  ∃ w2 handle,
    (let* handle :=
       Reg_add_message_callback (step_methods rec) s
         (F_callqueue_add_Any_callback self) in
     Any_set_callback self s handle) w = Ret tt w2 ∧
    heap w2 !! self =
    Some (mkObject r (KAny (mkAny (Some (<[s := handle]> cbs)) inc fin))) ∧
    (∀ o, o ≠ self → o ≠ s → heap w2 !! o = heap w !! o) ∧
    (if is_ready w s
     then handle = None ∧ heap w2 !! s = Some x ∧
          callqueue w2 = callqueue w ++ [T_Any_callback self s]
     else handle = Some (fresh w) ∧
          heap w2 !! s =
          Some (with_callback x
                  (mkCallback (fresh w) (F_callqueue_add_Any_callback self))) ∧
          callqueue w2 = callqueue w).
Proof.
  intros Hself Hne Hs. unfold is_ready. rewrite Hs.
  destruct x as [[mcs fcs [i |] res] k].
  - do 2 eexists. split.
    + unfold Reg_add_message_callback, Reg_add_message_callback_locked,
        Any_set_callback.
      munfold. mrun Hs. unfold Callback_call, callqueue_add. cbn.
      unfold get_Any. munfold. mrun Hself. reflexivity.
    + cbn. rewrite lookup_insert_eq. split; [done |]. split.
      * intros o Ho1 Ho2. by rewrite lookup_insert_ne.
      * rewrite lookup_insert_ne by done. done.
  - do 2 eexists. split.
    + unfold Reg_add_message_callback, Reg_add_message_callback_locked,
        Any_set_callback.
      munfold. mrun Hs.
      unfold get_Any. munfold.
      repeat (progress (cbn; rewrite ?lookup_insert_eq;
                        rewrite ?(lookup_insert_ne _ s self) by done;
                        rewrite ?Hself)).
      reflexivity.
    + cbn. rewrite lookup_insert_eq. split; [done |]. split.
      * intros o Ho1 Ho2. by rewrite !lookup_insert_ne.
      * rewrite lookup_insert_ne by done. rewrite lookup_insert_eq. done.
Qed.

(** X23.  [Any._init] arms every source. For distinct sources, each an
    existing stream other than the Any itself: on a source that is quiet (null
    activity id) a [callqueue.add] of the Any's [_callback] is registered and
    its handle stored under the source; for a source that is ready the
    [_callback] is put on the call queue at once, in the order of the sources,
    and null is stored; nothing else changes, and no source is read yet. *)
Theorem Any__init_arms_every_source
    (rec : methods) (self : oid) (r : Reg_state) (inc : bool)
    (fin : option item) (sources : list oid) (w : world)
    (cbs : gmap oid (option oid))
    (Hself : heap w !! self = Some (mkObject r (KAny (mkAny (Some cbs) inc fin))))
    (Hnodup : NoDup sources)
    (Hsrc : Forall (λ s, s ≠ self ∧ is_Some (heap w !! s)) sources) :
  ∃ w' cbs',
    Any__init (step_methods rec) self sources w = Ret tt w' ∧
    heap w' !! self = Some (mkObject r (KAny (mkAny (Some cbs') inc fin))) ∧
    callqueue w' =
    callqueue w ++
    map (T_Any_callback self) (filter (λ s, is_ready w s = true) sources) ∧
    (∀ s x, s ∈ sources → heap w !! s = Some x →
       if is_ready w s
       then cbs' !! s = Some None ∧ heap w' !! s = Some x
       else ∃ h, cbs' !! s = Some (Some h) ∧
                 heap w' !! s =
                 Some (with_callback x
                         (mkCallback h (F_callqueue_add_Any_callback self)))) ∧
    (∀ o, o ∉ sources → cbs' !! o = cbs !! o) ∧
    (∀ o, o ≠ self → o ∉ sources → heap w' !! o = heap w !! o).
Proof.
  revert w cbs Hself Hnodup Hsrc.
  induction sources as [| s sources IH]; intros w cbs Hself Hnodup Hsrc.
  - exists w, cbs. cbn. rewrite app_nil_r. repeat split; try done.
    intros s x Hs. by apply elem_of_nil in Hs.
  - inversion Hnodup as [| ? ? Hnotin Hnodup']; subst.
    inversion Hsrc as [| ? ? [Hne [x Hx]] Hsrc']; subst.
    destruct (Any__init_one rec self s w r cbs inc fin x Hself Hne Hx)
      as (w2 & handle & Hone & Hself2 & Hframe2 & Hs2).
    assert (∀ s', s' ∈ sources → heap w2 !! s' = heap w !! s') as Hkeep.
    { intros s' Hs'. rewrite Forall_forall in Hsrc'.
      destruct (Hsrc' s' Hs') as [Hne' _]. apply Hframe2; [done |].
      intros ->. done. }
    destruct (IH w2 (<[s := handle]> cbs) Hself2 Hnodup')
      as (w' & cbs' & Hrest & Hself' & Hq' & Harmed' & Hcbs' & Hframe').
    { rewrite Forall_forall in Hsrc'. apply Forall_forall. intros s' Hs'.
      destruct (Hsrc' s' Hs') as [Hne' Hsome]. split; [done |].
      by rewrite Hkeep. }
    assert (filter (λ s0, is_ready w2 s0 = true) sources =
            filter (λ s0, is_ready w s0 = true) sources) as Efilter.
    { apply filter_ext_elem. intros s' Hs'. unfold is_ready.
      by rewrite Hkeep. }
    exists w', cbs'. split; [| split; [| split; [| split; [| split]]]].
    + unfold Any__init in *. cbn [for_each]. unfold bind at 1.
      by rewrite Hone.
    + done.
    + rewrite Hq', Efilter.
      destruct (is_ready w s) eqn: Er.
      * destruct Hs2 as (_ & _ & ->).
        rewrite filter_cons_True by done. cbn [map].
        by rewrite <- app_assoc.
      * destruct Hs2 as (_ & _ & ->).
        rewrite filter_cons_False by (rewrite Er; discriminate). done.
    + intros s' x' Hin Hx'. apply elem_of_cons in Hin as [-> | Hin].
      * rewrite Hx in Hx'. injection Hx' as <-.
        rewrite Hcbs' by done. rewrite lookup_insert_eq.
        rewrite Hframe' by done.
        destruct (is_ready w s).
        -- by destruct Hs2 as (-> & -> & _).
        -- destruct Hs2 as (-> & -> & _). by eexists.
      * assert (is_ready w2 s' = is_ready w s') as <-.
        { unfold is_ready. by rewrite Hkeep. }
        apply Harmed'; [done |]. by rewrite Hkeep.
    + intros o Ho. rewrite Hcbs'.
      * rewrite lookup_insert_ne; [done |]. intros ->. apply Ho. by left.
      * intros Hin. apply Ho. by right.
    + intros o Hne' Ho. rewrite Hframe'; [| done |].
      * apply Hframe2; [done |]. intros ->. apply Ho. by left.
      * intros Hin. apply Ho. by right.
Qed.

Lemma Any__init_arms_every_source_witness :
  ∃ w' cbs',
    Any__init (step_methods no_methods) 5 [2; 3] any_created = Ret tt w' ∧
    heap w' !! 5 = Some (mkObject new_Reg (KAny (mkAny (Some cbs') true None))) ∧
    cbs' !! 3 = Some None.
Proof.
  edestruct (Any__init_arms_every_source no_methods 5 new_Reg true None [2; 3]
               any_created ∅) as (w' & cbs' & H1 & H2 & _ & H3 & _).
  - vm_compute. reflexivity.
  - apply NoDup_cons. split; [| apply NoDup_singleton].
    intros Hin. apply list_elem_of_singleton in Hin. discriminate Hin.
  - repeat constructor; try discriminate; eexists; vm_compute; reflexivity.
  - exists w', cbs'. split; [exact H1 |]. split; [exact H2 |].
    edestruct (H3 3) as [H4 _].
    + apply list_elem_of_In. simpl. right. left. reflexivity.
    + vm_compute. reflexivity.
    + exact H4.
Defined.

(** ** Pipe-sets: the callback of an upstream *)



(** ** The stack of a task: stacking *)



(** ** The start of a task *)

(** [null_source] is always ready: with its activity id set, a read
    returns the empty plain item and changes nothing. *)
Lemma NullSource_ready rec w rn i :
  heap w !! null_source = Some (mkObject rn KNullSource) →
  _id rn = Some i →
  Reg_next_raw (step_methods rec) null_source w = Ret (Some (false, false, [])) w.
Proof.
  intros Hnull Hready. unfold Reg_next_raw. munfold. mrun Hnull.
  rewrite Hready. unfold dispatch__next_raw, NullSource__next_raw. munfold.
  by mrun Hnull.
Qed.

(** X17.  [_begin] runs the coroutine of a started task up to its first
    [yield]. The task joins [_running_streams]; the generator is resumed with
    None, the empty item of [null_source], which stays as it is. A body that
    returns at once ends the task with the empty result, and one that raises
    ends it with that exception, Finished and StopIteration counting as a
    return with their args. A body that reaches a bare [yield] is suspended
    there and its next step is put on the call queue at once; one that yields
    a stream is suspended with its next step registered on that stream. *)
Theorem GeneratorStream__begin_runs_to_the_first_yield
    (rec : methods) (self : oid) (w : world) (rg rn : Reg_state)
    (g : GeneratorStream_state) (i : oid) (body : gen)
    (Hnull : heap w !! null_source = Some (mkObject rn KNullSource))
    (Hready : _id rn = Some i)
    (Hself : heap w !! self = Some (mkObject rg (KGeneratorStream g)))
    (Hgen : _gen g = Some (GenFresh body)) :
  let w1 := running self w in
  let suspended s t :=
    upd self (mkObject rg (KGeneratorStream
                             (set__gen (Some (GenSuspended s t)) g))) w1 in
  Reg_next_raw (step_methods rec) null_source w1 =
  Ret (Some (false, false, [])) w1 ∧
  (body = Return_ →
   GeneratorStream__begin (step_methods rec) self w =
   GeneratorStream__end (step_methods rec) self false [] w1) ∧
  (∀ e, body = RaiseExc e →
   GeneratorStream__begin (step_methods rec) self w =
   if is_StopIteration_or_Finished e
   then GeneratorStream__end (step_methods rec) self false (exn_args e) w1
   else GeneratorStream__end (step_methods rec) self true (exc_info e) w1) ∧
  (∀ s t, body = Yield YNone s t →
   GeneratorStream__begin (step_methods rec) self w =
   Ret tt (scheduled (T_step self null_source) (next_fresh (suspended s t)))) ∧
  (∀ o s t, body = Yield (YStream o) s t →
   GeneratorStream__begin (step_methods rec) self w =
   (Reg_add_message_callback (step_methods rec) o (F_callqueue_add_step self) >>
    ret tt) (suspended s t)).
Proof.
  intros w1 suspended.
  assert (heap w1 !! null_source = Some (mkObject rn KNullSource)) as Hnull1
    by exact Hnull.
  assert (heap w1 !! self = Some (mkObject rg (KGeneratorStream g))) as Hself1
    by exact Hself.
  assert (self ≠ null_source) as Hne by (intros E; rewrite E in Hself; congruence).
  pose proof (NullSource_ready rec w1 rn i Hnull1 Hready) as Hread.
  assert (GeneratorStream__begin (step_methods rec) self w =
            match gen_run (step_methods rec) (inner g) body w1 with
            | Raise e w' =>
                if is_StopIteration_or_Finished e
                then GeneratorStream__end (step_methods rec) self false
                       (exn_args e) w'
                else GeneratorStream__end (step_methods rec) self true
                       (exc_info e) w'
            | Ret (y, st') w' =>
                match (let* g := get_GeneratorStream self in
                       put_GeneratorStream self (set__gen (Some st') g) >>
                       ret y) w' with
                | Ret y w'' =>
                    (let* next :=
                       match y with
                       | YNone => ret null_source
                       | YStream o => ret o
                       | YStreams (first :: rest) =>
                           Any___init__ false first rest
                       | YStreams [] => raise (new_exn TypeError [])
                       end in
                     Reg_add_message_callback (step_methods rec) next
                       (F_callqueue_add_step self) >> ret tt) w''
                | Raise e w'' =>
                    if is_StopIteration_or_Finished e
                    then GeneratorStream__end (step_methods rec) self false
                           (exn_args e) w''
                    else GeneratorStream__end (step_methods rec) self true
                           (exc_info e) w''
                | Diverge => Diverge
                end
            | Diverge => Diverge
            end) as Hbegin.
  { unfold GeneratorStream__begin. unfold bind at 1.
    fold (running self w). fold w1.
    unfold GeneratorStream__step. unfold bind at 1. rewrite Hread.
    unfold gen_resume. unfold bind at 1.
    rewrite (get_GeneratorStream_Some _ _ _ _ Hself1). rewrite Hgen.
    cbn [gen_continue peel_args]. unfold bind at 1.
    destruct (gen_run (step_methods rec) (inner g) body w1)
      as [[y st'] w' | e w' |]; try done. }
  split; [exact Hread |]. split; [| split; [| split]].
  - intros ->. rewrite Hbegin. done.
  - intros e ->. rewrite Hbegin. done.
  - intros s t ->. rewrite Hbegin. cbn [gen_run ret].
    unfold bind at 1. rewrite (get_GeneratorStream_Some _ _ _ _ Hself1).
    unfold put_GeneratorStream. unfold bind at 1.
    rewrite (put_kind_upd _ _ _ _ Hself1). cbn [reg ret].
    fold (suspended s t). unfold bind at 1. cbn [ret]. unfold bind at 1.
    assert (heap (suspended s t) !! null_source =
            Some (mkObject rn KNullSource)) as Hnull2.
    { unfold suspended. by rewrite upd_lookup_ne. }
    unfold Reg_add_message_callback, Reg_add_message_callback_locked.
    generalize dependent (suspended s t). intros w2 Hnull2.
    munfold. mrun Hnull2. rewrite Hready. done.
  - intros o s t ->. rewrite Hbegin. cbn [gen_run ret].
    unfold bind at 1. rewrite (get_GeneratorStream_Some _ _ _ _ Hself1).
    unfold put_GeneratorStream. unfold bind at 1.
    rewrite (put_kind_upd _ _ _ _ Hself1). cbn [reg ret].
    fold (suspended s t). unfold bind at 1. cbn [ret]. unfold bind at 1.
    done.
Qed.

Lemma GeneratorStream__begin_runs_to_the_first_yield_witness :
  ∃ w', GeneratorStream__begin (step_methods no_methods) 2 waiting_task_started =
        (Reg_add_message_callback (step_methods no_methods) 3
           (F_callqueue_add_step 2) >> ret tt) w'.
Proof.
  pose proof (fun rg rn g i body Hnull Hready Hself Hgen =>
                GeneratorStream__begin_runs_to_the_first_yield no_methods 2
                  waiting_task_started rg rn g i body Hnull Hready Hself Hgen)
    as H.
  specialize (H _ _ _ _ _ ltac:(vm_compute; reflexivity) ltac:(reflexivity)
                ltac:(vm_compute; reflexivity) ltac:(reflexivity)).
  destruct H as (_ & _ & _ & _ & H).
  eexists. apply (H 3). reflexivity.
Defined.

(** ** Reg.next_raw: the terminal item *)



(** ** Sending to a task, and waiting for one of several streams *)


(** X29.  A coroutine that yields several streams is resumed with the first
    item of any of them. With [x = yield c1, c2] and [v] sent to [c2] only,
    the coroutine is resumed with [v] itself, not with a pair of source and
    value; the task sends [f v] and ends; and the callback that the wait had
    registered on [c1] is discarded. *)
Theorem yield_of_several_streams_takes_the_first_item
    (rec : methods) (f : value → value) (v : value) :
  ∃ w', yield_any (methods_from 12 rec) f v world0 =
        Ret ([Some (false, false, [f v]); Some (true, false, [])], []) w'.
Proof. eexists. vm_compute. reflexivity. Qed.
